(** * GEPreProcessor: spot detection in a GE detector frame stack

    Shallow embedding of [ge_processor/ge_pre_processor.py].

    The class [GEPreProcessor] is a record of its attributes; every method
    takes the record and returns the updated record together with its
    return value, or the Python exception it raises.  numpy arrays are
    nested lists indexed (frame, row, column).  The array [ge_data] is the
    one store that [find_local_maxima] reads and writes through the views
    [ge_data[slice_x, slice_y, slice_z]].

    Intensities are exact rationals ([Qc]): the order, the equality test
    and the zeroing that the detection stages rely on are those of the
    real numbers.  Only [load_data] computes with the intensities, one
    division and one multiplication per voxel; it is embedded twice:
    over [Qc], where the quotient and the products are exact, and in
    [Binary64] over IEEE 754 binary64 numbers as [SpecFloat] defines
    them, where they are rounded as the machine rounds them.  The calls
    into numpy and scipy.ndimage are modelled by what their documentation
    says they compute. *)

From Stdlib Require Import ZArith QArith Qcanon List Lia SpecFloat.
From stdpp Require Import base numbers list sorting gmap.

Local Open Scope Qc_scope.

(** ** Python exceptions and results *)

(** The exceptions the modelled statements can raise. *)
Inductive exn : Type :=
  | ValueError
  | ZeroDivisionError
  | IndexError.

Inductive result (A : Type) : Type :=
  | Ok (a : A)
  | Raise (e : exn).
Arguments Ok {A} a.
Arguments Raise {A} e.

Global Instance exn_eq_dec : EqDecision exn.
Proof. solve_decision. Defined.

Global Instance result_ret : MRet result := fun A a => Ok a.
Global Instance result_bind : MBind result := fun A B f m =>
  match m with
  | Ok a => f a
  | Raise e => Raise e
  end.

Definition returns {A} (r : result A) : Prop := exists a, r = Ok a.
Definition raises {A} (r : result A) : Prop := exists e, r = Raise e.

(** ** Arrays *)

(** A three-dimensional array, axes (frame, row, column). *)
Abbreviation ndarray A := (list (list (list A))).

(** An array of intensities. *)
Abbreviation volume := (ndarray Qc).

(** A voxel position. *)
Abbreviation idx := (nat * nat * nat)%type.

Section Ndarray.
Context {A B : Type}.

(** Elements in C (row-major) order, as [ndarray.ravel]. *)
Definition ravel (v : ndarray A) : list A := mjoin (mjoin v).

(** Element-wise application (a numpy ufunc). *)
Definition amap (f : A -> B) (v : ndarray A) : ndarray B :=
  fmap (M:=list) (fmap (M:=list) (fmap (M:=list) f)) v.

(** Element-wise application that also sees the position. *)
Definition imap3 (f : idx -> A -> B) (v : ndarray A) : ndarray B :=
  imap (fun i => imap (fun j => imap (fun k => f (i, j, k)))) v.

(** [v[i, j, k]] for an index within bounds. *)
Definition getitem (v : ndarray A) (p : idx) : option A :=
  let '(i, j, k) := p in
  r ← (f ← v !! i; f !! j); r !! k.
End Ndarray.

(** The positions of an array, in C order. *)
Definition indices {A} (v : ndarray A) : list idx :=
  ravel (imap3 (fun p _ => p) v).

(** [np.amax]: the largest element of a non-empty list. *)
Definition Qcmax (x y : Qc) : Qc := if decide (x ≤ y) then y else x.

Definition maximum (x : Qc) (l : list Qc) : Qc := fold_left Qcmax l x.

(** ** The class state *)

(** A Python [slice(start, stop)]. *)
Record slice : Type := mkSlice { start : nat; stop : nat }.

Record GEBlob : Type := mkGEBlob {
  slice_x : slice;
  slice_y : slice;
  slice_z : slice;
  blob_label : nat;
  blob_size : nat
}.

Record GEPreProcessor : Type := mkGEPreProcessor {
  threshold : Qc;               (* cfg.fit_grains.threshold *)
  gauss_sigma : Z;
  ge_data : volume;
  ge_smooth_data : volume;
  ge_labeled_data : ndarray nat;
  number_of_labels : nat;
  min_blob_size : Z;
  int_scale_factor : Qc;
  min_peak_separation : Z;
  blobs : list GEBlob;
  blob_sizes : option (list nat)   (* set by find_blobs only *)
}.

(** [GEPreProcessor.__init__]. *)
Definition init (cfg_threshold : Qc) (gauss_sigma min_blob_size min_peak_separation : Z)
  : GEPreProcessor :=
  {| threshold := cfg_threshold;
     gauss_sigma := gauss_sigma;
     ge_data := [];
     ge_smooth_data := [];
     ge_labeled_data := [];
     number_of_labels := 0;
     min_blob_size := min_blob_size;
     int_scale_factor := 1;
     min_peak_separation := min_peak_separation;
     blobs := [];
     blob_sizes := None |}.

(** ** Stage 1: [load_data] *)

(** [frame_list[frame_list < threshold] = 0]. *)
Definition zero_below (thr : Qc) (v : volume) : volume :=
  amap (fun x => if decide (x < thr) then 0 else x) v.

(** [np.amax(frame_list)]; a zero-size array has no maximum. *)
Definition amax (v : volume) : result Qc :=
  match ravel v with
  | [] => Raise ValueError
  | x :: l => Ok (maximum x l)
  end.

(** [float(a) / float(b)], the quotient taken exactly. *)
Definition float_div (a b : Qc) : result Qc :=
  if decide (b = 0) then Raise ZeroDivisionError else Ok (a / b).

(** Lines 111-114: threshold, compute the scale factor, rescale; the
    products are taken exactly. *)
Definition normalize (thr : Qc) (frames : volume) : result (volume * Qc) :=
  let frame_list := zero_below thr frames in
  m ← amax frame_list;
  int_scale_factor ← float_div (Qc_of_Z (2 ^ 14)) m;
  Ok (amap (fun x => x * int_scale_factor) frame_list, int_scale_factor).

(** [frame_list[100, ...]]: the integer index on axis 0 is bounds-checked,
    the two slices are not. *)
Definition diagnostic_frame {A} (v : ndarray A) (i : nat) : result (list (list A)) :=
  match v !! i with
  | Some f => Ok f
  | None => Raise IndexError
  end.

(** [load_data]: [frames] are the frames the reader hands out. *)
Definition load_data (self : GEPreProcessor) (frames : volume)
  : result (GEPreProcessor * volume) :=
  '(frame_list, int_scale_factor) ← normalize (threshold self) frames;
  _ ← diagnostic_frame frame_list 100;
  let self' :=
    {| threshold := threshold self;
       gauss_sigma := gauss_sigma self;
       ge_data := frame_list;
       ge_smooth_data := ge_smooth_data self;
       ge_labeled_data := ge_labeled_data self;
       number_of_labels := number_of_labels self;
       min_blob_size := min_blob_size self;
       int_scale_factor := int_scale_factor;
       min_peak_separation := min_peak_separation self;
       blobs := blobs self;
       blob_sizes := blob_sizes self |} in
  Ok (self', frame_list).

(** ** Stage 1 in binary64 *)

(** Lines 111-120 once more, on the values the machine holds: a Python
    [float] and a numpy [float64] are IEEE 754 binary64 numbers, and
    [SFdiv] and [SFmul] round to nearest, ties to even, as lines 113 and
    114 do.  Integer frames enter as the binary64 numbers of the same
    value. *)
Module Binary64.

Definition prec : Z := 53%Z.
Definition emax : Z := 1024%Z.

(** [float(n)] for an integer. *)
Definition of_Z (n : Z) : spec_float := binary_normalize prec emax n 0 false.

Definition is_nan (x : spec_float) : bool :=
  match x with
  | S754_nan => true
  | _ => false
  end.

Definition is_zero (x : spec_float) : bool :=
  match x with
  | S754_zero _ => true
  | _ => false
  end.

(** A frame value: a finite binary64 number that is not negative. *)
Definition intensity (x : spec_float) : bool :=
  valid_binary prec emax x &&
  match x with
  | S754_zero _ | S754_finite false _ _ => true
  | _ => false
  end.

(** The attributes [load_data] reads and assigns. *)
Record GEPreProcessor : Type := mkGEPreProcessor {
  threshold : spec_float;          (* cfg.fit_grains.threshold *)
  ge_data : ndarray spec_float;
  int_scale_factor : spec_float
}.

(** [frame_list[frame_list < threshold] = 0]. *)
Definition zero_below (thr : spec_float) (v : ndarray spec_float)
  : ndarray spec_float :=
  amap (fun x => if SFltb x thr then S754_zero false else x) v.

(** [np.maximum]: the larger number; a NaN wins. *)
Definition np_maximum (a b : spec_float) : spec_float :=
  if SFleb b a || is_nan a then a else b.

(** [np.amax(frame_list)]; a zero-size array has no maximum. *)
Definition amax (v : ndarray spec_float) : result spec_float :=
  match ravel v with
  | [] => Raise ValueError
  | x :: l => Ok (fold_left np_maximum l x)
  end.

(** [float(a) / float(b)]: Python raises on a zero divisor of either
    sign. *)
Definition float_div (a b : spec_float) : result spec_float :=
  if is_zero b then Raise ZeroDivisionError else Ok (SFdiv prec emax a b).

(** Lines 111-114: threshold, compute the scale factor, rescale. *)
Definition normalize (thr : spec_float) (frames : ndarray spec_float)
  : result (ndarray spec_float * spec_float) :=
  let frame_list := zero_below thr frames in
  m ← amax frame_list;
  int_scale_factor ← float_div (of_Z (2 ^ 14)) m;
  Ok (amap (fun x => SFmul prec emax x int_scale_factor) frame_list,
      int_scale_factor).

(** [load_data]: [frames] are the frames the reader hands out. *)
Definition load_data (self : GEPreProcessor) (frames : ndarray spec_float)
  : result (GEPreProcessor * ndarray spec_float) :=
  '(frame_list, int_scale_factor) ← normalize (threshold self) frames;
  _ ← diagnostic_frame frame_list 100;
  let self' :=
    {| threshold := threshold self;
       ge_data := frame_list;
       int_scale_factor := int_scale_factor |} in
  Ok (self', frame_list).

End Binary64.

(** 101 frames of one voxel: a hundred times 7.0, then 49.0. *)
Definition stack_7_49 : ndarray spec_float :=
  replicate 100 [[Binary64.of_Z 7]] ++ [[[Binary64.of_Z 49]]].

(** 101 frames of one voxel: a hundred times 3.0, then 16384.0. *)
Definition stack_3_16384 : ndarray spec_float :=
  replicate 100 [[Binary64.of_Z 3]] ++ [[[Binary64.of_Z (2 ^ 14)]]].

(** Positive or NaN: what the maximum is once a positive number or a NaN
    has come by. *)
Definition positive_or_nan (x : spec_float) : Prop :=
  Binary64.is_nan x = true \/ SFltb (S754_zero false) x = true.

(** ** Stage 3: connected components ([ndimage.label]) *)

(** [ge_data_smooth > threshold]. *)
Definition greater (v : volume) (thr : Qc) : ndarray bool :=
  amap (fun x => bool_decide (thr < x)) v.

(** The positions that hold [true], in C order. *)
Definition foreground (mask : ndarray bool) : list idx :=
  (filter (fun pb => pb.2 = true) (ravel (imap3 pair mask))).*1.

Definition dist (a b : nat) : nat := (a - b) + (b - a).

(** The default structuring element of [ndimage.label]: two voxels are
    neighbours when they share a face. *)
Definition adjacent (p q : idx) : Prop :=
  let '(i, j, k) := p in
  let '(i', j', k') := q in
  (dist i i' + dist j j' + dist k k' = 1)%nat.

Global Instance adjacent_dec : RelDecision adjacent.
Proof. intros [[i j] k] [[i' j'] k']. unfold adjacent. apply _. Defined.

(** The face neighbours of a voxel. *)
Definition neighbours (p : idx) : list idx :=
  let '(i, j, k) := p in
  [(S i, j, k); (i, S j, k); (i, j, S k)]
  ++ match i with O => [] | S i' => [(i', j, k)] end
  ++ match j with O => [] | S j' => [(i, j', k)] end
  ++ match k with O => [] | S k' => [(i, j, k')] end.

(** One round of flooding: add the foreground voxels that have a
    neighbour in the set. *)
Definition grow (fg : list idx) (X : gset idx) : gset idx :=
  X ∪ list_to_set (filter (fun q => Exists (fun p => p ∈ X) (neighbours q)) fg).

(** The connected component of [p]. *)
Definition component (fg : list idx) (p : idx) : gset idx :=
  Nat.iter (length fg) (grow fg) {[ p ]}.

(** The first voxel, in C order, of the component of [p]. *)
Definition first_voxel (fg : list idx) (p : idx) : option idx :=
  let c := component fg p in
  snd <$> list_find (fun q => q ∈ c) fg.

(** The first voxels of all components, in C order. *)
Definition roots (fg : list idx) : list idx :=
  filter (fun r => first_voxel fg r = Some r) fg.

(** Components are numbered 1, 2, ... in the order of their first voxels. *)
Definition label_of (fg roots : list idx) (p : idx) : nat :=
  match first_voxel fg p with
  | Some r =>
      match list_find (fun r' => r' = r) roots with
      | Some (n, _) => S n
      | None => 0
      end
  | None => 0
  end.

(** [ndimage.label(mask)]: the label array and the number of labels. *)
Definition ndimage_label (mask : ndarray bool) : ndarray nat * nat :=
  let fg := foreground mask in
  let rs := roots fg in
  (imap3 (fun p (b : bool) => if b then label_of fg rs p else 0%nat) mask,
   length rs).


(** ** Stage 4: [find_blobs] *)

(** [np.amax(a, 0)]: reducing over an axis of length zero is an error.
    The projection itself only goes to the image writer. *)
Definition amax_axis0 {A} (v : ndarray A) : result unit :=
  match v with
  | [] => Raise ValueError
  | _ :: _ => Ok ()
  end.

(** [ndimage.sum(input, labels, index)] for a boolean [input]: for every
    entry of [index], how many [true] voxels carry that label. *)
Definition ndimage_sum (input : ndarray bool) (labels : ndarray nat)
    (index : list nat) : list nat :=
  fmap (fun i =>
          length (filter (fun bl => bl.1 = true /\ bl.2 = i)
                         (zip (ravel input) (ravel labels))))
       index.

(** [np.unique]: the distinct values, ascending. *)
Definition np_unique (v : ndarray nat) : list nat :=
  merge_sort Nat.le (remove_dups (ravel v)).

(** [label_ge == label_num]. *)
Definition equal_to (v : ndarray nat) (n : nat) : ndarray bool :=
  amap (fun l => bool_decide (l = n)) v.

Definition box : Type := slice * slice * slice.

Definition around (p : idx) : box :=
  let '(i, j, k) := p in
  (mkSlice i (S i), mkSlice j (S j), mkSlice k (S k)).

Definition widen (s : slice) (i : nat) : slice :=
  mkSlice (start s `min` i) (stop s `max` S i).

Definition extend (b : box) (p : idx) : box :=
  let '(sx, sy, sz) := b in
  let '(i, j, k) := p in
  (widen sx i, widen sy j, widen sz k).

(** [ndimage.find_objects] on a boolean array: one entry, the tight box
    around the [true] voxels, or no entry when there is none. *)
Definition find_objects (input : ndarray bool) : list box :=
  match foreground input with
  | [] => []
  | p :: ps => [fold_left extend ps (around p)]
  end.

Definition extent (s : slice) : nat := stop s - start s.

(** [min_size ** (1.0/3.0)] is a float power; Python 2 raises ValueError
    for a negative base.  The comparison [e < min_size ** (1.0/3.0)] is
    taken over the reals: [e ^ 3 < min_size]. *)
Definition below_cbrt (e : nat) (min_size : Z) : result bool :=
  if decide (min_size < 0)%Z then Raise ValueError
  else Ok (bool_decide (Z.of_nat e ^ 3 < min_size)%Z).

(** The loop over [zip(blob_labels, blob_sizes)]; [acc] is the list
    [blobs] being appended to. *)
Fixpoint filter_blobs (min_size : Z) (label_ge : ndarray nat)
    (pairs : list (nat * nat)) (acc : list GEBlob) : result (list GEBlob) :=
  match pairs with
  | [] => Ok acc
  | (label_num, size) :: rest =>
      if decide (label_num = 0%nat) then filter_blobs min_size label_ge rest acc
      else if decide (Z.of_nat size < min_size)%Z
      then filter_blobs min_size label_ge rest acc
      else
        match find_objects (equal_to label_ge label_num) with
        | [] => Raise IndexError
        | (sx, sy, sz) :: _ =>
            let bbox := [extent sx; extent sy; extent sz] in
            thin ← below_cbrt (foldr Nat.min (extent sx) bbox) min_size;
            if (thin : bool) then filter_blobs min_size label_ge rest acc
            else filter_blobs min_size label_ge rest
                   (acc ++ [mkGEBlob sx sy sz label_num size])
        end
  end.

Definition find_blobs (self : GEPreProcessor)
  : result (GEPreProcessor * ndarray nat) :=
  let min_size := min_blob_size self in
  let ge_mask := greater (ge_smooth_data self) (threshold self) in
  let '(label_ge, number_of_labels) := ndimage_label ge_mask in
  _ ← amax_axis0 label_ge;
  let sizes := ndimage_sum ge_mask label_ge (seq 0 (number_of_labels + 1)) in
  let blob_labels := np_unique label_ge in
  blobs ← filter_blobs min_size label_ge (zip blob_labels sizes) [];
  let self' :=
    {| threshold := threshold self;
       gauss_sigma := gauss_sigma self;
       ge_data := ge_data self;
       ge_smooth_data := ge_smooth_data self;
       ge_labeled_data := label_ge;
       number_of_labels := number_of_labels;
       min_blob_size := min_blob_size self;
       int_scale_factor := int_scale_factor self;
       min_peak_separation := min_peak_separation self;
       blobs := blobs;
       blob_sizes := Some sizes |} in
  Ok (self', label_ge).

(** ** Stage 5: [find_local_maxima] *)

(** [l[start:stop]]; Python clips a slice to the length of the axis. *)
Definition slice_list {A} (s : slice) (l : list A) : list A :=
  take (stop s - start s) (drop (start s) l).

(** The contents seen through the view [store[sx, sy, sz]]. *)
Definition view_read {A} (store : ndarray A) (b : box) : ndarray A :=
  let '(sx, sy, sz) := b in
  fmap (fun f => fmap (slice_list sz) (slice_list sy f)) (slice_list sx store).

Definition in_slice (s : slice) (i : nat) : bool :=
  bool_decide (start s <= i < stop s)%nat.

(** [view[mask] = c] for the view [store[sx, sy, sz]]: the assignment
    lands in [store]. *)
Definition view_assign {A} (store : ndarray A) (b : box)
    (mask : ndarray bool) (c : A) : ndarray A :=
  let '(sx, sy, sz) := b in
  imap3 (fun '(i, j, k) x =>
           if in_slice sx i && in_slice sy j && in_slice sz k then
             match getitem mask ((i - start sx)%nat, (j - start sy)%nat,
                                 (k - start sz)%nat) with
             | Some true => c
             | _ => x
             end
           else x)
        store.

Definition shape {A} (v : ndarray A) : nat * nat * nat :=
  (length v, length (default [] (head v)),
   length (default [] (head (default [] (head v))))).

(** The offsets covered by a filter of width [size] with origin 0:
    [-(size/2) .. size - size/2 - 1]. *)
Definition offsets (size : Z) : list Z := seqZ (- (size / 2)) size.

(** [mode='nearest']: an index beyond the edge reads the edge voxel. *)
Definition nearest (n : nat) (z : Z) : nat :=
  Z.to_nat (Z.max 0 (Z.min z (Z.of_nat n - 1))).

Definition at_nearest (input : volume) (p : idx) (d : Z * Z * Z) : Qc :=
  let '(n0, n1, n2) := shape input in
  let '(i, j, k) := p in
  let '(di, dj, dk) := d in
  default 0 (getitem input (nearest n0 (Z.of_nat i + di),
                            nearest n1 (Z.of_nat j + dj),
                            nearest n2 (Z.of_nat k + dk))).

(** The values under the cubic window placed on [p]. *)
Definition window (input : volume) (size : Z) (p : idx) : list Qc :=
  di ← offsets size; dj ← offsets size; dk ← offsets size;
  [at_nearest input p (di, dj, dk)].

(** [ndimage.maximum_filter(input, size, mode='nearest')].  Axes whose
    filter width is not above 1 are left as they are. *)
Definition maximum_filter (input : volume) (size : Z) : volume :=
  if decide (size <= 1)%Z then input
  else imap3 (fun p x =>
                match window input size p with
                | [] => x
                | y :: l => maximum y l
                end) input.

Definition zip_with3 {A B C} (f : A -> B -> C) (a : ndarray A) (b : ndarray B)
  : ndarray C :=
  zip_with (zip_with (zip_with f)) a b.

(** [a[mask]]: the elements of [a] where [mask] holds, as a new array. *)
Definition select {A} (a : ndarray A) (mask : ndarray bool) : list A :=
  (filter (fun xb => xb.2 = true) (zip (ravel a) (ravel mask))).*1.

(** The body of the loop for one blob, on the store [ge_data]. *)
Definition suppress_blob (int_scale_factor thr : Qc) (min_peak_separation : Z)
    (ge_data : volume) (blob : GEBlob) : result volume :=
  let b := (slice_x blob, slice_y blob, slice_z blob) in
  let roi := view_read ge_data b in
  _ ← amax_axis0 roi;
  let max_points :=
    zip_with3 (fun x m => bool_decide (x = m)) roi
              (maximum_filter roi min_peak_separation) in
  let _ := select max_points
             (amap (fun x => bool_decide (x < int_scale_factor * thr)) roi) in
  Ok (view_assign ge_data b (amap negb max_points) 0).

(** The loop over the blobs.  The store keeps what the blobs before a
    failing one wrote. *)
Fixpoint suppress_blobs (int_scale_factor thr : Qc) (min_peak_separation : Z)
    (ge_data : volume) (bs : list GEBlob) : volume * result unit :=
  match bs with
  | [] => (ge_data, Ok ())
  | blob :: rest =>
      match suppress_blob int_scale_factor thr min_peak_separation ge_data blob with
      | Ok ge_data' =>
          suppress_blobs int_scale_factor thr min_peak_separation ge_data' rest
      | Raise e => (ge_data, Raise e)
      end
  end.

Definition find_local_maxima (self : GEPreProcessor)
  : GEPreProcessor * result (list GEBlob) :=
  let '(ge_data', r) :=
    suppress_blobs (int_scale_factor self) (threshold self)
                   (min_peak_separation self) (ge_data self) (blobs self) in
  let self' :=
    {| threshold := threshold self;
       gauss_sigma := gauss_sigma self;
       ge_data := ge_data';
       ge_smooth_data := ge_smooth_data self;
       ge_labeled_data := ge_labeled_data self;
       number_of_labels := number_of_labels self;
       min_blob_size := min_blob_size self;
       int_scale_factor := int_scale_factor self;
       min_peak_separation := min_peak_separation self;
       blobs := blobs self;
       blob_sizes := blob_sizes self |} in
  (self', _ ← r; Ok (blobs self)).

(** ** Notions used in the statements *)

Definition in_box (b : box) (p : idx) : Prop :=
  let '(sx, sy, sz) := b in
  let '(i, j, k) := p in
  (start sx <= i < stop sx /\ start sy <= j < stop sy /\
   start sz <= k < stop sz)%nat.

Global Instance in_box_dec b p : Decision (in_box b p).
Proof. destruct b as [[sx sy] sz], p as [[i j] k]. unfold in_box. apply _. Defined.

(** The position of the store that the view position [p] stands for. *)
Definition to_store (b : box) (p : idx) : idx :=
  let '(sx, sy, sz) := b in
  let '(i, j, k) := p in
  ((start sx + i)%nat, (start sy + j)%nat, (start sz + k)%nat).

(** The view position of a position of the store. *)
Definition to_view (b : box) (p : idx) : idx :=
  let '(sx, sy, sz) := b in
  let '(i, j, k) := p in
  ((i - start sx)%nat, (j - start sy)%nat, (k - start sz)%nat).

Definition rect {A} (n1 n2 : nat) (v : ndarray A) : Prop :=
  Forall (fun fr => length fr = n1 /\ Forall (fun r => length r = n2) fr) v.

(** numpy arrays are rectangular. *)
Definition rectangular {A} (v : ndarray A) : Prop :=
  exists n1 n2, rect n1 n2 v.

(** The offsets a filter of width [s] covers. *)
Definition in_range (s d : Z) : Prop := (- (s / 2) <= d < s - s / 2)%Z.

(** [q] lies in the window of width [s] placed on [p]. *)
Definition in_window (s : Z) (p q : idx) : Prop :=
  let '(i, j, k) := p in
  let '(i', j', k') := q in
  in_range s (Z.of_nat i' - Z.of_nat i) /\
  in_range s (Z.of_nat j' - Z.of_nat j) /\
  in_range s (Z.of_nat k' - Z.of_nat k).

(** [p] holds [x], and no voxel of [input] in the window on [p] is larger. *)
Definition local_maximum (input : volume) (s : Z) (p : idx) (x : Qc) : Prop :=
  getitem input p = Some x /\
  forall q y, in_window s p q -> getitem input q = Some y -> y ≤ x.

Definition blob_box (blob : GEBlob) : box :=
  (slice_x blob, slice_y blob, slice_z blob).

(** In the sub-volume [store[b]], the voxel [p] holds [x] and no voxel of
    the sub-volume in the window on [p] is larger. *)
Definition sub_volume_max (store : volume) (b : box) (s : Z) (p : idx)
    (x : Qc) : Prop :=
  in_box b p /\ getitem store p = Some x /\
  forall q y, in_box b q -> in_window s p q -> getitem store q = Some y -> y ≤ x.

(** [store'] is [store] with some voxels set to zero. *)
Definition zeroed (store store' : volume) : Prop :=
  forall p,
    match getitem store p with
    | None => getitem store' p = None
    | Some x => getitem store' p = Some x \/ getitem store' p = Some 0
    end.

(** A peak: a voxel of the store that is not zero. *)
Definition is_peak (store : volume) (p : idx) : Prop :=
  match getitem store p with
  | Some x => x <> 0
  | None => False
  end.

Global Instance is_peak_dec store p : Decision (is_peak store p).
Proof. unfold is_peak. destruct (getitem store p); apply _. Defined.

(** The positions of a box, in C order. *)
Definition box_positions (b : box) : list idx :=
  let '(sx, sy, sz) := b in
  i ← seq (start sx) (extent sx);
  j ← seq (start sy) (extent sy);
  k ← seq (start sz) (extent sz);
  [(i, j, k)].

(** The peaks of a blob: the positions of its box that hold a peak. *)
Definition peaks (store : volume) (b : box) : list idx :=
  filter (is_peak store) (box_positions b).

Definition whole_1x1x2 : GEBlob :=
  mkGEBlob (mkSlice 0 1) (mkSlice 0 1) (mkSlice 0 2) 1 2.

(** Two blobs whose boxes overlap in the voxel at column 2. *)
Definition left_blob : GEBlob :=
  mkGEBlob (mkSlice 0 1) (mkSlice 0 1) (mkSlice 0 3) 1 3.
Definition right_blob : GEBlob :=
  mkGEBlob (mkSlice 0 1) (mkSlice 0 1) (mkSlice 2 5) 2 3.

Definition row_4_9_8_6_3 : volume :=
  [[[Qc_of_Z 4; Qc_of_Z 9; Qc_of_Z 8; Qc_of_Z 6; Qc_of_Z 3]]].

Definition two_blobs : GEPreProcessor :=
  {| threshold := Qc_of_Z 2;
     gauss_sigma := 3;
     ge_data := row_4_9_8_6_3;
     ge_smooth_data := row_4_9_8_6_3;
     ge_labeled_data := [[[1; 1; 1; 1; 1]]]%nat;
     number_of_labels := 1;
     min_blob_size := 1;
     int_scale_factor := 1;
     min_peak_separation := 3;
     blobs := [left_blob; right_blob];
     blob_sizes := Some [0; 5]%nat |}.

Definition two_blobs_done : GEPreProcessor :=
  {| threshold := Qc_of_Z 2;
     gauss_sigma := 3;
     ge_data := [[[0; Qc_of_Z 9; 0; Qc_of_Z 6; 0]]];
     ge_smooth_data := row_4_9_8_6_3;
     ge_labeled_data := [[[1; 1; 1; 1; 1]]]%nat;
     number_of_labels := 1;
     min_blob_size := 1;
     int_scale_factor := 1;
     min_peak_separation := 3;
     blobs := [left_blob; right_blob];
     blob_sizes := Some [0; 5]%nat |}.

(** A state whose blob holds the voxel 3, below [1 * 10]. *)
Definition low_peak : GEPreProcessor :=
  {| threshold := Qc_of_Z 10;
     gauss_sigma := 3;
     ge_data := [[[Qc_of_Z 3; 0; 0; Qc_of_Z 20]]];
     ge_smooth_data := [[[Qc_of_Z 11; Qc_of_Z 12; Qc_of_Z 13; Qc_of_Z 14]]];
     ge_labeled_data := [[[1; 1; 1; 1]]]%nat;
     number_of_labels := 1;
     min_blob_size := 1;
     int_scale_factor := 1;
     min_peak_separation := 3;
     blobs := [mkGEBlob (mkSlice 0 1) (mkSlice 0 1) (mkSlice 0 4) 1 4];
     blob_sizes := Some [0; 4]%nat |}.

(** One step along a face between foreground voxels. *)
Definition link (mask : ndarray bool) (p q : idx) : Prop :=
  adjacent p q /\ getitem mask p = Some true /\ getitem mask q = Some true.

(** A path of face-adjacent foreground voxels. *)
Definition connected (mask : ndarray bool) : relation idx := rtc (link mask).

(** What the loop body does with one pair of [zip(blob_labels, blob_sizes)]
    when it raises nothing: the blob it appends, if any. *)
Definition kept (min_size : Z) (label_ge : ndarray nat) (pair : nat * nat)
  : option GEBlob :=
  let '(label_num, size) := pair in
  if decide (label_num = 0%nat) then None
  else if decide (Z.of_nat size < min_size)%Z then None
  else
    match find_objects (equal_to label_ge label_num) with
    | [] => None
    | (sx, sy, sz) :: _ =>
        if bool_decide
             (Z.of_nat (foldr Nat.min (extent sx)
                          [extent sx; extent sy; extent sz]) ^ 3 < min_size)%Z
        then None
        else Some (mkGEBlob sx sy sz label_num size)
    end.

(** The number of voxels that carry the label [l]. *)
Definition count_label (v : ndarray nat) (l : nat) : nat :=
  length (filter (fun l' => l' = l) (ravel v)).

Definition with_min_blob_size (m : Z) (self : GEPreProcessor) : GEPreProcessor :=
  {| threshold := threshold self;
     gauss_sigma := gauss_sigma self;
     ge_data := ge_data self;
     ge_smooth_data := ge_smooth_data self;
     ge_labeled_data := ge_labeled_data self;
     number_of_labels := number_of_labels self;
     min_blob_size := m;
     int_scale_factor := int_scale_factor self;
     min_peak_separation := min_peak_separation self;
     blobs := blobs self;
     blob_sizes := blob_sizes self |}.

Definition block_2x2x2 : volume :=
  [[[Qc_of_Z 5; Qc_of_Z 5; 0]; [Qc_of_Z 5; Qc_of_Z 5; 0]];
   [[Qc_of_Z 5; Qc_of_Z 5; 0]; [Qc_of_Z 5; Qc_of_Z 5; 0]]].

Definition block_state : GEPreProcessor :=
  {| threshold := Qc_of_Z 1;
     gauss_sigma := 3;
     ge_data := block_2x2x2;
     ge_smooth_data := block_2x2x2;
     ge_labeled_data := [];
     number_of_labels := 0;
     min_blob_size := 1;
     int_scale_factor := 1;
     min_peak_separation := 3;
     blobs := [];
     blob_sizes := None |}.

(** A smoothed volume without background: every voxel is above the
    threshold. *)
Definition all_foreground : GEPreProcessor :=
  {| threshold := Qc_of_Z 1;
     gauss_sigma := 3;
     ge_data := [];
     ge_smooth_data := [[[Qc_of_Z 5; Qc_of_Z 5]; [Qc_of_Z 5; Qc_of_Z 5]];
                        [[Qc_of_Z 5; Qc_of_Z 5]; [Qc_of_Z 5; Qc_of_Z 5]]];
     ge_labeled_data := [];
     number_of_labels := 0;
     min_blob_size := 0;
     int_scale_factor := 1;
     min_peak_separation := 10;
     blobs := [];
     blob_sizes := None |}.

(** One flooding step: to a neighbour in the foreground. *)
Definition step (fg : list idx) (a b : idx) : Prop := adjacent a b /\ b ∈ fg.

(** ** Further notions and example data *)

(** [b] is the smallest box that holds the voxels [P]: it holds them all,
    and each of its six faces touches one of them. *)
Definition tight (b : box) (P : idx -> Prop) : Prop :=
  let '(sx, sy, sz) := b in
  (forall q, P q -> in_box b q) /\
  (exists q, P q /\ q.1.1 = start sx) /\ (exists q, P q /\ S q.1.1 = stop sx) /\
  (exists q, P q /\ q.1.2 = start sy) /\ (exists q, P q /\ S q.1.2 = stop sy) /\
  (exists q, P q /\ q.2 = start sz) /\ (exists q, P q /\ S q.2 = stop sz).

(** A smoothed volume of two frames with two spots above threshold 4:
    six voxels around (0, 1, 1) and the single voxel (1, 0, 3). *)
Definition two_spots : GEPreProcessor :=
  {| threshold := Qc_of_Z 4;
     gauss_sigma := 3;
     ge_data := [[[0; Qc_of_Z 5; 0; 0]; [0; Qc_of_Z 9; Qc_of_Z 9; 0]; [0; 0; 0; 0]];
                 [[0; Qc_of_Z 5; 0; Qc_of_Z 7]; [0; Qc_of_Z 9; Qc_of_Z 9; 0];
                  [Qc_of_Z 3; 0; 0; 0]]];
     ge_smooth_data :=
       [[[0; Qc_of_Z 5; 0; 0]; [0; Qc_of_Z 9; Qc_of_Z 9; 0]; [0; 0; 0; 0]];
        [[0; Qc_of_Z 5; 0; Qc_of_Z 7]; [0; Qc_of_Z 9; Qc_of_Z 9; 0];
         [Qc_of_Z 3; 0; 0; 0]]];
     ge_labeled_data := [];
     number_of_labels := 0;
     min_blob_size := 1;
     int_scale_factor := 1;
     min_peak_separation := 3;
     blobs := [];
     blob_sizes := None |}.

(** A blob whose frame range starts beyond a stack of one frame. *)
Definition beyond_blob : GEBlob :=
  mkGEBlob (mkSlice 7 8) (mkSlice 0 1) (mkSlice 0 1) 2 1.

(** The row 4 9 8 6 3 with three blobs, the second of them beyond the
    stack. *)
Definition three_blobs : GEPreProcessor :=
  mkGEPreProcessor (Qc_of_Z 2) 3 row_4_9_8_6_3 row_4_9_8_6_3 [] 1 1 1 3
    [left_blob; beyond_blob; right_blob] None.

(** The row 4 9 8 6 3 with its two blobs and [min_peak_separation = 1]. *)
Definition two_blobs_window_one : GEPreProcessor :=
  mkGEPreProcessor (Qc_of_Z 2) 3 row_4_9_8_6_3 row_4_9_8_6_3 [] 1 1 1 1
    [left_blob; right_blob] None.

(** * Properties *)

(** ** Arrays *)

Section NdarrayFacts.
Context {A B : Type}.

Lemma join_fmap (f : A -> B) (ls : list (list A)) :
  mjoin (fmap (M:=list) (fmap (M:=list) f) ls) = f <$> mjoin ls.
Proof.
  induction ls as [|l ls IH]; [done|].
  rewrite fmap_cons. change (mjoin (?x :: ?y)) with (x ++ mjoin y).
  by rewrite fmap_app, IH.
Qed.

Lemma ravel_amap (f : A -> B) (v : ndarray A) :
  ravel (amap f v) = f <$> ravel v.
Proof.
  unfold ravel, amap.
  induction v as [|fr v IH]; [done|].
  rewrite fmap_cons. change (mjoin (?x :: ?y)) with (x ++ mjoin y).
  by rewrite !join_app, fmap_app, IH, join_fmap.
Qed.

Lemma getitem_amap (f : A -> B) (v : ndarray A) p :
  getitem (amap f v) p = f <$> getitem v p.
Proof.
  destruct p as [[i j] k]. unfold getitem, amap.
  rewrite list_lookup_fmap. destruct (v !! i) as [fr|]; [|done]. cbn.
  rewrite list_lookup_fmap. destruct (fr !! j) as [r|]; [|done]. cbn.
  by rewrite list_lookup_fmap.
Qed.

Lemma getitem_imap3 (f : idx -> A -> B) (v : ndarray A) p :
  getitem (imap3 f v) p = f p <$> getitem v p.
Proof.
  destruct p as [[i j] k]. unfold getitem, imap3.
  rewrite list_lookup_imap. destruct (v !! i) as [fr|]; [|done]. cbn.
  rewrite list_lookup_imap. destruct (fr !! j) as [r|]; [|done]. cbn.
  by rewrite list_lookup_imap.
Qed.

Lemma elem_of_ravel (v : ndarray A) x :
  x ∈ ravel v <-> exists p, getitem v p = Some x.
Proof.
  unfold ravel. rewrite list_elem_of_join. split.
  - intros (r & Hx & Hr). apply list_elem_of_join in Hr as (fr & Hr & Hfr).
    apply list_elem_of_lookup in Hx as [k Hk].
    apply list_elem_of_lookup in Hr as [j Hj].
    apply list_elem_of_lookup in Hfr as [i Hi].
    exists (i, j, k). cbn. rewrite Hi. cbn. rewrite Hj. done.
  - intros ([[i j] k] & Hp). cbn in Hp.
    destruct (v !! i) as [fr|] eqn:Hi; [|done]. cbn in Hp.
    destruct (fr !! j) as [r|] eqn:Hj; [|done]. cbn in Hp.
    exists r. split; [by eapply list_elem_of_lookup_2|].
    apply list_elem_of_join. exists fr.
    split; by eapply list_elem_of_lookup_2.
Qed.
End NdarrayFacts.

(** ** The maximum of a list *)

Lemma Qcmax_ge_l x y : x ≤ Qcmax x y.
Proof. unfold Qcmax. case_decide; [done|apply Qcle_refl]. Qed.

Lemma Qcmax_ge_r x y : y ≤ Qcmax x y.
Proof.
  unfold Qcmax. case_decide; [apply Qcle_refl|].
  apply Qclt_le_weak. by apply Qcnot_le_lt.
Qed.

Lemma Qcmax_case x y : Qcmax x y = x \/ Qcmax x y = y.
Proof. unfold Qcmax. case_decide; auto. Qed.

Lemma maximum_ge_seed x l : x ≤ maximum x l.
Proof.
  unfold maximum. revert x. induction l as [|y l IH]; intros x; cbn.
  - apply Qcle_refl.
  - eapply Qcle_trans; [apply (Qcmax_ge_l x y)|apply IH].
Qed.

Lemma maximum_ge x l y : y ∈ l -> y ≤ maximum x l.
Proof.
  unfold maximum. revert x. induction l as [|z l IH]; intros x Hy; cbn.
  - by apply elem_of_nil in Hy.
  - apply elem_of_cons in Hy as [->|Hy]; [|by apply IH].
    eapply Qcle_trans; [apply (Qcmax_ge_r x z)|apply maximum_ge_seed].
Qed.

Lemma maximum_elem x l : maximum x l ∈ x :: l.
Proof.
  unfold maximum. revert x. induction l as [|z l IH]; intros x; cbn.
  - apply list_elem_of_here.
  - specialize (IH (Qcmax x z)).
    apply elem_of_cons in IH as [IH|IH]; [|by do 2 apply list_elem_of_further].
    rewrite IH. destruct (Qcmax_case x z) as [->| ->].
    + apply list_elem_of_here.
    + apply list_elem_of_further, list_elem_of_here.
Qed.

(** The maximum is the one element that bounds all the others. *)
Lemma maximum_unique x l m :
  m ∈ x :: l -> (forall y, y ∈ x :: l -> y ≤ m) -> maximum x l = m.
Proof.
  intros Hm Hle. apply Qcle_antisym.
  - apply Hle, maximum_elem.
  - apply elem_of_cons in Hm as [->|Hm];
      [apply maximum_ge_seed|by apply maximum_ge].
Qed.

Lemma maximum_scale x l s :
  0 ≤ s -> maximum (x * s) ((fun y => y * s) <$> l) = maximum x l * s.
Proof.
  intros Hs. apply maximum_unique.
  - change (x * s :: ((fun y => y * s) <$> l)) with ((fun y => y * s) <$> (x :: l)).
    apply (list_elem_of_fmap_2 (fun y => y * s)), maximum_elem.
  - intros y Hy.
    change (x * s :: ((fun y => y * s) <$> l)) with ((fun y => y * s) <$> (x :: l)) in Hy.
    apply list_elem_of_fmap in Hy as (z & -> & Hz).
    apply Qcmult_le_compat_r; [|done].
    apply elem_of_cons in Hz as [->|Hz];
      [apply maximum_ge_seed|by apply maximum_ge].
Qed.

(** ** Stage 1: the normalizer *)

Lemma amax_spec (v : volume) m :
  amax v = Ok m <-> m ∈ ravel v /\ forall x, x ∈ ravel v -> x ≤ m.
Proof.
  unfold amax. destruct (ravel v) as [|x l] eqn:E.
  - split; [done|]. intros [H _]. by apply elem_of_nil in H.
  - split.
    + intros [= <-]. split; [apply maximum_elem|].
      intros y [->|Hy]%elem_of_cons;
        [apply maximum_ge_seed|by apply maximum_ge].
    + intros [Hm Hle]. f_equal. by apply maximum_unique.
Qed.

Lemma amax_raises (v : volume) e :
  amax v = Raise e <-> ravel v = [] /\ e = ValueError.
Proof.
  unfold amax. destruct (ravel v); split; try done.
  - by intros [= <-].
  - by intros [_ ->].
  - by intros [? _].
Qed.

Lemma amap_id_on {A} (f : A -> A) (v : ndarray A) :
  (forall x, x ∈ ravel v -> f x = x) -> amap f v = v.
Proof.
  intros Hf. unfold amap.
  apply list_eq. intros i. rewrite list_lookup_fmap.
  destruct (v !! i) as [fr|] eqn:Hi; [|done]. cbn. f_equal.
  apply list_eq. intros j. rewrite list_lookup_fmap.
  destruct (fr !! j) as [r|] eqn:Hj; [|done]. cbn. f_equal.
  apply list_eq. intros k. rewrite list_lookup_fmap.
  destruct (r !! k) as [x|] eqn:Hk; [|done]. cbn. f_equal.
  apply Hf, elem_of_ravel. exists (i, j, k). cbn.
  rewrite Hi. cbn. rewrite Hj. done.
Qed.

Lemma zero_below_elem thr (v : volume) y :
  y ∈ ravel (zero_below thr v) <->
  exists x, x ∈ ravel v /\ y = if decide (x < thr) then 0 else x.
Proof.
  unfold zero_below. rewrite ravel_amap, list_elem_of_fmap.
  split; intros (x & H1 & H2); exists x; done.
Qed.

Lemma zero_below_nil thr (v : volume) :
  ravel (zero_below thr v) = [] <-> ravel v = [].
Proof.
  unfold zero_below. rewrite ravel_amap. split; [apply fmap_nil_inv|].
  by intros ->.
Qed.

Lemma Qc_of_Z_pos n : (0 < n)%Z -> 0 < Qc_of_Z n.
Proof.
  intros H. unfold Qclt, Qc_of_Z. cbn.
  change (Qred 0) with 0%Q. unfold Qlt. cbn. lia.
Qed.

(** A positive voxel that meets the threshold makes the thresholded
    maximum positive. *)
Lemma amax_zero_below_pos thr (v : volume) :
  (exists x, x ∈ ravel v /\ thr ≤ x /\ 0 < x) ->
  exists m, amax (zero_below thr v) = Ok m /\ 0 < m.
Proof.
  intros (x & Hx & Hthr & Hpos).
  assert (Hin : x ∈ ravel (zero_below thr v)).
  { apply zero_below_elem. exists x. split; [done|].
    case_decide as Hlt; [|done]. by apply Qclt_not_le in Hlt. }
  destruct (amax (zero_below thr v)) as [m|e] eqn:E.
  - exists m. split; [done|]. apply amax_spec in E as [_ Hle].
    eapply Qclt_le_trans; [exact Hpos|by apply Hle].
  - apply amax_raises in E as [E _]. rewrite E in Hin.
    by apply elem_of_nil in Hin.
Qed.

(** Without a positive voxel that meets the threshold, the thresholded
    maximum of non-negative data is zero. *)
Lemma amax_zero_below_zero thr (v : volume) :
  Forall (fun x => 0 ≤ x) (ravel v) -> ravel v <> [] ->
  ~ (exists x, x ∈ ravel v /\ thr ≤ x /\ 0 < x) ->
  amax (zero_below thr v) = Ok 0.
Proof.
  intros Hnn Hne Hno. rewrite Forall_forall in Hnn.
  assert (Hall : forall y, y ∈ ravel (zero_below thr v) -> y = 0).
  { intros y (x & Hx & ->)%zero_below_elem. case_decide as Hlt; [done|].
    destruct (decide (x = 0)) as [|Hx0]; [done|]. exfalso. apply Hno.
    exists x. split_and!; [done|by apply Qcnot_lt_le|].
    destruct (Qcle_lt_or_eq _ _ (Hnn x Hx)) as [?|?]; [done|congruence]. }
  apply amax_spec. split.
  - destruct (ravel (zero_below thr v)) as [|y l] eqn:E.
    + by apply zero_below_nil in E.
    + rewrite <-(Hall y); [apply list_elem_of_here|]. apply list_elem_of_here.
  - intros y Hy. rewrite (Hall y Hy). apply Qcle_refl.
Qed.

Lemma diagnostic_frame_returns {A} (v : ndarray A) i :
  (i < length v)%nat -> exists f, diagnostic_frame v i = Ok f.
Proof.
  intros H. unfold diagnostic_frame.
  destruct (lookup_lt_is_Some_2 v i H) as [f ->]. eauto.
Qed.

Lemma diagnostic_frame_raises {A} (v : ndarray A) i :
  (length v <= i)%nat -> diagnostic_frame v i = Raise IndexError.
Proof.
  intros H. unfold diagnostic_frame. by rewrite lookup_ge_None_2.
Qed.

Lemma amap_length {A B} (f : A -> B) (v : ndarray A) :
  length (amap f v) = length v.
Proof. unfold amap. by rewrite length_fmap. Qed.

Lemma normalize_returns thr (frames : volume) m :
  amax (zero_below thr frames) = Ok m -> m <> 0 ->
  normalize thr frames =
    Ok (amap (fun x => x * (Qc_of_Z (2 ^ 14) / m)) (zero_below thr frames),
        Qc_of_Z (2 ^ 14) / m).
Proof.
  intros Hm Hne. unfold normalize. rewrite Hm. cbn.
  unfold float_div. by rewrite decide_False.
Qed.

Lemma amax_rescaled (v : volume) m :
  amax v = Ok m -> 0 < m ->
  amax (amap (fun x => x * (Qc_of_Z (2 ^ 14) / m)) v) = Ok (Qc_of_Z (2 ^ 14)).
Proof.
  intros Hm Hpos. unfold amax in *. rewrite ravel_amap.
  destruct (ravel v) as [|x l]; [done|]. injection Hm as <-.
  rewrite fmap_cons. f_equal. rewrite maximum_scale.
  - apply Qcmult_div_r. intros E. rewrite E in Hpos. by apply Qclt_not_eq in Hpos.
  - apply Qclt_le_weak. apply Qcmult_pos_pos; [by apply Qc_of_Z_pos|].
    by apply Qcinv_pos.
Qed.

(** What a successful [load_data] computes. *)
Lemma load_data_ok (self : GEPreProcessor) (frames : volume) :
  (exists x, x ∈ ravel frames /\ threshold self ≤ x /\ 0 < x) ->
  (100 < length frames)%nat ->
  exists m self' v,
    amax (zero_below (threshold self) frames) = Ok m /\
    load_data self frames = Ok (self', v) /\
    ge_data self' = v /\
    int_scale_factor self' = Qc_of_Z (2 ^ 14) / m /\
    (forall p, getitem v p =
       (fun x => (if decide (x < threshold self) then 0 else x)
                 * int_scale_factor self') <$> getitem frames p) /\
    amax v = Ok (Qc_of_Z (2 ^ 14)).
Proof.
  intros Hex Hlen.
  destruct (amax_zero_below_pos _ _ Hex) as (m & Hm & Hpos).
  assert (Hne : m <> 0).
  { intros E. rewrite E in Hpos. by apply Qclt_not_eq in Hpos. }
  unfold load_data. rewrite (normalize_returns _ _ _ Hm Hne). cbn.
  destruct (diagnostic_frame_returns
              (amap (fun x => x * (Qc_of_Z (2 ^ 14) / m))
                    (zero_below (threshold self) frames)) 100) as [f ->].
  { unfold zero_below. by rewrite !amap_length. }
  cbn. eexists m, _, _. split_and!; try done.
  - intros p. cbn. unfold zero_below. rewrite !getitem_amap.
    by destruct (getitem frames p).
  - by apply amax_rescaled.
Qed.


(** C2, as amended: on non-negative data [load_data] raises ValueError
    when the stack has no voxel (in particular no frame),
    ZeroDivisionError when it has voxels but no positive one at or above
    the threshold, IndexError when it has such a voxel but at most 100
    frames, and returns in every other case. *)
Theorem load_data_outcome (self : GEPreProcessor) (frames : volume) :
  Forall (fun x => 0 ≤ x) (ravel frames) ->
  (ravel frames = [] -> load_data self frames = Raise ValueError) /\
  (ravel frames <> [] ->
   ~ (exists x, x ∈ ravel frames /\ threshold self ≤ x /\ 0 < x) ->
   load_data self frames = Raise ZeroDivisionError) /\
  ((exists x, x ∈ ravel frames /\ threshold self ≤ x /\ 0 < x) ->
   (length frames <= 100)%nat ->
   load_data self frames = Raise IndexError) /\
  ((exists x, x ∈ ravel frames /\ threshold self ≤ x /\ 0 < x) ->
   (100 < length frames)%nat ->
   returns (load_data self frames)).
Proof.
  intros Hnn. split_and!.
  - intros E. unfold load_data, normalize.
    assert (amax (zero_below (threshold self) frames) = Raise ValueError) as ->;
      [|done].
    apply amax_raises. split; [|done]. by apply zero_below_nil.
  - intros Hne Hno. unfold load_data, normalize.
    rewrite (amax_zero_below_zero _ _ Hnn Hne Hno). cbn.
    unfold float_div. by rewrite decide_True.
  - intros Hex Hlen.
    destruct (amax_zero_below_pos _ _ Hex) as (m & Hm & Hpos).
    assert (Hne : m <> 0).
    { intros E. rewrite E in Hpos. by apply Qclt_not_eq in Hpos. }
    unfold load_data. rewrite (normalize_returns _ _ _ Hm Hne). cbn.
    rewrite diagnostic_frame_raises; [done|].
    unfold zero_below. by rewrite !amap_length.
  - intros Hex Hlen.
    destruct (load_data_ok self frames Hex Hlen)
      as (m & self' & v & _ & H & _). by exists (self', v).
Qed.

(** C2 at an input: 101 frames of the voxel 5 with threshold 1 are loaded. *)
Lemma load_data_outcome_witness :
  returns (load_data (init (Qc_of_Z 1) 3 125 10) (replicate 101 [[Qc_of_Z 5]])).
Proof.
  destruct (load_data_outcome (init (Qc_of_Z 1) 3 125 10)
              (replicate 101 [[Qc_of_Z 5]])) as (_ & _ & _ & H).
  - apply (bool_decide_unpack _). by vm_compute.
  - apply H; [|cbn; lia].
    exists (Qc_of_Z 5). split_and!; [|by vm_compute..].
    apply elem_of_ravel. by exists (0%nat, 0%nat, 0%nat).
Defined.

(** C2 as stated fails: with threshold 0 every voxel of the all-zero
    stack meets the threshold and the stack has 101 frames, yet
    [load_data] raises. *)
Lemma load_data_outcome_counterexample :
  ~ (forall (self : GEPreProcessor) (frames : volume),
       raises (load_data self frames) <->
       (~ (exists x, x ∈ ravel frames /\ threshold self ≤ x) \/ frames = [])).
Proof.
  intros H.
  destruct (H (init (Qc_of_Z 0) 3 125 10) (replicate 101 [[Qc_of_Z 0]]))
    as [H1 _].
  destruct H1 as [Hno|Hnil].
  - exists ZeroDivisionError. by vm_compute.
  - apply Hno. exists (Qc_of_Z 0). split; [|by vm_compute].
    apply elem_of_ravel. by exists (0%nat, 0%nat, 0%nat).
  - discriminate Hnil.
Qed.

(** ** Stage 1 in binary64 *)

(** The order of binary64 numbers that are not NaN. *)
Lemma SFleb_refl x : Binary64.is_nan x = false -> SFleb x x = true.
Proof.
  unfold SFleb, SFcompare. destruct x as [s|s| |s m e]; try done.
  - by destruct s.
  - intros _. change (Pos.compare_cont Eq m m) with (Pos.compare m m).
    rewrite Z.compare_refl, Pos.compare_refl. by destruct s.
Qed.

Lemma SFleb_total x y :
  Binary64.is_nan x = false -> Binary64.is_nan y = false ->
  SFleb x y = true \/ SFleb y x = true.
Proof.
  unfold SFleb, SFcompare.
  destruct x as [s|s| |s m e], y as [s'|s'| |s' m' e']; try done; intros _ _;
    try (destruct s, s'; auto); try (destruct s; auto); try (destruct s'; auto).
  all: change (Pos.compare_cont Eq m m') with (Pos.compare m m');
       change (Pos.compare_cont Eq m' m) with (Pos.compare m' m);
       rewrite (Z.compare_antisym e e'), (Pos.compare_antisym m m');
       destruct (e ?= e')%Z, (m ?= m')%positive; cbn; auto.
Qed.

Lemma SFleb_trans x y z :
  SFleb x y = true -> SFleb y z = true -> SFleb x z = true.
Proof.
  unfold SFleb, SFcompare.
  destruct x as [s|s| |s m e], y as [s'|s'| |s' m' e'],
           z as [s''|s''| |s'' m'' e'']; try done;
    try (destruct s; done); try (destruct s'; done); try (destruct s''; done);
    try (destruct s, s'; done); try (destruct s, s''; done);
    try (destruct s', s''; done); try (destruct s, s', s''; done).
  destruct s, s', s''; try done.
  all: change (Pos.compare_cont Eq ?a ?b) with (Pos.compare a b).
  all: destruct (Z.compare_spec e e'), (Z.compare_spec e' e''),
                (Z.compare_spec e e''); try lia; try done; subst.
  all: destruct (Pos.compare_spec m m'), (Pos.compare_spec m' m''),
                (Pos.compare_spec m m''); try lia; try done.
Qed.

Lemma SFltb_SFleb x y : SFleb x y = true -> SFltb y x = false.
Proof.
  unfold SFleb, SFltb, SFcompare.
  destruct x as [s|s| |s m e], y as [s'|s'| |s' m' e']; try done;
    try (destruct s, s'; done); try (destruct s; done); try (destruct s'; done).
  change (Pos.compare_cont Eq m m') with (Pos.compare m m');
  change (Pos.compare_cont Eq m' m) with (Pos.compare m' m).
  rewrite (Z.compare_antisym e e'), (Pos.compare_antisym m m').
  destruct s, s', (e ?= e')%Z, (m ?= m')%positive; cbn; done.
Qed.

Lemma np_maximum_spec a b :
  Binary64.is_nan a = false -> Binary64.is_nan b = false ->
  let m := Binary64.np_maximum a b in
  (m = a \/ m = b) /\ SFleb a m = true /\ SFleb b m = true.
Proof.
  intros Ha Hb. unfold Binary64.np_maximum. rewrite Ha, orb_false_r.
  destruct (SFleb b a) eqn:E; cbn zeta.
  - split_and!; [by left|by apply SFleb_refl|done].
  - split_and!; [by right| |by apply SFleb_refl].
    destruct (SFleb_total a b Ha Hb) as [?|?]; [done|congruence].
Qed.

Lemma fold_np_maximum_spec l x :
  Binary64.is_nan x = false -> Forall (fun y => Binary64.is_nan y = false) l ->
  let m := fold_left Binary64.np_maximum l x in
  m ∈ x :: l /\ forall y, y ∈ x :: l -> SFleb y m = true.
Proof.
  revert x. induction l as [|z l IH]; intros x Hx Hl; cbn.
  - split; [apply list_elem_of_here|].
    intros y ->%list_elem_of_singleton. by apply SFleb_refl.
  - apply Forall_cons in Hl as [Hz Hl].
    destruct (np_maximum_spec x z Hx Hz) as (Hm & Hxm & Hzm).
    assert (Binary64.is_nan (Binary64.np_maximum x z) = false) as Hn.
    { by destruct Hm as [->| ->]. }
    destruct (IH _ Hn Hl) as [Hin Hle]. split.
    + apply elem_of_cons in Hin as [Hin|Hin].
      * rewrite Hin. destruct Hm as [->| ->];
          [apply list_elem_of_here
          |apply list_elem_of_further, list_elem_of_here].
      * by do 2 apply list_elem_of_further.
    + intros y [->|[->|Hy]%elem_of_cons]%elem_of_cons.
      * eapply SFleb_trans; [exact Hxm|]. apply Hle, list_elem_of_here.
      * eapply SFleb_trans; [exact Hzm|]. apply Hle, list_elem_of_here.
      * apply Hle. by apply list_elem_of_further.
Qed.

(** [np.amax] of an array without NaN is an element that no element
    exceeds. *)
Lemma binary64_amax_spec (v : ndarray spec_float) :
  Forall (fun y => Binary64.is_nan y = false) (ravel v) -> ravel v <> [] ->
  exists m, Binary64.amax v = Ok m /\ m ∈ ravel v /\
            forall y, y ∈ ravel v -> SFleb y m = true.
Proof.
  intros Hn Hne. unfold Binary64.amax.
  destruct (ravel v) as [|x l]; [done|].
  apply Forall_cons in Hn as [Hx Hl].
  eexists. split; [done|]. by apply fold_np_maximum_spec.
Qed.

Lemma binary64_zero_below_elem thr (v : ndarray spec_float) y :
  y ∈ ravel (Binary64.zero_below thr v) <->
  exists x, x ∈ ravel v /\ y = if SFltb x thr then S754_zero false else x.
Proof.
  unfold Binary64.zero_below. rewrite ravel_amap, list_elem_of_fmap.
  split; intros (x & H1 & H2); exists x; done.
Qed.

Lemma binary64_normalize_returns thr (frames : ndarray spec_float) m :
  Binary64.amax (Binary64.zero_below thr frames) = Ok m ->
  Binary64.is_zero m = false ->
  let s := SFdiv Binary64.prec Binary64.emax (Binary64.of_Z (2 ^ 14)) m in
  Binary64.normalize thr frames =
    Ok (amap (fun x => SFmul Binary64.prec Binary64.emax x s)
             (Binary64.zero_below thr frames), s).
Proof.
  intros Hm Hz. unfold Binary64.normalize. rewrite Hm. cbn.
  unfold Binary64.float_div. by rewrite Hz.
Qed.

(** [np.maximum] returns one of its arguments. *)
Lemma np_maximum_case a b :
  Binary64.np_maximum a b = a \/ Binary64.np_maximum a b = b.
Proof. unfold Binary64.np_maximum. destruct (_ || _); auto. Qed.

Lemma fold_np_maximum_elem l x : fold_left Binary64.np_maximum l x ∈ x :: l.
Proof.
  revert x. induction l as [|z l IH]; intros x; cbn; [apply list_elem_of_here|].
  specialize (IH (Binary64.np_maximum x z)).
  apply elem_of_cons in IH as [->|IH].
  - destruct (np_maximum_case x z) as [-> | ->];
      [apply list_elem_of_here|apply list_elem_of_further, list_elem_of_here].
  - by do 2 apply list_elem_of_further.
Qed.

Lemma np_maximum_positive a b :
  positive_or_nan a \/ positive_or_nan b ->
  positive_or_nan (Binary64.np_maximum a b).
Proof.
  unfold positive_or_nan, Binary64.np_maximum, SFleb, SFltb, SFcompare.
  destruct a as [s|s| |s m e], b as [s'|s'| |s' m' e']; cbn;
    try (destruct s); try (destruct s'); cbn; try tauto;
    try (intros [[|]|[|]]; done);
    try (destruct (e' ?= e)%Z; try destruct (Pos.compare_cont Eq m' m);
         cbn; tauto).
Qed.

Lemma fold_np_maximum_positive l x :
  Exists positive_or_nan (x :: l) ->
  positive_or_nan (fold_left Binary64.np_maximum l x).
Proof.
  revert x. induction l as [|z l IH]; intros x Hex; cbn.
  - by apply Exists_cons in Hex as [?|?%Exists_nil].
  - apply IH. apply Exists_cons in Hex as [Hx|Hex].
    + apply Exists_cons_hd, np_maximum_positive. by left.
    + apply Exists_cons in Hex as [Hz|Hex].
      * apply Exists_cons_hd, np_maximum_positive. by right.
      * by apply Exists_cons_tl.
Qed.

Lemma positive_or_nan_not_zero x :
  positive_or_nan x -> Binary64.is_zero x = false.
Proof. by destruct x as [[]|[]| |[] m e]; intros [?|?]. Qed.

(** C7, as amended, on binary64 values: a stack of more than 100 frames
    that has a positive voxel at or above the threshold is thresholded
    (voxels strictly below the threshold become zero), the scale factor
    is the rounded quotient of [2^14] by the maximum [m] of the
    thresholded stack, and every voxel is replaced by its rounded product
    with that factor; a voxel that held [m] holds the rounded product of
    [m] and the factor.  The result is returned and stored in [ge_data],
    the factor in [int_scale_factor].  [m] is what [np.amax] gives: a
    voxel of the thresholded stack, and one that no voxel exceeds when
    the stack holds no NaN. *)
Theorem binary64_load_data_rescales (self : Binary64.GEPreProcessor)
    (frames : ndarray spec_float) :
  (exists x, x ∈ ravel frames /\
             SFleb (Binary64.threshold self) x = true /\
             SFltb (S754_zero false) x = true) ->
  (100 < length frames)%nat ->
  let thr := Binary64.threshold self in
  let frame_list := Binary64.zero_below thr frames in
  exists m self' v,
    Binary64.amax frame_list = Ok m /\
    (Forall (fun x => Binary64.is_nan x = false) (ravel frames) ->
     forall y, y ∈ ravel frame_list -> SFleb y m = true) /\
    Binary64.load_data self frames = Ok (self', v) /\
    Binary64.ge_data self' = v /\
    Binary64.int_scale_factor self'
      = SFdiv Binary64.prec Binary64.emax (Binary64.of_Z (2 ^ 14)) m /\
    (forall p, getitem v p =
       (fun x => SFmul Binary64.prec Binary64.emax
                   (if SFltb x thr then S754_zero false else x)
                   (Binary64.int_scale_factor self')) <$> getitem frames p) /\
    (exists p, getitem frame_list p = Some m /\
               getitem v p = Some (SFmul Binary64.prec Binary64.emax m
                                     (Binary64.int_scale_factor self'))).
Proof.
  intros (x & Hx & Hthr & Hpos) Hlen. cbn zeta.
  set (thr := Binary64.threshold self) in *.
  set (frame_list := Binary64.zero_below thr frames).
  assert (Hin : x ∈ ravel frame_list).
  { apply binary64_zero_below_elem. exists x. split; [done|].
    by rewrite (SFltb_SFleb _ _ Hthr). }
  assert (exists m, Binary64.amax frame_list = Ok m /\ m ∈ ravel frame_list /\
                    positive_or_nan m) as (m & Hm & Hmin & Hz).
  { unfold Binary64.amax. destruct (ravel frame_list) as [|y l] eqn:E.
    - by apply elem_of_nil in Hin.
    - eexists. split; [done|]. split; [apply fold_np_maximum_elem|].
      apply fold_np_maximum_positive, Exists_exists. exists x.
      split; [done|]. by right. }
  apply positive_or_nan_not_zero in Hz.
  pose proof (binary64_normalize_returns thr frames m Hm Hz) as Hnorm.
  cbn zeta in Hnorm. unfold Binary64.load_data. fold thr. rewrite Hnorm.
  cbn [mbind result_bind]. fold frame_list.
  destruct (diagnostic_frame_returns
              (amap (fun x => SFmul Binary64.prec Binary64.emax x
                         (SFdiv Binary64.prec Binary64.emax
                            (Binary64.of_Z (2 ^ 14)) m)) frame_list) 100)
    as [f ->].
  { unfold frame_list, Binary64.zero_below. by rewrite !amap_length. }
  cbn [mbind result_bind]. eexists m, _, _.
  split; [done|]. split; [|split; [reflexivity|]].
  - intros Hnan. rewrite Forall_forall in Hnan.
    destruct (binary64_amax_spec frame_list) as (m' & Hm' & _ & Hle).
    + apply Forall_forall. intros y (z & Hz' & ->)%binary64_zero_below_elem.
      destruct (SFltb z thr); [done|by apply Hnan].
    + intros E. rewrite E in Hin. by apply elem_of_nil in Hin.
    + by assert (m' = m) as -> by congruence.
  - cbn [Binary64.ge_data Binary64.int_scale_factor].
    split; [done|]. split; [done|]. split.
    + intros p. unfold frame_list, Binary64.zero_below.
      rewrite !getitem_amap. by destruct (getitem frames p).
    + apply elem_of_ravel in Hmin as [p Hp]. exists p. split; [done|].
      by rewrite getitem_amap, Hp.
Qed.

(** C7 at an input: 101 frames of one voxel, 7.0 a hundred times and then
    49.0, with threshold 10.0.  The voxel 49.0 comes back as
    16383.999999999998, the largest binary64 below [2^14]. *)
Lemma binary64_load_data_rescales_witness :
  exists self' v,
    Binary64.load_data
      (Binary64.mkGEPreProcessor (Binary64.of_Z 10) [] (Binary64.of_Z 1))
      stack_7_49 = Ok (self', v) /\
    Binary64.int_scale_factor self'
      = SFdiv Binary64.prec Binary64.emax (Binary64.of_Z (2 ^ 14))
              (Binary64.of_Z 49) /\
    getitem v (100, 0, 0)%nat = Some (S754_finite false 9007199254740991 (-39)).
Proof.
  destruct (binary64_load_data_rescales
              (Binary64.mkGEPreProcessor (Binary64.of_Z 10) []
                 (Binary64.of_Z 1)) stack_7_49)
    as (m & self' & v & Hm & _ & Hrun & _ & Hs & Hv & _).
  - exists (Binary64.of_Z 49). split_and!; [|reflexivity..].
    apply elem_of_ravel. exists (100, 0, 0)%nat. reflexivity.
  - cbn. lia.
  - assert (m = Binary64.of_Z 49) as ->.
    { vm_compute in Hm. injection Hm as <-. reflexivity. }
    exists self', v. split_and!; [exact Hrun|exact Hs|].
    rewrite Hv, Hs. reflexivity.
Defined.

(** C7 as stated fails, in three ways.  On the stack above the product
    of 49.0 and the rounded quotient [2^14 / 49.0] is
    16383.999999999998, so the maximum of what is returned is not
    [2^14]; with threshold 0.0 the all-zero stack has a voxel at the
    threshold, yet the division by the maximum raises; and a stack of
    fewer than 101 frames stops at the diagnostic slice of frame 100. *)
Lemma binary64_load_data_rescales_counterexample :
  ((exists x, x ∈ ravel stack_7_49 /\ SFleb (Binary64.of_Z 10) x = true) /\
   exists self' v,
     Binary64.load_data
       (Binary64.mkGEPreProcessor (Binary64.of_Z 10) [] (Binary64.of_Z 1))
       stack_7_49 = Ok (self', v) /\
     Binary64.amax v = Ok (S754_finite false 9007199254740991 (-39)) /\
     SFltb (S754_finite false 9007199254740991 (-39)) (Binary64.of_Z (2 ^ 14))
       = true) /\
  ((exists x, x ∈ ravel (replicate 101 [[Binary64.of_Z 0]]) /\
              SFleb (Binary64.of_Z 0) x = true) /\
   Binary64.load_data
     (Binary64.mkGEPreProcessor (Binary64.of_Z 0) [] (Binary64.of_Z 1))
     (replicate 101 [[Binary64.of_Z 0]]) = Raise ZeroDivisionError) /\
  ((exists x, x ∈ ravel [[[Binary64.of_Z 5]]] /\
              SFleb (Binary64.of_Z 1) x = true) /\
   Binary64.load_data
     (Binary64.mkGEPreProcessor (Binary64.of_Z 1) [] (Binary64.of_Z 1))
     [[[Binary64.of_Z 5]]] = Raise IndexError).
Proof.
  split_and!.
  - exists (Binary64.of_Z 49). split; [|reflexivity].
    apply elem_of_ravel. exists (100, 0, 0)%nat. reflexivity.
  - eexists _, _. split_and!; [vm_compute; reflexivity|reflexivity..].
  - exists (Binary64.of_Z 0). split; [|reflexivity].
    apply elem_of_ravel. exists (0, 0, 0)%nat. reflexivity.
  - vm_compute. reflexivity.
  - exists (Binary64.of_Z 5). split; [|reflexivity].
    apply elem_of_ravel. exists (0, 0, 0)%nat. reflexivity.
  - vm_compute. reflexivity.
Qed.

Lemma digits2_pos_shift (n : nat) (m : positive) :
  Z.pos (digits2_pos (Nat.iter n xO m)) = (Z.pos (digits2_pos m) + Z.of_nat n)%Z.
Proof.
  induction n as [|n IH]; [cbn; lia|].
  change (Nat.iter (S n) xO m) with (xO (Nat.iter n xO m)).
  change (digits2_pos (xO (Nat.iter n xO m)))
    with (Pos.succ (digits2_pos (Nat.iter n xO m))).
  lia.
Qed.

(** Multiplying a binary64 number by 1.0 gives the number: the 52 bits
    that the product of the mantissas gains are zero and are shifted out
    again without rounding. *)
Lemma SFmul_one_finite s m e :
  bounded Binary64.prec Binary64.emax m e = true ->
  SFmul Binary64.prec Binary64.emax (S754_finite s m e) (Binary64.of_Z 1)
  = S754_finite s m e.
Proof.
  intros Hb. unfold bounded, canonical_mantissa in Hb.
  apply andb_prop in Hb as [Hc He]. apply Z.eqb_eq in Hc.
  change (Binary64.of_Z 1) with (S754_finite false 4503599627370496 (-52)).
  unfold SFmul. rewrite xorb_false_r. unfold binary_round_aux.
  rewrite (Pos.mul_comm m).
  change (4503599627370496 * m)%positive with (Nat.iter 52 xO m).
  assert (shr_fexp Binary64.prec Binary64.emax
            (Z.pos (Nat.iter 52 xO m)) (e + -52) loc_Exact
          = (Build_shr_record (Z.pos m) false false, e)) as ->.
  { unfold shr_fexp, Zdigits2. rewrite digits2_pos_shift.
    replace (Z.pos (digits2_pos m) + Z.of_nat 52 + (e + -52))%Z
      with (Z.pos (digits2_pos m) + e)%Z by lia.
    rewrite Hc. replace (e - (e + -52))%Z with 52%Z by lia.
    unfold shr. replace (e + -52 + 52)%Z with e by lia. reflexivity. }
  cbn [shr_m loc_of_shr_record round_nearest_even].
  assert (shr_fexp Binary64.prec Binary64.emax (Z.pos m) e loc_Exact
          = (Build_shr_record (Z.pos m) false false, e)) as ->.
  { unfold shr_fexp, Zdigits2. rewrite Hc, Z.sub_diag. reflexivity. }
  cbn [shr_m]. by rewrite He.
Qed.

Lemma SFmul_one x :
  valid_binary Binary64.prec Binary64.emax x = true ->
  SFmul Binary64.prec Binary64.emax x (Binary64.of_Z 1) = x.
Proof.
  destruct x as [s|s| |s m e]; intros Hv.
  - change (Binary64.of_Z 1) with (S754_finite false 4503599627370496 (-52)).
    cbn. by rewrite xorb_false_r.
  - change (Binary64.of_Z 1) with (S754_finite false 4503599627370496 (-52)).
    cbn. by rewrite xorb_false_r.
  - done.
  - by apply SFmul_one_finite.
Qed.

(** C9, as amended, on binary64 values: with threshold 0.0, a stack of
    more than 100 frames of finite non-negative numbers whose maximum is
    [2^14] comes back unchanged; it is stored in [ge_data] and the scale
    factor stored is 1.0. *)
Theorem binary64_load_data_normalized (self : Binary64.GEPreProcessor)
    (v : ndarray spec_float) :
  Binary64.is_zero (Binary64.threshold self) = true ->
  (100 < length v)%nat ->
  Forall (fun x => Binary64.intensity x = true) (ravel v) ->
  Binary64.amax v = Ok (Binary64.of_Z (2 ^ 14)) ->
  exists self',
    Binary64.load_data self v = Ok (self', v) /\
    Binary64.ge_data self' = v /\
    Binary64.int_scale_factor self' = Binary64.of_Z 1.
Proof.
  intros Hthr Hlen Hint Hmax. rewrite Forall_forall in Hint.
  assert (Hz : Binary64.zero_below (Binary64.threshold self) v = v).
  { apply amap_id_on. intros x Hx. specialize (Hint x Hx).
    apply andb_prop in Hint as [_ Hnn].
    destruct (Binary64.threshold self) as [s'| | |]; try done.
    by destruct x as [s|s| |[] m e]. }
  assert (Hone : amap (fun x => SFmul Binary64.prec Binary64.emax x
                                  (Binary64.of_Z 1)) v = v).
  { apply amap_id_on. intros x Hx. apply SFmul_one.
    by destruct (andb_prop _ _ (Hint x Hx)). }
  unfold Binary64.load_data, Binary64.normalize. rewrite Hz, Hmax.
  cbn [mbind result_bind].
  change (Binary64.float_div (Binary64.of_Z (2 ^ 14)) (Binary64.of_Z (2 ^ 14)))
    with (Ok (A:=spec_float) (Binary64.of_Z 1)).
  cbn [mbind result_bind]. rewrite Hone.
  destruct (diagnostic_frame_returns v 100 Hlen) as [f ->].
  cbn [mbind result_bind]. eexists. split_and!; reflexivity.
Qed.

(** C9 at an input: 101 frames of one voxel, 3.0 a hundred times and then
    16384.0, with threshold 0.0. *)
Lemma binary64_load_data_normalized_witness :
  exists self',
    Binary64.load_data
      (Binary64.mkGEPreProcessor (Binary64.of_Z 0) [] (Binary64.of_Z 1))
      stack_3_16384 = Ok (self', stack_3_16384) /\
    Binary64.ge_data self' = stack_3_16384 /\
    Binary64.int_scale_factor self' = Binary64.of_Z 1.
Proof.
  apply binary64_load_data_normalized.
  - reflexivity.
  - cbn. lia.
  - apply Forall_forall. intros x Hx.
    apply list_elem_of_In in Hx. vm_compute in Hx.
    repeat (destruct Hx as [<-|Hx]; [reflexivity|]). destruct Hx.
  - vm_compute. reflexivity.
Defined.

(** C9 as stated fails: a normalized stack of two frames is not
    returned; [load_data] stops at the diagnostic slice of frame 100. *)
Lemma binary64_load_data_normalized_counterexample :
  ~ (forall (self : Binary64.GEPreProcessor) (v : ndarray spec_float),
       Binary64.is_zero (Binary64.threshold self) = true ->
       Forall (fun x => Binary64.intensity x = true) (ravel v) ->
       Binary64.amax v = Ok (Binary64.of_Z (2 ^ 14)) ->
       exists self',
         Binary64.load_data self v = Ok (self', v) /\
         Binary64.int_scale_factor self' = Binary64.of_Z 1).
Proof.
  intros H.
  destruct (H (Binary64.mkGEPreProcessor (Binary64.of_Z 0) [] (Binary64.of_Z 1))
              [[[Binary64.of_Z (2 ^ 14); Binary64.of_Z 3]];
               [[Binary64.of_Z 0; Binary64.of_Z 100]]])
    as (self' & Hrun & _).
  - reflexivity.
  - repeat constructor.
  - vm_compute. reflexivity.
  - vm_compute in Hrun. discriminate Hrun.
Qed.

(** ** Views *)

Lemma lookup_slice_list {A} (s : slice) (l : list A) i :
  slice_list s l !! i =
    if decide (i < stop s - start s)%nat then l !! (start s + i)%nat else None.
Proof.
  unfold slice_list. case_decide.
  - by rewrite lookup_take_lt, lookup_drop.
  - apply lookup_take_ge. lia.
Qed.

Lemma to_store_to_view b p : in_box b p -> to_store b (to_view b p) = p.
Proof.
  destruct b as [[sx sy] sz], p as [[i j] k]. cbn. intros (? & ? & ?).
  repeat f_equal; lia.
Qed.

Lemma getitem_view_read {A} (store : ndarray A) b p :
  getitem (view_read store b) p =
    if decide (in_box b (to_store b p)) then getitem store (to_store b p)
    else None.
Proof.
  destruct b as [[sx sy] sz], p as [[i j] k]. unfold getitem, view_read, to_store.
  rewrite list_lookup_fmap, lookup_slice_list.
  case_decide as Hi.
  2:{ cbn. rewrite decide_False; [done|]. unfold in_box. lia. }
  destruct (store !! (start sx + i)%nat) as [fr|]; cbn.
  2:{ by case_decide. }
  rewrite list_lookup_fmap, lookup_slice_list.
  case_decide as Hj.
  2:{ cbn. rewrite decide_False; [done|]. unfold in_box. lia. }
  destruct (fr !! (start sy + j)%nat) as [r|]; cbn.
  2:{ by case_decide. }
  rewrite lookup_slice_list.
  case_decide as Hk.
  - rewrite decide_True; [done|]. unfold in_box. lia.
  - rewrite decide_False; [done|]. unfold in_box. lia.
Qed.

Lemma getitem_view_assign {A} (store : ndarray A) b mask c p :
  getitem (view_assign store b mask c) p =
    (fun x => if decide (in_box b p)
              then match getitem mask (to_view b p) with
                   | Some true => c
                   | _ => x
                   end
              else x) <$> getitem store p.
Proof.
  destruct b as [[sx sy] sz]. unfold view_assign. rewrite getitem_imap3.
  destruct (getitem store p) as [x|]; [|done]. cbn. f_equal.
  destruct p as [[i j] k]. unfold in_slice, to_view.
  case_decide as Hb.
  - destruct Hb as (? & ? & ?). by rewrite !bool_decide_eq_true_2.
  - unfold in_box in Hb.
    destruct (bool_decide (start sx <= i < stop sx)%nat) eqn:E1; [|done].
    destruct (bool_decide (start sy <= j < stop sy)%nat) eqn:E2; [|done].
    destruct (bool_decide (start sz <= k < stop sz)%nat) eqn:E3; [|done].
    apply bool_decide_eq_true_1 in E1, E2, E3. tauto.
Qed.

Lemma getitem_zip_with3 {A B C} (f : A -> B -> C) (a : ndarray A)
    (b : ndarray B) p :
  getitem (zip_with3 f a b) p =
    match getitem a p, getitem b p with
    | Some x, Some y => Some (f x y)
    | _, _ => None
    end.
Proof.
  destruct p as [[i j] k]. unfold getitem, zip_with3.
  rewrite lookup_zip_with.
  destruct (a !! i) as [fa|]; cbn; [|done].
  destruct (b !! i) as [fb|]; cbn.
  2:{ by destruct (fa !! j ≫= _). }
  rewrite lookup_zip_with.
  destruct (fa !! j) as [ra|]; cbn; [|done].
  destruct (fb !! j) as [rb|]; cbn.
  2:{ by destruct (ra !! k). }
  rewrite lookup_zip_with.
  destruct (ra !! k); cbn; [|done]. by destruct (rb !! k).
Qed.

(** ** Rectangular arrays *)

Lemma rect_getitem {A} n1 n2 (v : ndarray A) i j k :
  rect n1 n2 v ->
  is_Some (getitem v (i, j, k)) <-> (i < length v /\ j < n1 /\ k < n2)%nat.
Proof.
  intros Hr. unfold rect in Hr. rewrite Forall_forall in Hr. cbn. split.
  - intros [x Hx].
    destruct (v !! i) as [fr|] eqn:Hi; [|done]. cbn in Hx.
    destruct (fr !! j) as [r|] eqn:Hj; [|done]. cbn in Hx.
    destruct (Hr fr) as [<- Hrow]; [by eapply list_elem_of_lookup_2|].
    rewrite Forall_forall in Hrow.
    rewrite <-(Hrow r); [|by eapply list_elem_of_lookup_2].
    split_and!; by eapply lookup_lt_Some.
  - intros (Hi & Hj & Hk).
    destruct (lookup_lt_is_Some_2 v i Hi) as [fr Hfr]. rewrite Hfr. cbn.
    destruct (Hr fr) as [Hlen Hrow]; [by eapply list_elem_of_lookup_2|].
    rewrite Forall_forall in Hrow.
    destruct (lookup_lt_is_Some_2 fr j) as [r Hrr]; [lia|]. rewrite Hrr. cbn.
    apply lookup_lt_is_Some_2. rewrite (Hrow r); [done|].
    by eapply list_elem_of_lookup_2.
Qed.

Lemma rect_shape {A} n1 n2 (v : ndarray A) p :
  rect n1 n2 v -> is_Some (getitem v p) -> shape v = (length v, n1, n2).
Proof.
  intros Hr Hp. destruct p as [[i j] k].
  apply (rect_getitem _ _ _ _ _ _ Hr) in Hp as (Hi & Hj & Hk).
  unfold shape. destruct v as [|fr v]; [cbn in Hi; lia|]. cbn.
  apply Forall_cons in Hr as [[Hlen Hrow] _].
  destruct fr as [|r fr]; [cbn in Hlen; lia|]. cbn.
  apply Forall_cons in Hrow as [Hr0 _]. cbn in Hlen. by subst.
Qed.

Lemma length_slice_list {A} (s : slice) (l : list A) :
  length (slice_list s l) = ((stop s - start s) `min` (length l - start s))%nat.
Proof. unfold slice_list. by rewrite length_take, length_drop. Qed.

Lemma rectangular_view_read {A} (store : ndarray A) b :
  rectangular store -> rectangular (view_read store b).
Proof.
  intros (n1 & n2 & Hr). destruct b as [[sx sy] sz].
  exists ((stop sy - start sy) `min` (n1 - start sy))%nat,
         ((stop sz - start sz) `min` (n2 - start sz))%nat.
  unfold rect in *. rewrite Forall_forall in Hr. apply Forall_forall.
  intros fr' (fr & -> & Hfr)%list_elem_of_fmap.
  assert (fr ∈ store) as Hin.
  { unfold slice_list in Hfr.
    by eapply subseteq_drop, subseteq_take. }
  destruct (Hr fr Hin) as [Hlen Hrow]. rewrite Forall_forall in Hrow. split.
  - by rewrite length_fmap, length_slice_list, Hlen.
  - apply Forall_forall. intros r' (r & -> & Hrr)%list_elem_of_fmap.
    rewrite length_slice_list, (Hrow r); [done|].
    unfold slice_list in Hrr. by eapply subseteq_drop, subseteq_take.
Qed.

(** ** The maximum filter *)

Lemma elem_of_offsets s d : d ∈ offsets s <-> in_range s d.
Proof. unfold offsets, in_range. rewrite elem_of_seqZ. lia. Qed.

Lemma in_range_0 s : (1 <= s)%Z -> in_range s 0.
Proof.
  intros Hs. unfold in_range.
  pose proof (Z.div_mod s 2 ltac:(lia)).
  pose proof (Z.mod_pos_bound s 2 ltac:(lia)). lia.
Qed.

Lemma in_range_narrow s d : (s <= 1)%Z -> in_range s d -> d = 0%Z.
Proof.
  unfold in_range.
  pose proof (Z.div_mod s 2 ltac:(lia)).
  pose proof (Z.mod_pos_bound s 2 ltac:(lia)). lia.
Qed.

(** Windows grow with the width. *)
Lemma in_range_mono s s' d : (s <= s')%Z -> in_range s d -> in_range s' d.
Proof.
  unfold in_range.
  pose proof (Z.div_mod s 2 ltac:(lia)).
  pose proof (Z.mod_pos_bound s 2 ltac:(lia)).
  pose proof (Z.div_mod s' 2 ltac:(lia)).
  pose proof (Z.mod_pos_bound s' 2 ltac:(lia)). lia.
Qed.

Lemma in_window_mono s s' p q : (s <= s')%Z -> in_window s p q -> in_window s' p q.
Proof.
  destruct p as [[i j] k], q as [[i' j'] k']. unfold in_window.
  intros Hs (? & ? & ?). split_and!; by eapply in_range_mono.
Qed.

Lemma nearest_lt n z : (0 < n)%nat -> (nearest n z < n)%nat.
Proof. unfold nearest. lia. Qed.

Lemma nearest_id n q : (q < n)%nat -> nearest n (Z.of_nat q) = q.
Proof. unfold nearest. lia. Qed.

(** Edge replication does not leave the window: the voxel read for an
    offset beyond the edge is the edge voxel, which the window covers. *)
Lemma nearest_in_range s n p d :
  (p < n)%nat -> in_range s d ->
  in_range s (Z.of_nat (nearest n (Z.of_nat p + d)) - Z.of_nat p).
Proof.
  unfold in_range, nearest.
  pose proof (Z.div_mod s 2 ltac:(lia)).
  pose proof (Z.mod_pos_bound s 2 ltac:(lia)). lia.
Qed.

Lemma elem_of_window input s p y :
  y ∈ window input s p <->
  exists di dj dk, in_range s di /\ in_range s dj /\ in_range s dk /\
                   y = at_nearest input p (di, dj, dk).
Proof.
  unfold window. rewrite list_elem_of_bind. split.
  - intros (di & (dj & (dk & Hy & Hk)%list_elem_of_bind & Hj)%list_elem_of_bind & Hi).
    apply list_elem_of_singleton in Hy.
    exists di, dj, dk. by rewrite <-!elem_of_offsets.
  - intros (di & dj & dk & Hi & Hj & Hk & ->).
    exists di. split; [|by apply elem_of_offsets].
    apply list_elem_of_bind. exists dj. split; [|by apply elem_of_offsets].
    apply list_elem_of_bind. exists dk. split; [|by apply elem_of_offsets].
    by apply list_elem_of_singleton.
Qed.

Section MaximumFilter.
Context (input : volume) (n1 n2 : nat) (Hrect : rect n1 n2 input).
Context (s : Z).

(** Every value under the window is the value of a voxel of the array
    inside the window. *)
Lemma window_voxel p x y :
  getitem input p = Some x -> y ∈ window input s p ->
  exists q, in_window s p q /\ getitem input q = Some y.
Proof using Hrect.
  intros Hp (di & dj & dk & Hi & Hj & Hk & ->)%elem_of_window.
  destruct p as [[i j] k].
  assert (Hsome : is_Some (getitem input (i, j, k))) by eauto.
  pose proof (rect_shape _ _ _ _ Hrect Hsome) as Hshape.
  apply (rect_getitem _ _ _ _ _ _ Hrect) in Hsome as (Hi' & Hj' & Hk').
  unfold at_nearest. rewrite Hshape.
  set (q := (nearest (length input) (Z.of_nat i + di),
             nearest n1 (Z.of_nat j + dj), nearest n2 (Z.of_nat k + dk))).
  assert (is_Some (getitem input q)) as [y Hy].
  { apply (rect_getitem _ _ _ _ _ _ Hrect).
    split_and!; apply nearest_lt; lia. }
  exists q. rewrite Hy. split; [|done].
  unfold in_window, q. split_and!; by apply nearest_in_range.
Qed.

(** Every voxel of the array inside the window is under the window. *)
Lemma voxel_window p x q y :
  getitem input p = Some x -> in_window s p q -> getitem input q = Some y ->
  y ∈ window input s p.
Proof using Hrect.
  intros Hp Hw Hq. destruct p as [[i j] k], q as [[i' j'] k'].
  assert (Hsome : is_Some (getitem input (i', j', k'))) by eauto.
  pose proof (rect_shape _ _ _ _ Hrect Hsome) as Hshape.
  apply (rect_getitem _ _ _ _ _ _ Hrect) in Hsome as (Hi' & Hj' & Hk').
  destruct Hw as (Hi & Hj & Hk).
  apply elem_of_window. eexists _, _, _. split_and!; [exact Hi|exact Hj|exact Hk|].
  unfold at_nearest. rewrite Hshape.
  replace (Z.of_nat i + (Z.of_nat i' - Z.of_nat i))%Z with (Z.of_nat i') by lia.
  replace (Z.of_nat j + (Z.of_nat j' - Z.of_nat j))%Z with (Z.of_nat j') by lia.
  replace (Z.of_nat k + (Z.of_nat k' - Z.of_nat k))%Z with (Z.of_nat k') by lia.
  rewrite !nearest_id by done. by rewrite Hq.
Qed.

Lemma in_window_refl p : (1 <= s)%Z -> in_window s p p.
Proof.
  intros Hs. destruct p as [[i j] k]. unfold in_window.
  rewrite !Z.sub_diag. split_and!; by apply in_range_0.
Qed.

(** The filtered value at [p] is the value at [p] itself exactly when
    [p] is a local maximum. *)
Lemma maximum_filter_spec p x :
  getitem input p = Some x ->
  exists m, getitem (maximum_filter input s) p = Some m /\
            (x = m <-> local_maximum input s p x).
Proof using Hrect.
  intros Hp. unfold maximum_filter. case_decide as Hs.
  - exists x. split; [done|]. split; [|done]. intros _. split; [done|].
    intros [[i' j'] k'] y Hw Hq. destruct p as [[i j] k].
    destruct Hw as (Hi & Hj & Hk).
    apply (in_range_narrow _ _ Hs) in Hi, Hj, Hk.
    assert (i' = i /\ j' = j /\ k' = k) as (-> & -> & ->) by lia.
    rewrite Hp in Hq. injection Hq as ->. apply Qcle_refl.
  - rewrite getitem_imap3, Hp. cbn. eexists. split; [done|].
    assert (Hx : x ∈ window input s p).
    { eapply voxel_window; [done| |done]. apply in_window_refl. lia. }
    destruct (window input s p) as [|z l] eqn:Ew; [by apply elem_of_nil in Hx|].
    split.
    + intros Hmax. split; [done|]. intros q y Hw Hq.
      assert (Hy : y ∈ z :: l).
      { rewrite <-Ew. by eapply voxel_window. }
      rewrite Hmax.
      apply elem_of_cons in Hy as [->|Hy];
        [apply maximum_ge_seed|by apply maximum_ge].
    + intros [_ Hle]. symmetry. apply maximum_unique; [done|].
      intros y Hy. rewrite <-Ew in Hy.
      destruct (window_voxel _ _ _ Hp Hy) as (q & Hw & Hq). by eapply Hle.
Qed.
End MaximumFilter.

(** ** Stage 5: suppression of one blob *)

Lemma in_window_to_view b s p q :
  in_box b p -> in_window s (to_view b p) q <-> in_window s p (to_store b q).
Proof.
  destruct b as [[sx sy] sz], p as [[i j] k], q as [[i' j'] k'].
  unfold in_box, in_window, to_view, to_store. intros (? & ? & ?).
  replace (Z.of_nat i' - Z.of_nat (i - start sx))%Z
    with (Z.of_nat (start sx + i') - Z.of_nat i)%Z by lia.
  replace (Z.of_nat j' - Z.of_nat (j - start sy))%Z
    with (Z.of_nat (start sy + j') - Z.of_nat j)%Z by lia.
  replace (Z.of_nat k' - Z.of_nat (k - start sz))%Z
    with (Z.of_nat (start sz + k') - Z.of_nat k)%Z by lia.
  done.
Qed.

Lemma to_view_to_store b q : to_view b (to_store b q) = q.
Proof.
  destruct b as [[sx sy] sz], q as [[i j] k]. cbn. repeat f_equal; lia.
Qed.

(** A local maximum of the view is a local maximum of the sub-volume. *)
Lemma local_maximum_view (store : volume) b s p x :
  in_box b p ->
  local_maximum (view_read store b) s (to_view b p) x <->
  sub_volume_max store b s p x.
Proof.
  intros Hb. unfold local_maximum, sub_volume_max.
  rewrite getitem_view_read, to_store_to_view, decide_True by done.
  split.
  - intros [Hp Hle]. split_and!; [done..|]. intros q y Hq Hw Hy.
    apply (Hle (to_view b q)).
    + apply in_window_to_view; [done|]. by rewrite to_store_to_view.
    + by rewrite getitem_view_read, to_store_to_view, decide_True.
  - intros (_ & Hp & Hle). split; [done|]. intros q y Hw Hy.
    rewrite getitem_view_read in Hy. case_decide as Hq; [|done].
    apply (Hle (to_store b q)); [done| |done].
    by apply in_window_to_view.
Qed.

Lemma suppress_blob_Ok sf thr s (store store' : volume) blob :
  suppress_blob sf thr s store blob = Ok store' ->
  let roi := view_read store (blob_box blob) in
  store' = view_assign store (blob_box blob)
             (amap negb (zip_with3 (fun x m => bool_decide (x = m)) roi
                                   (maximum_filter roi s))) 0.
Proof.
  unfold suppress_blob, blob_box, amax_axis0, mbind, result_bind.
  destruct (view_read _ _); [done|]. by intros [= <-].
Qed.

(** What one pass of the loop body leaves in the store: outside the box
    nothing changes; inside, a local maximum of the sub-volume stays and
    every other voxel becomes zero. *)
Lemma suppress_blob_getitem sf thr s (store store' : volume) blob :
  rectangular store ->
  suppress_blob sf thr s store blob = Ok store' ->
  forall p,
    match getitem store p with
    | None => getitem store' p = None
    | Some x =>
        if decide (in_box (blob_box blob) p) then
          (sub_volume_max store (blob_box blob) s p x /\
           getitem store' p = Some x) \/
          (~ sub_volume_max store (blob_box blob) s p x /\
           getitem store' p = Some 0)
        else getitem store' p = Some x
    end.
Proof.
  intros Hrect Hs p. apply suppress_blob_Ok in Hs. cbn zeta in Hs. subst store'.
  set (b := blob_box blob). set (roi := view_read store b).
  rewrite getitem_view_assign.
  destruct (getitem store p) as [x|] eqn:Hp; [|done].
  cbn [fmap option_fmap option_map].
  case_decide as Hb; [|done].
  assert (Hroi : getitem roi (to_view b p) = Some x).
  { unfold roi.
    by rewrite getitem_view_read, to_store_to_view, decide_True. }
  destruct (rectangular_view_read store b Hrect) as (n1 & n2 & Hr).
  destruct (maximum_filter_spec roi n1 n2 Hr s (to_view b p) x Hroi)
    as (m & Hm & Hiff).
  rewrite getitem_amap, getitem_zip_with3, Hroi, Hm.
  cbn [fmap option_fmap option_map].
  destruct (decide (x = m)) as [E|E].
  - left. rewrite bool_decide_eq_true_2 by done. split; [|done].
    apply local_maximum_view; [done|]. by apply Hiff.
  - right. rewrite bool_decide_eq_false_2 by done. split; [|done].
    intros Hmax. apply E, Hiff. by apply local_maximum_view.
Qed.

(** The loop body fails only on a view without frames. *)
Lemma suppress_blob_returns sf thr s (store : volume) blob :
  view_read store (blob_box blob) <> [] ->
  exists store', suppress_blob sf thr s store blob = Ok store'.
Proof.
  intros Hne. unfold suppress_blob. fold (blob_box blob).
  destruct (view_read store (blob_box blob)) eqn:E; [done|].
  unfold amax_axis0, mbind, result_bind. eauto.
Qed.

(** The suppressed store has the shape of the store. *)
Lemma suppress_blob_rectangular sf thr s (store store' : volume) blob :
  rectangular store ->
  suppress_blob sf thr s store blob = Ok store' ->
  rectangular store'.
Proof.
  intros (n1 & n2 & Hr) Hs. apply suppress_blob_Ok in Hs. cbn zeta in Hs.
  subst store'.
  exists n1, n2. unfold rect in *. unfold view_assign, imap3.
  destruct (blob_box blob) as [[sx sy] sz].
  rewrite Forall_forall in Hr. apply Forall_forall.
  intros fr' (i & Hi)%list_elem_of_lookup.
  rewrite list_lookup_imap in Hi.
  destruct (store !! i) as [fr|] eqn:Hfr; [|done]. cbn in Hi.
  injection Hi as <-.
  destruct (Hr fr) as [Hlen Hrow]; [by eapply list_elem_of_lookup_2|].
  rewrite length_imap. split; [done|].
  rewrite Forall_forall in Hrow. apply Forall_forall.
  intros r' (j & Hj)%list_elem_of_lookup.
  rewrite list_lookup_imap in Hj.
  destruct (fr !! j) as [r|] eqn:Hrj; [|done]. cbn in Hj.
  injection Hj as <-. rewrite length_imap.
  apply Hrow. by eapply list_elem_of_lookup_2.
Qed.

(** ** Stage 5: the loop over the blobs *)

Lemma zeroed_refl store : zeroed store store.
Proof. intros p. destruct (getitem store p); auto. Qed.

Lemma zeroed_trans s1 s2 s3 : zeroed s1 s2 -> zeroed s2 s3 -> zeroed s1 s3.
Proof.
  intros H12 H23 p. specialize (H12 p). specialize (H23 p).
  destruct (getitem s1 p) as [x|].
  - destruct H12 as [H|H]; rewrite H in H23; tauto.
  - by rewrite H12 in H23.
Qed.

Lemma suppress_blob_zeroed sf thr s (store store' : volume) blob :
  suppress_blob sf thr s store blob = Ok store' -> zeroed store store'.
Proof.
  intros Hs p. apply suppress_blob_Ok in Hs. cbn zeta in Hs. subst store'.
  rewrite getitem_view_assign. destruct (getitem store p) as [x|]; [|done].
  cbn [fmap option_fmap option_map]. case_decide; [|by left].
  destruct (getitem _ _) as [[]|]; auto.
Qed.

Lemma suppress_blobs_zeroed sf thr s (store : volume) bs :
  zeroed store (suppress_blobs sf thr s store bs).1.
Proof.
  revert store. induction bs as [|blob bs IH]; intros store; cbn.
  - apply zeroed_refl.
  - destruct (suppress_blob sf thr s store blob) as [store'|e] eqn:E; cbn.
    + eapply zeroed_trans; [by eapply suppress_blob_zeroed|apply IH].
    + apply zeroed_refl.
Qed.

Lemma zeroed_nonneg store store' p x :
  Forall (fun x => 0 ≤ x) (ravel store) -> zeroed store store' ->
  getitem store' p = Some x -> 0 ≤ x.
Proof.
  intros Hnn Hz Hp. rewrite Forall_forall in Hnn. specialize (Hz p).
  destruct (getitem store p) as [y|] eqn:Hy; [|congruence].
  destruct Hz as [Hz|Hz]; rewrite Hz in Hp; injection Hp as <-.
  - apply Hnn, elem_of_ravel. eauto.
  - apply Qcle_refl.
Qed.

Lemma zeroed_nonzero store store' p x :
  zeroed store store' -> getitem store' p = Some x -> x <> 0 ->
  getitem store p = Some x.
Proof.
  intros Hz Hp Hx. specialize (Hz p).
  destruct (getitem store p) as [y|]; [|congruence].
  destruct Hz as [Hz|Hz]; rewrite Hz in Hp; congruence.
Qed.

(** Processing a list of blobs is processing its parts in turn, on the
    one store. *)
Lemma suppress_blobs_app sf thr s (store : volume) pre post :
  suppress_blobs sf thr s store (pre ++ post) =
    match suppress_blobs sf thr s store pre with
    | (store0, Ok _) => suppress_blobs sf thr s store0 post
    | (store0, Raise e) => (store0, Raise e)
    end.
Proof.
  revert store. induction pre as [|blob pre IH]; intros store; [done|].
  cbn. destruct (suppress_blob sf thr s store blob); [apply IH|done].
Qed.

Lemma suppress_blobs_rectangular sf thr s (store : volume) bs :
  rectangular store -> rectangular (suppress_blobs sf thr s store bs).1.
Proof.
  revert store. induction bs as [|blob bs IH]; intros store Hr; [done|].
  cbn. destruct (suppress_blob sf thr s store blob) eqn:E; [|done].
  apply IH. by eapply suppress_blob_rectangular.
Qed.

(** A voxel that is not zero at the end of the loop was a local maximum
    of every blob whose box holds it, and it bounds what the loop left
    in its window. *)
Lemma suppress_blobs_sound sf thr s (store final : volume) bs :
  rectangular store -> Forall (fun x => 0 ≤ x) (ravel store) ->
  suppress_blobs sf thr s store bs = (final, Ok ()) ->
  forall blob p x,
    blob ∈ bs -> in_box (blob_box blob) p ->
    getitem final p = Some x -> x <> 0 ->
    forall q y,
      in_box (blob_box blob) q -> in_window s p q ->
      getitem final q = Some y -> y ≤ x.
Proof.
  intros Hrect Hnn Hrun blob p x Hin Hb Hp Hx q y Hq Hw Hy.
  apply list_elem_of_split in Hin as (pre & post & ->).
  rewrite suppress_blobs_app in Hrun.
  pose proof (suppress_blobs_zeroed sf thr s store pre) as Hz0.
  pose proof (suppress_blobs_rectangular sf thr s store pre Hrect) as Hr0.
  destruct (suppress_blobs sf thr s store pre) as [store0 [[]|e]];
    [|done]. cbn in Hz0, Hr0. cbn in Hrun.
  destruct (suppress_blob sf thr s store0 blob) as [store1|e] eqn:E; [|done].
  pose proof (suppress_blobs_zeroed sf thr s store1 post) as Hz1.
  rewrite Hrun in Hz1. cbn in Hz1.
  pose proof (suppress_blob_zeroed _ _ _ _ _ _ E) as Hz01.
  assert (Hp1 : getitem store1 p = Some x) by by eapply zeroed_nonzero.
  assert (Hp0 : getitem store0 p = Some x) by by eapply zeroed_nonzero.
  pose proof (suppress_blob_getitem _ _ _ _ _ _ Hr0 E p) as Hspec.
  rewrite Hp0, decide_True in Hspec by done.
  destruct Hspec as [[Hmax _]|[_ H0]]; [|congruence].
  destruct Hmax as (_ & _ & Hle).
  pose proof (zeroed_trans _ _ _ Hz01 Hz1 q) as Hzq.
  destruct (getitem store0 q) as [y0|] eqn:Hq0; [|congruence].
  destruct Hzq as [Hzq|Hzq]; rewrite Hzq in Hy; injection Hy as <-.
  - by eapply Hle.
  - eapply (zeroed_nonneg store final p).
    + done.
    + eapply zeroed_trans; [exact Hz0|]. by eapply zeroed_trans.
    + done.
Qed.

Lemma elem_of_box_positions b p : p ∈ box_positions b <-> in_box b p.
Proof.
  destruct b as [[sx sy] sz], p as [[i j] k]. unfold box_positions, in_box, extent.
  rewrite list_elem_of_bind. split.
  - intros (i' & (j' & (k' & Hp & Hk)%list_elem_of_bind & Hj)%list_elem_of_bind & Hi).
    apply list_elem_of_singleton in Hp. injection Hp as -> -> ->.
    apply elem_of_seq in Hi, Hj, Hk. lia.
  - intros (Hi & Hj & Hk). exists i. split; [|apply elem_of_seq; lia].
    apply list_elem_of_bind. exists j. split; [|apply elem_of_seq; lia].
    apply list_elem_of_bind. exists k. split; [|apply elem_of_seq; lia].
    by apply list_elem_of_singleton.
Qed.

Lemma length_filter_mono {A} (P Q : A -> Prop) `{!forall x, Decision (P x)}
    `{!forall x, Decision (Q x)} (l : list A) :
  (forall x, x ∈ l -> P x -> Q x) ->
  (length (filter P l) <= length (filter Q l))%nat.
Proof.
  induction l as [|a l IH]; intros Himp; [done|].
  rewrite !filter_cons.
  assert (length (filter P l) <= length (filter Q l))%nat as IH'.
  { apply IH. intros x Hx. apply Himp. by apply list_elem_of_further. }
  destruct (decide (P a)) as [HP|HP].
  - rewrite decide_True; [cbn; lia|]. apply Himp; [apply list_elem_of_here|done].
  - destruct (decide (Q a)); cbn; lia.
Qed.

Lemma sub_volume_max_mono store b s s' p x :
  (s <= s')%Z -> sub_volume_max store b s' p x -> sub_volume_max store b s p x.
Proof.
  intros Hs (Hb & Hp & Hle). split_and!; [done..|].
  intros q y Hq Hw Hy. eapply Hle; [done| |done]. by eapply in_window_mono.
Qed.

(** A wider window leaves fewer peaks in a blob. *)
Lemma peaks_mono sf thr s s' (store st st' : volume) blob :
  rectangular store -> (s <= s')%Z ->
  suppress_blob sf thr s store blob = Ok st ->
  suppress_blob sf thr s' store blob = Ok st' ->
  (length (peaks st' (blob_box blob)) <= length (peaks st (blob_box blob)))%nat.
Proof.
  intros Hrect Hs H1 H2. apply length_filter_mono.
  intros p Hb%elem_of_box_positions Hpk. unfold is_peak in *.
  pose proof (suppress_blob_getitem _ _ _ _ _ _ Hrect H1 p) as Hp1.
  pose proof (suppress_blob_getitem _ _ _ _ _ _ Hrect H2 p) as Hp2.
  destruct (getitem store p) as [x|].
  2:{ by rewrite Hp2 in Hpk. }
  rewrite decide_True in Hp1, Hp2 by done.
  destruct Hp2 as [[Hmax Hp2]|[_ Hp2]]; rewrite Hp2 in Hpk; [|done].
  destruct Hp1 as [[_ Hp1]|[Hno _]]; [by rewrite Hp1|].
  destruct Hno. by eapply sub_volume_max_mono.
Qed.

(** C3, as amended: after the loop body for a blob, a voxel of the blob's
    box holds the non-zero value [x] exactly when it held [x] before and
    no voxel of the sub-volume in its window was larger; voxels that tie
    with it are no obstacle. *)
Theorem suppress_blob_peaks sf thr s (store store' : volume) blob p x :
  rectangular store ->
  suppress_blob sf thr s store blob = Ok store' ->
  in_box (blob_box blob) p -> x <> 0 ->
  getitem store' p = Some x <-> sub_volume_max store (blob_box blob) s p x.
Proof.
  intros Hrect Hs Hb Hx.
  pose proof (suppress_blob_getitem _ _ _ _ _ _ Hrect Hs p) as Hp.
  split.
  - intros Hp'.
    assert (getitem store p = Some x) as Hp0.
    { eapply zeroed_nonzero; [by eapply suppress_blob_zeroed|done..]. }
    rewrite Hp0, decide_True in Hp by done.
    destruct Hp as [[Hmax _]|[_ H0]]; [done|congruence].
  - intros Hmax. pose proof Hmax as (_ & Hp0 & _).
    rewrite Hp0, decide_True in Hp by done.
    destruct Hp as [[_ Hp]|[Hno _]]; [done|by destruct Hno].
Qed.

(** C3 at an input: of the two voxels 5 and 7, the voxel 7 stays. *)
Lemma suppress_blob_peaks_witness :
  getitem [[[0; Qc_of_Z 7]]] (0, 0, 1)%nat = Some (Qc_of_Z 7) <->
  sub_volume_max [[[Qc_of_Z 5; Qc_of_Z 7]]] (blob_box whole_1x1x2) 3
                 (0, 0, 1)%nat (Qc_of_Z 7).
Proof.
  apply (suppress_blob_peaks 1 0 3 [[[Qc_of_Z 5; Qc_of_Z 7]]]
           [[[0; Qc_of_Z 7]]] whole_1x1x2).
  - exists 1%nat, 2%nat. repeat constructor.
  - by vm_compute.
  - cbn. lia.
  - by vm_compute.
Defined.

(** C3 as stated fails: of two equal voxels in one window both stay. *)
Lemma suppress_blob_peaks_counterexample :
  ~ (forall sf thr s (store store' : volume) blob p x q y,
       rectangular store ->
       suppress_blob sf thr s store blob = Ok store' ->
       in_box (blob_box blob) p -> getitem store' p = Some x -> x <> 0 ->
       in_box (blob_box blob) q -> q <> p -> in_window s p q ->
       getitem store q = Some y -> y < x).
Proof.
  intros H.
  assert (Qc_of_Z 5 < Qc_of_Z 5) as Hlt; [|by vm_compute in Hlt].
  apply (H 1 0 3%Z [[[Qc_of_Z 5; Qc_of_Z 5]]] [[[Qc_of_Z 5; Qc_of_Z 5]]]
           whole_1x1x2 (0, 0, 0)%nat (Qc_of_Z 5) (0, 0, 1)%nat (Qc_of_Z 5)).
  - exists 1%nat, 2%nat. repeat constructor.
  - by vm_compute.
  - cbn. lia.
  - done.
  - by vm_compute.
  - cbn. lia.
  - done.
  - unfold in_window, in_range. change (3 / 2)%Z with 1%Z. lia.
  - done.
Qed.

Lemma find_local_maxima_run self :
  find_local_maxima self =
    (let r := suppress_blobs (int_scale_factor self) (threshold self)
                (min_peak_separation self) (ge_data self) (blobs self) in
     ({| threshold := threshold self;
         gauss_sigma := gauss_sigma self;
         ge_data := r.1;
         ge_smooth_data := ge_smooth_data self;
         ge_labeled_data := ge_labeled_data self;
         number_of_labels := number_of_labels self;
         min_blob_size := min_blob_size self;
         int_scale_factor := int_scale_factor self;
         min_peak_separation := min_peak_separation self;
         blobs := blobs self;
         blob_sizes := blob_sizes self |},
      _ ← r.2; Ok (blobs self))).
Proof. unfold find_local_maxima. by destruct (suppress_blobs _ _ _ _ _). Qed.

Lemma row_rectangular : rectangular row_4_9_8_6_3.
Proof. exists 1%nat, 5%nat. repeat constructor. Qed.

(** C6: take a blob of the loop of [find_local_maxima], the sub-volume
    [roi] of [ge_data] that the maximum filter read for it, and the
    sub-volume the loop body left.  A voxel that is not zero in the
    latter held the same value in [roi], and no voxel of [roi] in the
    separation window placed on it is larger.  The same holds of every
    voxel of the blob's box that is not zero when [find_local_maxima]
    ends. *)
Theorem find_local_maxima_sound (self : GEPreProcessor) pre blob post
    (store0 store1 : volume) :
  rectangular (ge_data self) ->
  blobs self = pre ++ blob :: post ->
  suppress_blobs (int_scale_factor self) (threshold self)
    (min_peak_separation self) (ge_data self) pre = (store0, Ok ()) ->
  suppress_blob (int_scale_factor self) (threshold self)
    (min_peak_separation self) store0 blob = Ok store1 ->
  let s := min_peak_separation self in
  let b := blob_box blob in
  let roi := view_read store0 b in
  let suppressed := view_read store1 b in
  (forall p x, getitem suppressed p = Some x -> x <> 0 ->
               local_maximum roi s p x) /\
  (forall p x, in_box b p ->
               getitem (ge_data (find_local_maxima self).1) p = Some x ->
               x <> 0 ->
               sub_volume_max store0 b s p x).
Proof.
  intros Hrect Hblobs Hpre Hstep s b roi suppressed.
  assert (Hr0 : rectangular store0).
  { pose proof (suppress_blobs_rectangular (int_scale_factor self)
                  (threshold self) s (ge_data self) pre Hrect) as H.
    unfold s in H. by rewrite Hpre in H. }
  assert (Hmax : forall p x, in_box b p -> getitem store1 p = Some x ->
                   x <> 0 -> sub_volume_max store0 b s p x).
  { intros p x Hb Hp Hx.
    assert (getitem store0 p = Some x) as Hp0.
    { eapply zeroed_nonzero; [by eapply suppress_blob_zeroed|done..]. }
    pose proof (suppress_blob_getitem _ _ _ _ _ _ Hr0 Hstep p) as H.
    rewrite Hp0, decide_True in H by done.
    destruct H as [[H _]|[_ H]]; [done|congruence]. }
  split.
  - intros p x Hp Hx. unfold suppressed in Hp.
    rewrite getitem_view_read in Hp. case_decide as Hb; [|done].
    apply (Hmax _ _ Hb Hp) in Hx.
    apply (local_maximum_view store0 b s _ x Hb) in Hx.
    by rewrite to_view_to_store in Hx.
  - intros p x Hb Hp Hx. apply Hmax; [done| |done].
    eapply zeroed_nonzero; [|exact Hp|done].
    rewrite find_local_maxima_run. cbn [fst ge_data].
    rewrite Hblobs, suppress_blobs_app, Hpre. cbn [suppress_blobs].
    rewrite Hstep. apply suppress_blobs_zeroed.
Qed.

(** C6 at an input: on the row 4 9 8 6 3 the second blob reads 0 6 3,
    the first blob having zeroed the voxel 8, and keeps 6: in what it
    read, 6 is a local maximum. *)
Lemma find_local_maxima_sound_witness :
  local_maximum (view_read [[[0; Qc_of_Z 9; 0; Qc_of_Z 6; Qc_of_Z 3]]]
                           (blob_box right_blob))
                3 (0, 0, 1)%nat (Qc_of_Z 6) /\
  sub_volume_max [[[0; Qc_of_Z 9; 0; Qc_of_Z 6; Qc_of_Z 3]]]
                 (blob_box right_blob) 3 (0, 0, 3)%nat (Qc_of_Z 6).
Proof.
  assert (Hx : Qc_of_Z 6 <> 0) by by vm_compute.
  assert (Hb : in_box (blob_box right_blob) (0, 0, 3)%nat) by (cbn; lia).
  assert (Hpre : suppress_blobs (int_scale_factor two_blobs)
            (threshold two_blobs) (min_peak_separation two_blobs)
            (ge_data two_blobs) [left_blob]
          = ([[[0; Qc_of_Z 9; 0; Qc_of_Z 6; Qc_of_Z 3]]], Ok ())).
  { vm_compute. reflexivity. }
  assert (Hstep : suppress_blob (int_scale_factor two_blobs)
            (threshold two_blobs) (min_peak_separation two_blobs)
            [[[0; Qc_of_Z 9; 0; Qc_of_Z 6; Qc_of_Z 3]]] right_blob
          = Ok [[[0; Qc_of_Z 9; 0; Qc_of_Z 6; 0]]]).
  { vm_compute. reflexivity. }
  assert (Hend : getitem (ge_data (find_local_maxima two_blobs).1)
                         (0, 0, 3)%nat = Some (Qc_of_Z 6)).
  { vm_compute. reflexivity. }
  pose proof (find_local_maxima_sound two_blobs [left_blob] right_blob []
              [[[0; Qc_of_Z 9; 0; Qc_of_Z 6; Qc_of_Z 3]]]
              [[[0; Qc_of_Z 9; 0; Qc_of_Z 6; 0]]]
              row_rectangular eq_refl Hpre Hstep) as HH.
  cbv zeta in HH. destruct HH as [Hview Hfinal].
  split.
  - exact (Hview (0, 0, 1)%nat (Qc_of_Z 6) eq_refl Hx).
  - exact (Hfinal (0, 0, 3)%nat (Qc_of_Z 6) Hb Hend Hx).
Defined.

(** The loop runs to its end when every blob's view has a frame. *)
Lemma suppress_blobs_returns sf thr s (store : volume) bs :
  Forall (fun blob => start (slice_x blob) < stop (slice_x blob) /\
                      start (slice_x blob) < length store)%nat bs ->
  (suppress_blobs sf thr s store bs).2 = Ok ().
Proof.
  revert store. induction bs as [|blob bs IH]; intros store Hbs; [done|].
  apply Forall_cons in Hbs as [[Hlt Hlen] Hbs]. cbn.
  destruct (suppress_blob_returns sf thr s store blob) as [store' Hs].
  { unfold blob_box, view_read. intros E%fmap_nil_inv.
    apply (f_equal length) in E. rewrite length_slice_list in E.
    cbn in E. lia. }
  rewrite Hs. apply IH.
  apply suppress_blob_Ok in Hs. cbn zeta in Hs. subst store'.
  unfold view_assign, imap3. destruct (blob_box blob) as [[sx sy] sz].
  by rewrite length_imap.
Qed.

(** C10: [find_local_maxima] works on the one array [ge_data].  When the
    loop reaches a blob, the body zeroes in [ge_data] every voxel of the
    blob's box that is not a local maximum and leaves the voxels outside
    the box; the blobs after it are processed on the array so changed, so
    that the view of a later blob over such a voxel reads zero; and if the
    voxel was not zero, the array that [find_local_maxima] leaves differs
    from the one it was given. *)
Theorem find_local_maxima_in_place (self : GEPreProcessor) pre blob post
    (store0 store1 : volume) :
  rectangular (ge_data self) ->
  blobs self = pre ++ blob :: post ->
  suppress_blobs (int_scale_factor self) (threshold self)
    (min_peak_separation self) (ge_data self) pre = (store0, Ok ()) ->
  suppress_blob (int_scale_factor self) (threshold self)
    (min_peak_separation self) store0 blob = Ok store1 ->
  let s := min_peak_separation self in
  let b := blob_box blob in
  let final := ge_data (find_local_maxima self).1 in
  (forall p x, in_box b p -> getitem store0 p = Some x ->
               ~ sub_volume_max store0 b s p x ->
               getitem store1 p = Some 0) /\
  (forall p, ~ in_box b p -> getitem store1 p = getitem store0 p) /\
  final = (suppress_blobs (int_scale_factor self) (threshold self) s
             store1 post).1 /\
  (forall b2 p x, in_box b p -> in_box b2 p -> getitem store0 p = Some x ->
                  ~ sub_volume_max store0 b s p x ->
                  getitem (view_read store1 b2) (to_view b2 p) = Some 0) /\
  (forall p x, in_box b p -> getitem store0 p = Some x -> x <> 0 ->
               ~ sub_volume_max store0 b s p x ->
               getitem final p = Some 0 /\ final <> ge_data self).
Proof.
  intros Hrect Hblobs Hpre Hstep s b final.
  assert (Hr0 : rectangular store0).
  { pose proof (suppress_blobs_rectangular (int_scale_factor self)
                  (threshold self) s (ge_data self) pre Hrect) as H.
    unfold s in H. by rewrite Hpre in H. }
  assert (Hzero : forall p x, in_box b p -> getitem store0 p = Some x ->
                    ~ sub_volume_max store0 b s p x ->
                    getitem store1 p = Some 0).
  { intros p x Hb Hp Hno.
    pose proof (suppress_blob_getitem _ _ _ _ _ _ Hr0 Hstep p) as H.
    rewrite Hp, decide_True in H by done.
    by destruct H as [[Hmax _]|[_ H]]. }
  assert (Hfinal : final = (suppress_blobs (int_scale_factor self)
                              (threshold self) s store1 post).1).
  { unfold final. rewrite find_local_maxima_run. cbn [fst ge_data].
    rewrite Hblobs, suppress_blobs_app, Hpre. cbn [suppress_blobs].
    by rewrite Hstep. }
  split_and!; [exact Hzero| |exact Hfinal| |].
  - intros p Hb.
    pose proof (suppress_blob_getitem _ _ _ _ _ _ Hr0 Hstep p) as H.
    destruct (getitem store0 p); [|done]. by rewrite decide_False in H.
  - intros b2 p x Hb Hb2 Hp Hno.
    rewrite getitem_view_read, to_store_to_view, decide_True by done.
    by eapply Hzero.
  - intros p x Hb Hp Hx Hno.
    assert (getitem final p = Some 0) as H0.
    { pose proof (suppress_blobs_zeroed (int_scale_factor self)
                    (threshold self) s store1 post p) as Hz.
      rewrite <-Hfinal, (Hzero p x) in Hz by done. by destruct Hz. }
    split; [done|]. intros E. rewrite E in H0.
    pose proof (suppress_blobs_zeroed (int_scale_factor self)
                  (threshold self) s (ge_data self) pre p) as Hz.
    unfold s in Hz. rewrite Hpre, H0 in Hz. cbn in Hz.
    destruct Hz as [Hz|Hz]; congruence.
Qed.

(** C10 at an input: of the row 4 9 8 6 3 the first blob keeps 9 and
    zeroes the voxel 8 that the second blob's box also holds; the second
    blob therefore keeps 6, and the row is left as 0 9 0 6 0. *)
Lemma find_local_maxima_in_place_witness :
  getitem (view_read [[[0; Qc_of_Z 9; 0; Qc_of_Z 6; Qc_of_Z 3]]]
                     (blob_box right_blob))
          (to_view (blob_box right_blob) (0, 0, 2)%nat) = Some 0 /\
  ge_data (find_local_maxima two_blobs).1 = [[[0; Qc_of_Z 9; 0; Qc_of_Z 6; 0]]] /\
  ge_data (find_local_maxima two_blobs).1 <> ge_data two_blobs.
Proof.
  assert (Hno : ~ sub_volume_max row_4_9_8_6_3 (blob_box left_blob) 3
                    (0, 0, 2)%nat (Qc_of_Z 8)).
  { intros (_ & _ & Hle).
    specialize (Hle (0, 0, 1)%nat (Qc_of_Z 9)).
    assert (Qc_of_Z 9 ≤ Qc_of_Z 8) as Hbad; [|by vm_compute in Hbad].
    apply Hle; [cbn; lia| |reflexivity].
    unfold in_window, in_range. change (3 / 2)%Z with 1%Z. lia. }
  assert (Hb1 : in_box (blob_box left_blob) (0, 0, 2)%nat) by (cbn; lia).
  assert (Hb2 : in_box (blob_box right_blob) (0, 0, 2)%nat) by (cbn; lia).
  assert (Hx : Qc_of_Z 8 <> 0) by by vm_compute.
  assert (Hstep : suppress_blob (int_scale_factor two_blobs) (threshold two_blobs)
            (min_peak_separation two_blobs) row_4_9_8_6_3 left_blob
          = Ok [[[0; Qc_of_Z 9; 0; Qc_of_Z 6; Qc_of_Z 3]]]).
  { vm_compute. reflexivity. }
  assert (Hend : (suppress_blobs (int_scale_factor two_blobs) (threshold two_blobs)
             (min_peak_separation two_blobs)
             [[[0; Qc_of_Z 9; 0; Qc_of_Z 6; Qc_of_Z 3]]] [right_blob]).1
          = [[[0; Qc_of_Z 9; 0; Qc_of_Z 6; 0]]])
    by (vm_compute; reflexivity).
  pose proof (find_local_maxima_in_place two_blobs [] left_blob [right_blob]
              row_4_9_8_6_3 [[[0; Qc_of_Z 9; 0; Qc_of_Z 6; Qc_of_Z 3]]]
              row_rectangular eq_refl eq_refl Hstep) as HH.
  cbv zeta in HH.
  destruct HH as (_ & _ & Hfinal & Hread & Hchanged).
  split_and!.
  - exact (Hread (blob_box right_blob) (0, 0, 2)%nat (Qc_of_Z 8)
             Hb1 Hb2 eq_refl Hno).
  - exact (eq_trans Hfinal Hend).
  - exact (proj2 (Hchanged (0, 0, 2)%nat (Qc_of_Z 8) Hb1 eq_refl Hx Hno)).
Defined.

(** Processed on the row as it was given, the second blob would keep 8
    and not 6. *)
Example right_blob_alone :
  suppress_blob 1 (Qc_of_Z 2) 3 row_4_9_8_6_3 right_blob
  = Ok [[[Qc_of_Z 4; Qc_of_Z 9; Qc_of_Z 8; 0; 0]]].
Proof. by vm_compute. Qed.

(** C1, what the code does: the voxel 3 is a local maximum of its blob,
    lies below [int_scale_factor * threshold = 1 * 10], and is still a
    peak after [find_local_maxima]; the selection
    [max_points[roi < ...]] has changed nothing. *)
Lemma find_local_maxima_keeps_low_peak :
  Qc_of_Z 3 < int_scale_factor low_peak * threshold low_peak /\
  ge_data (find_local_maxima low_peak).1
  = [[[Qc_of_Z 3; 0; 0; Qc_of_Z 20]]] /\
  peaks (ge_data (find_local_maxima low_peak).1)
        (mkSlice 0 1, mkSlice 0 1, mkSlice 0 4)
  = [(0, 0, 0); (0, 0, 3)]%nat.
Proof. split_and!; by vm_compute. Qed.

(** ** Stage 3: connected components *)

Lemma elem_of_ravel_imap3 {A B} (f : idx -> A -> B) (v : ndarray A) y :
  y ∈ ravel (imap3 f v) <-> exists p x, getitem v p = Some x /\ y = f p x.
Proof.
  rewrite elem_of_ravel. split.
  - intros (p & Hp). rewrite getitem_imap3 in Hp.
    destruct (getitem v p) as [x|] eqn:E; [|done]. injection Hp as <-. eauto.
  - intros (p & x & Hp & ->). exists p. by rewrite getitem_imap3, Hp.
Qed.

Lemma elem_of_foreground (mask : ndarray bool) p :
  p ∈ foreground mask <-> getitem mask p = Some true.
Proof.
  unfold foreground. rewrite list_elem_of_fmap. split.
  - intros ([q b] & -> & Hq). apply list_elem_of_filter in Hq as [Hb Hq].
    cbn in Hb. subst b.
    apply elem_of_ravel_imap3 in Hq as (p & x & Hp & [= -> ->]). done.
  - intros Hp. exists (p, true). split; [done|].
    apply list_elem_of_filter. split; [done|].
    apply elem_of_ravel_imap3. eauto.
Qed.

Lemma adjacent_sym p q : adjacent p q -> adjacent q p.
Proof.
  destruct p as [[i j] k], q as [[i' j'] k']. unfold adjacent, dist. lia.
Qed.

Lemma elem_of_neighbours p q : p ∈ neighbours q <-> adjacent p q.
Proof.
  destruct p as [[i j] k], q as [[i' j'] k']. unfold neighbours, adjacent, dist.
  rewrite !elem_of_app, !elem_of_cons, elem_of_nil.
  split.
  - intros [[H|[H|[H|[]]]]|[H|[H|H]]].
    + injection H as -> -> ->. lia.
    + injection H as -> -> ->. lia.
    + injection H as -> -> ->. lia.
    + destruct i' as [|i']; [by apply elem_of_nil in H|].
      apply list_elem_of_singleton in H. injection H as -> -> ->. lia.
    + destruct j' as [|j']; [by apply elem_of_nil in H|].
      apply list_elem_of_singleton in H. injection H as -> -> ->. lia.
    + destruct k' as [|k']; [by apply elem_of_nil in H|].
      apply list_elem_of_singleton in H. injection H as -> -> ->. lia.
  - intros H.
    destruct (decide (i = S i')) as [->|]; [left; left; f_equal; f_equal; lia|].
    destruct (decide (j = S j')) as [->|];
      [left; right; left; repeat f_equal; lia|].
    destruct (decide (k = S k')) as [->|];
      [left; right; right; left; repeat f_equal; lia|].
    right.
    destruct (decide (S i = i')) as [<-|].
    { left. apply list_elem_of_singleton. repeat f_equal; lia. }
    right.
    destruct (decide (S j = j')) as [<-|].
    { left. apply list_elem_of_singleton. repeat f_equal; lia. }
    right.
    destruct (decide (S k = k')) as [<-|]; [|lia].
    apply list_elem_of_singleton. repeat f_equal; lia.
Qed.

Lemma size_list_to_set_le (l : list idx) :
  (size (list_to_set (C:=gset idx) l) <= length l)%nat.
Proof.
  induction l as [|x l IH]; cbn [list_to_set length].
  - by rewrite size_empty.
  - rewrite size_union_alt, size_singleton.
    pose proof (subseteq_size (list_to_set (C:=gset idx) l ∖ {[x]})
                  (list_to_set l)) as Hle.
    assert (size (list_to_set (C:=gset idx) l ∖ {[x]})
            <= size (list_to_set (C:=gset idx) l))%nat as Hle'.
    { apply Hle. apply subseteq_difference_l. done. }
    lia.
Qed.

Section Flooding.
Context (fg : list idx).

Lemma elem_of_grow (X : gset idx) q :
  q ∈ grow fg X <-> q ∈ X \/ (q ∈ fg /\ exists p, p ∈ X /\ adjacent p q).
Proof.
  unfold grow. rewrite elem_of_union, elem_of_list_to_set, list_elem_of_filter.
  rewrite Exists_exists. setoid_rewrite elem_of_neighbours.
  split.
  - intros [Hq|[(p & Hadj & Hp) Hq]]; [by left|right]. eauto.
  - intros [Hq|(Hq & p & Hp & Hadj)]; [by left|right]. eauto.
Qed.

Lemma grow_incr (X : gset idx) : X ⊆ grow fg X.
Proof. intros q Hq. apply elem_of_grow. by left. Qed.

Lemma grow_bounded (X U : gset idx) :
  X ⊆ U -> list_to_set fg ⊆ U -> grow fg X ⊆ U.
Proof.
  intros HX HU q [Hq|[Hq _]]%elem_of_grow; [by apply HX|].
  apply HU. by apply elem_of_list_to_set.
Qed.

Lemma iter_grow_incr (n : nat) (X : gset idx) : X ⊆ Nat.iter n (grow fg) X.
Proof.
  induction n as [|n IH]; [done|]. cbn.
  etrans; [exact IH|apply grow_incr].
Qed.

(** Flooding only reaches voxels joined to the start by a path. *)
Lemma iter_grow_sound (n : nat) (p q : idx) :
  q ∈ Nat.iter n (grow fg) {[ p ]} -> rtc (step fg) p q.
Proof.
  revert q. induction n as [|n IH]; intros q; cbn.
  - intros ->%elem_of_singleton. done.
  - intros [Hq|(Hq & a & Ha & Hadj)]%elem_of_grow; [by apply IH|].
    eapply rtc_r; [by apply IH|]. done.
Qed.

(** After as many rounds as the room left in [U], flooding has stopped. *)
Lemma iter_grow_saturates (n : nat) (X U : gset idx) :
  X ⊆ U -> list_to_set fg ⊆ U -> (size U <= size X + n)%nat ->
  grow fg (Nat.iter n (grow fg) X) = Nat.iter n (grow fg) X.
Proof.
  revert X. induction n as [|n IH]; intros X HX HU Hsize.
  - cbn. apply set_eq. intros q. split; [|apply grow_incr].
    intros Hq. apply (grow_bounded X U HX HU) in Hq.
    assert (X ≡ U) as HXU.
    { apply set_subseteq_size_equiv; [done|].
      rewrite Nat.add_0_r in Hsize. exact Hsize. }
    by apply HXU.
  - rewrite Nat.iter_succ_r.
    destruct (decide (grow fg X = X)) as [E|E].
    + rewrite E. clear IH Hsize.
      induction n as [|n IHn]; [exact E|].
      rewrite Nat.iter_succ. by rewrite !IHn.
    + apply IH; [by apply grow_bounded|done|].
      assert (X ⊂ grow fg X) as Hlt.
      { split; [apply grow_incr|]. intros Hsub. apply E.
        apply set_eq. intros q. split; [apply Hsub|apply grow_incr]. }
      apply subset_size in Hlt.
      assert (size X < size (grow fg X))%nat as Hlt' by exact Hlt. lia.
Qed.

Lemma component_closed p a b :
  p ∈ fg -> a ∈ component fg p -> step fg a b -> b ∈ component fg p.
Proof.
  intros Hp Ha [Hadj Hb]. unfold component in *.
  rewrite <-(iter_grow_saturates (length fg) {[ p ]} (list_to_set fg)).
  - apply elem_of_grow. right. eauto.
  - intros q ->%elem_of_singleton. by apply elem_of_list_to_set.
  - done.
  - rewrite size_singleton.
    pose proof (size_list_to_set_le fg). lia.
Qed.

(** The flooded set is the set of voxels joined to [p] by a path. *)
Lemma elem_of_component p q :
  p ∈ fg -> q ∈ component fg p <-> rtc (step fg) p q.
Proof.
  intros Hp. split; [apply iter_grow_sound|].
  revert q. apply rtc_ind_r.
  - apply iter_grow_incr. by apply elem_of_singleton.
  - intros a b _ Hab IH. by eapply component_closed.
Qed.

Lemma step_in_fg a b : a ∈ fg -> rtc (step fg) a b -> b ∈ fg.
Proof. intros Ha. induction 1 as [|a b c [_ Hb] _ IH]; auto. Qed.

Lemma rtc_step_sym a b : a ∈ fg -> rtc (step fg) a b -> rtc (step fg) b a.
Proof.
  intros Ha Hab. induction Hab as [|a b c [Hadj Hb] Hbc IH]; [done|].
  eapply rtc_r; [by apply IH|]. split; [by apply adjacent_sym|done].
Qed.

Lemma component_eq p q :
  p ∈ fg -> q ∈ component fg p -> component fg q = component fg p.
Proof.
  intros Hp Hq. apply (elem_of_component p q Hp) in Hq as Hpq.
  assert (Hqfg : q ∈ fg) by by eapply step_in_fg.
  apply set_eq. intros r.
  rewrite (elem_of_component q r Hqfg), (elem_of_component p r Hp). split.
  - intros Hqr. by etrans.
  - intros Hpr. transitivity p; [by apply rtc_step_sym|done].
Qed.
End Flooding.

Section Labels.
Context (fg : list idx).

Lemma first_voxel_Some p r :
  first_voxel fg p = Some r <->
  exists i, fg !! i = Some r /\ r ∈ component fg p /\
            forall j y, fg !! j = Some y -> (j < i)%nat -> y ∉ component fg p.
Proof.
  unfold first_voxel. split.
  - intros ([i r'] & H & ->)%fmap_Some.
    apply list_find_Some in H. eauto.
  - intros (i & H). apply fmap_Some. exists (i, r). split; [|done].
    by apply list_find_Some.
Qed.

Lemma self_in_component p : p ∈ component fg p.
Proof. apply iter_grow_incr. by apply elem_of_singleton. Qed.

Lemma first_voxel_is_Some p : p ∈ fg -> is_Some (first_voxel fg p).
Proof.
  intros Hp. unfold first_voxel. apply fmap_is_Some.
  eapply list_find_elem_of; [exact Hp|apply self_in_component].
Qed.

Lemma first_voxel_component p q :
  p ∈ fg -> q ∈ component fg p -> first_voxel fg q = first_voxel fg p.
Proof.
  intros Hp Hq. unfold first_voxel. by rewrite (component_eq fg p q).
Qed.

Lemma first_voxel_elem p r :
  first_voxel fg p = Some r -> r ∈ fg /\ r ∈ component fg p.
Proof.
  intros (i & Hi & Hr & _)%first_voxel_Some. split; [|done].
  by eapply list_elem_of_lookup_2.
Qed.

(** The first voxel of a component is its own first voxel. *)
Lemma first_voxel_root p r :
  p ∈ fg -> first_voxel fg p = Some r -> r ∈ roots fg.
Proof.
  intros Hp Hr. pose proof (first_voxel_elem p r Hr) as [Hfg Hc].
  unfold roots. apply list_elem_of_filter. split; [|done].
  by rewrite (first_voxel_component p r).
Qed.

Lemma label_of_spec p :
  p ∈ fg ->
  exists n r, first_voxel fg p = Some r /\ roots fg !! n = Some r /\
              label_of fg (roots fg) p = S n.
Proof.
  intros Hp. destruct (first_voxel_is_Some p Hp) as [r Hr].
  pose proof (first_voxel_root p r Hp Hr) as Hroot.
  destruct (list_find_elem_of (fun r' => r' = r) (roots fg) r Hroot eq_refl)
    as [[n r'] Hfind].
  pose proof Hfind as (Hn & -> & _)%list_find_Some.
  exists n, r. split_and!; [done..|].
  unfold label_of. by rewrite Hr, Hfind.
Qed.

(** Two foreground voxels carry one label exactly when a path of
    foreground neighbours joins them. *)
Lemma label_of_eq p q :
  p ∈ fg -> q ∈ fg ->
  label_of fg (roots fg) p = label_of fg (roots fg) q <-> rtc (step fg) p q.
Proof.
  intros Hp Hq. split.
  - destruct (label_of_spec p Hp) as (n & r & Hr & Hn & ->).
    destruct (label_of_spec q Hq) as (n' & r' & Hr' & Hn' & ->).
    intros [= <-]. rewrite Hn in Hn'. injection Hn' as <-.
    apply first_voxel_elem in Hr as [_ Hr], Hr' as [_ Hr'].
    apply (elem_of_component fg p r Hp) in Hr.
    apply (elem_of_component fg q r Hq) in Hr'.
    etrans; [exact Hr|]. by apply rtc_step_sym.
  - intros Hpq. apply (elem_of_component fg p q Hp) in Hpq.
    unfold label_of. by rewrite (first_voxel_component p q Hp Hpq).
Qed.
End Labels.

Lemma getitem_greater (v : volume) thr p b :
  getitem (greater v thr) p = Some b <->
  exists x, getitem v p = Some x /\ b = bool_decide (thr < x).
Proof.
  unfold greater. rewrite getitem_amap, fmap_Some.
  split; intros (x & H1 & H2); exists x; done.
Qed.

(** A path in the mask is a path of flooding steps, and conversely. *)
Lemma connected_step (mask : ndarray bool) p q :
  getitem mask p = Some true ->
  connected mask p q <-> rtc (step (foreground mask)) p q.
Proof.
  intros Hp. split.
  - intros Hpq. induction Hpq as [|a b c (Hadj & _ & Hb) _ IH]; [done|].
    eapply rtc_l; [|by apply IH].
    split; [done|]. by apply elem_of_foreground.
  - intros Hpq. revert Hp.
    induction Hpq as [|a b c [Hadj Hb] _ IH]; intros Ha; [done|].
    apply elem_of_foreground in Hb.
    eapply rtc_l; [|by apply IH]. done.
Qed.

Lemma getitem_label (mask : ndarray bool) p :
  getitem (ndimage_label mask).1 p =
    (fun b : bool =>
       if b then label_of (foreground mask) (roots (foreground mask)) p
       else 0%nat) <$> getitem mask p.
Proof. unfold ndimage_label. cbn [fst]. by rewrite getitem_imap3. Qed.

Lemma label_of_range fg p :
  p ∈ fg -> (1 <= label_of fg (roots fg) p <= length (roots fg))%nat.
Proof.
  intros Hp. destruct (label_of_spec fg p Hp) as (n & r & _ & Hn & ->).
  apply lookup_lt_Some in Hn. lia.
Qed.

(** C4: the mask holds [true] exactly where the smoothed volume exceeds
    the threshold; two foreground voxels carry the same label exactly
    when a path of face-adjacent foreground voxels joins them; every
    foreground label lies in [1, number_of_labels] and every background
    voxel carries 0; a mask without foreground gives zero labels and a
    label volume of zeros. *)
Theorem ndimage_label_connected (smooth : volume) (thr : Qc) :
  let ge_mask := greater smooth thr in
  let label_ge := (ndimage_label ge_mask).1 in
  let number_of_labels := (ndimage_label ge_mask).2 in
  (forall p, getitem ge_mask p = Some true <->
             exists x, getitem smooth p = Some x /\ thr < x) /\
  (forall p q,
     getitem ge_mask p = Some true -> getitem ge_mask q = Some true ->
     getitem label_ge p = getitem label_ge q <-> connected ge_mask p q) /\
  (forall p, getitem ge_mask p = Some true ->
             exists l, getitem label_ge p = Some l /\
                       (1 <= l <= number_of_labels)%nat) /\
  (forall p, getitem ge_mask p = Some false ->
             getitem label_ge p = Some 0%nat) /\
  ((forall p, getitem ge_mask p <> Some true) ->
   number_of_labels = 0%nat /\
   forall p l, getitem label_ge p = Some l -> l = 0%nat).
Proof.
  intros ge_mask label_ge number_of_labels. split_and!.
  - intros p. unfold ge_mask. rewrite getitem_greater. split.
    + intros (x & Hx & Hb). exists x. split; [done|].
      symmetry in Hb. by apply bool_decide_eq_true_1 in Hb.
    + intros (x & Hx & Hlt). exists x. split; [done|].
      by rewrite bool_decide_eq_true_2.
  - intros p q Hp Hq. unfold label_ge. rewrite !getitem_label, Hp, Hq.
    cbn [fmap option_fmap option_map].
    rewrite (connected_step ge_mask p q Hp).
    rewrite <-label_of_eq by by apply elem_of_foreground.
    split; [by intros [= ->]|by intros ->].
  - intros p Hp. unfold label_ge. rewrite getitem_label, Hp.
    eexists. split; [done|]. apply label_of_range.
    by apply elem_of_foreground.
  - intros p Hp. unfold label_ge. by rewrite getitem_label, Hp.
  - intros Hno.
    assert (foreground ge_mask = []) as Hfg.
    { apply elem_of_nil_inv. intros p Hp%elem_of_foreground.
      by apply (Hno p). }
    split.
    + unfold number_of_labels, ndimage_label. cbn [snd]. by rewrite Hfg.
    + intros p l. unfold label_ge. rewrite getitem_label.
      destruct (getitem ge_mask p) as [[]|] eqn:E; [|by intros [= <-]|done].
      by destruct (Hno p).
Qed.

(** ** Stage 4: the blob filter *)

Lemma elem_of_np_unique (v : ndarray nat) l : l ∈ np_unique v <-> l ∈ ravel v.
Proof.
  unfold np_unique. rewrite merge_sort_Permutation. apply elem_of_remove_dups.
Qed.

Lemma getitem_equal_to (v : ndarray nat) n p :
  getitem (equal_to v n) p = Some true <-> getitem v p = Some n.
Proof.
  unfold equal_to. rewrite getitem_amap, fmap_Some. split.
  - intros (l & Hl & Hb). symmetry in Hb.
    apply bool_decide_eq_true_1 in Hb. by subst.
  - intros Hp. exists n. split; [done|]. by rewrite bool_decide_eq_true_2.
Qed.

(** A label that occurs in the label volume has a bounding box. *)
Lemma find_objects_occurs (v : ndarray nat) l :
  l ∈ ravel v -> find_objects (equal_to v l) <> [].
Proof.
  intros (p & Hp)%elem_of_ravel. unfold find_objects.
  destruct (foreground (equal_to v l)) as [|q qs] eqn:E; [|done].
  assert (p ∈ foreground (equal_to v l)) as Hin.
  { by apply elem_of_foreground, getitem_equal_to. }
  rewrite E in Hin. by apply elem_of_nil in Hin.
Qed.

(** With a non-negative size bound and labels that occur, the loop
    raises nothing and appends the kept blobs in order. *)
Lemma filter_blobs_kept min_size (label_ge : ndarray nat) pairs acc :
  (0 <= min_size)%Z ->
  (forall l sz, (l, sz) ∈ pairs -> l ∈ ravel label_ge) ->
  filter_blobs min_size label_ge pairs acc
  = Ok (acc ++ omap (kept min_size label_ge) pairs).
Proof.
  intros Hmin. revert acc.
  induction pairs as [|[l sz] pairs IH]; intros acc Hocc.
  - cbn. by rewrite app_nil_r.
  - assert (forall l' sz', (l', sz') ∈ pairs -> l' ∈ ravel label_ge) as Hocc'.
    { intros l' sz' H. eapply Hocc. by apply list_elem_of_further. }
    cbn [filter_blobs omap list_omap kept].
    destruct (decide (l = 0%nat)); [by apply IH|].
    destruct (decide (Z.of_nat sz < min_size)%Z); [by apply IH|].
    pose proof (find_objects_occurs label_ge l
                  (Hocc l sz (list_elem_of_here _ _))) as Hne.
    destruct (find_objects (equal_to label_ge l)) as [|[[sx sy] sz'] rest];
      [done|].
    unfold below_cbrt. rewrite decide_False by lia.
    cbn [mbind result_bind].
    destruct (bool_decide _); [by apply IH|].
    rewrite IH by done. by rewrite <-app_assoc.
Qed.

Lemma kept_mono m1 m2 (label_ge : ndarray nat) pair :
  (m1 <= m2)%Z -> is_Some (kept m2 label_ge pair) ->
  is_Some (kept m1 label_ge pair).
Proof.
  intros Hm. destruct pair as [l sz]. unfold kept.
  destruct (decide (l = 0%nat)); [done|].
  destruct (decide (Z.of_nat sz < m2)%Z); [by intros [? [=]]|].
  rewrite decide_False by lia.
  destruct (find_objects _) as [|[[sx sy] sz'] rest]; [done|].
  destruct (bool_decide _) eqn:E2; [by intros [? [=]]|].
  apply bool_decide_eq_false_1 in E2.
  rewrite bool_decide_eq_false_2 by lia. eauto.
Qed.

Lemma length_omap_mono {A B} (f g : A -> option B) (l : list A) :
  (forall x, is_Some (f x) -> is_Some (g x)) ->
  (length (omap f l) <= length (omap g l))%nat.
Proof.
  intros Hfg. induction l as [|x l IH]; [done|]. cbn.
  destruct (f x) eqn:Ef.
  - destruct (Hfg x) as [y Hy]; [by rewrite Ef|]. rewrite Hy. cbn. lia.
  - destruct (g x); cbn; lia.
Qed.

Lemma zip_elem_l {A B} (l : list A) (k : list B) x y :
  (x, y) ∈ zip l k -> x ∈ l.
Proof.
  intros (i & Hi)%list_elem_of_lookup. apply lookup_zip_with_Some in Hi.
  destruct Hi as (x' & y' & [= -> ->] & Hx & _). by eapply list_elem_of_lookup_2.
Qed.

(** What [find_blobs] computes when the stack has a frame and the size
    bound is not negative. *)
Lemma find_blobs_Ok (self : GEPreProcessor) :
  ge_smooth_data self <> [] -> (0 <= min_blob_size self)%Z ->
  let ge_mask := greater (ge_smooth_data self) (threshold self) in
  let label_ge := (ndimage_label ge_mask).1 in
  let n := (ndimage_label ge_mask).2 in
  let sizes := ndimage_sum ge_mask label_ge (seq 0 (n + 1)) in
  exists self',
    find_blobs self = Ok (self', label_ge) /\
    ge_labeled_data self' = label_ge /\
    number_of_labels self' = n /\
    blob_sizes self' = Some sizes /\
    ge_data self' = ge_data self /\
    blobs self' = omap (kept (min_blob_size self) label_ge)
                       (zip (np_unique label_ge) sizes).
Proof.
  intros Hne Hmin ge_mask label_ge n sizes. unfold find_blobs.
  fold ge_mask. destruct (ndimage_label ge_mask) as [lg nl] eqn:E.
  cbn [fst snd] in *. subst label_ge n.
  assert (lg <> []) as Hlg.
  { assert (lg = (ndimage_label ge_mask).1) as -> by by rewrite E.
    unfold ndimage_label, ge_mask, greater, amap, imap3. cbn [fst].
    destruct (ge_smooth_data self); [done|]. done. }
  destruct lg as [|fr lg]; [done|]. cbn [amax_axis0 mbind result_bind].
  rewrite filter_blobs_kept; [|done|].
  - cbn [mbind result_bind app]. eexists. split_and!; reflexivity.
  - intros l sz Hin%zip_elem_l. by apply elem_of_np_unique.
Qed.

(** C8: on the same smoothed volume a larger [min_blob_size] (not
    negative) leaves at most as many blobs, the label volume being the
    same; and on the same store and blob a larger [min_peak_separation]
    leaves at most as many peaks in the blob's box. *)
Theorem filters_monotone (self : GEPreProcessor) (m1 m2 : Z)
    (store st1 st2 : volume) (blob : GEBlob) (sf thr : Qc) (s1 s2 : Z) :
  ge_smooth_data self <> [] ->
  (0 <= m1 <= m2)%Z ->
  rectangular store ->
  (s1 <= s2)%Z ->
  suppress_blob sf thr s1 store blob = Ok st1 ->
  suppress_blob sf thr s2 store blob = Ok st2 ->
  (exists self1 self2 label_ge,
     find_blobs (with_min_blob_size m1 self) = Ok (self1, label_ge) /\
     find_blobs (with_min_blob_size m2 self) = Ok (self2, label_ge) /\
     (length (blobs self2) <= length (blobs self1))%nat) /\
  (length (peaks st2 (blob_box blob)) <= length (peaks st1 (blob_box blob)))%nat.
Proof.
  intros Hne Hm Hrect Hs H1 H2. split; [|by eapply peaks_mono].
  destruct (find_blobs_Ok (with_min_blob_size m1 self))
    as (self1 & Hf1 & _ & _ & _ & _ & Hb1); [done|cbn; lia|].
  destruct (find_blobs_Ok (with_min_blob_size m2 self))
    as (self2 & Hf2 & _ & _ & _ & _ & Hb2); [done|cbn; lia|].
  cbn [with_min_blob_size ge_smooth_data threshold min_blob_size] in *.
  eexists self1, self2, _. split_and!; [exact Hf1|exact Hf2|].
  rewrite Hb1, Hb2. apply length_omap_mono.
  intros pair. apply kept_mono. lia.
Qed.

(** C8 at an input: the 2x2x2 block with size bounds 1 and 9; the row
    4 9 8 6 3 with windows 1 and 3 on its left blob. *)
Lemma filters_monotone_witness :
  (exists self1 self2 label_ge,
     find_blobs (with_min_blob_size 1 block_state) = Ok (self1, label_ge) /\
     find_blobs (with_min_blob_size 9 block_state) = Ok (self2, label_ge) /\
     (length (blobs self2) <= length (blobs self1))%nat) /\
  (length (peaks [[[0%Qc; Qc_of_Z 9; 0%Qc; Qc_of_Z 6; Qc_of_Z 3]]]
                 (blob_box left_blob))
   <= length (peaks row_4_9_8_6_3 (blob_box left_blob)))%nat.
Proof.
  assert (H1 : suppress_blob 1 (Qc_of_Z 2) 1 row_4_9_8_6_3 left_blob
               = Ok row_4_9_8_6_3) by (vm_compute; reflexivity).
  assert (H2 : suppress_blob 1 (Qc_of_Z 2) 3 row_4_9_8_6_3 left_blob
               = Ok [[[0; Qc_of_Z 9; 0; Qc_of_Z 6; Qc_of_Z 3]]])
    by (vm_compute; reflexivity).
  exact (filters_monotone block_state 1 9 row_4_9_8_6_3 _ _
           left_blob 1 (Qc_of_Z 2) 1 3 ltac:(discriminate) ltac:(lia)
           row_rectangular ltac:(lia) H1 H2).
Defined.

(** C5, what the code does: without a background voxel [np.unique] does
    not start at 0 while the sizes do, so the label 1 is paired with the
    size of label 0.  With [min_blob_size = 0] the blob is kept with
    size 0, although its label covers all 8 voxels. *)
Lemma find_blobs_size_misaligned :
  exists self',
    find_blobs all_foreground
    = Ok (self', [[[1; 1]; [1; 1]]; [[1; 1]; [1; 1]]]%nat) /\
    blob_sizes self' = Some [0; 8]%nat /\
    blobs self' = [mkGEBlob (mkSlice 0 2) (mkSlice 0 2) (mkSlice 0 2) 1 0] /\
    count_label [[[1; 1]; [1; 1]]; [[1; 1]; [1; 1]]]%nat 1 = 8%nat.
Proof.
  eexists. split_and!; [vm_compute; reflexivity|reflexivity..].
Qed.

(** * Further properties of the code *)

(** ** Further properties of [load_data] *)



(** ** Further properties of [find_local_maxima] *)

Lemma suppress_blob_outside sf thr s (store store' : volume) blob p :
  suppress_blob sf thr s store blob = Ok store' ->
  ~ in_box (blob_box blob) p -> getitem store' p = getitem store p.
Proof.
  intros Hs Hb. apply suppress_blob_Ok in Hs. cbn zeta in Hs. subst store'.
  rewrite getitem_view_assign. destruct (getitem store p); [|done].
  cbn [fmap option_fmap option_map]. by rewrite decide_False.
Qed.

Lemma suppress_blobs_outside sf thr s (store : volume) bs p :
  Forall (fun blob => ~ in_box (blob_box blob) p) bs ->
  getitem (suppress_blobs sf thr s store bs).1 p = getitem store p.
Proof.
  revert store. induction bs as [|blob bs IH]; intros store Hbs; [done|].
  apply Forall_cons in Hbs as [Hb Hbs]. cbn.
  destruct (suppress_blob sf thr s store blob) as [store'|e] eqn:E; [|done].
  rewrite IH by done. by eapply suppress_blob_outside.
Qed.

Lemma suppress_blob_length sf thr s (store store' : volume) blob :
  suppress_blob sf thr s store blob = Ok store' -> length store' = length store.
Proof.
  intros Hs. apply suppress_blob_Ok in Hs. cbn zeta in Hs. subst store'.
  unfold view_assign, imap3. destruct (blob_box blob) as [[sx sy] sz].
  by rewrite length_imap.
Qed.

(** X11: [find_local_maxima] changes nothing but [ge_data], and there it only
    sets voxels to zero: every voxel keeps its value or becomes 0, and a
    voxel outside the boxes of all blobs keeps its value.  This holds
    also when the loop stops at an exception. *)
Theorem find_local_maxima_only_zeroes (self : GEPreProcessor) :
  let self' := (find_local_maxima self).1 in
  zeroed (ge_data self) (ge_data self') /\
  (forall p, Forall (fun blob => ~ in_box (blob_box blob) p) (blobs self) ->
             getitem (ge_data self') p = getitem (ge_data self) p) /\
  threshold self' = threshold self /\
  gauss_sigma self' = gauss_sigma self /\
  ge_smooth_data self' = ge_smooth_data self /\
  ge_labeled_data self' = ge_labeled_data self /\
  number_of_labels self' = number_of_labels self /\
  min_blob_size self' = min_blob_size self /\
  int_scale_factor self' = int_scale_factor self /\
  min_peak_separation self' = min_peak_separation self /\
  blobs self' = blobs self /\
  blob_sizes self' = blob_sizes self /\
  forall bs, (find_local_maxima self).2 = Ok bs -> bs = blobs self.
Proof.
  intros self'. unfold self'. rewrite find_local_maxima_run.
  cbn [fst snd threshold gauss_sigma ge_data ge_smooth_data ge_labeled_data
       number_of_labels min_blob_size int_scale_factor min_peak_separation
       blobs blob_sizes].
  split_and!; try done.
  - apply suppress_blobs_zeroed.
  - intros p Hp. by apply suppress_blobs_outside.
  - intros bs. destruct (suppress_blobs _ _ _ _ _).2; cbn; congruence.
Qed.

Lemma imap3_id_on {A} (f : idx -> A -> A) (v : ndarray A) :
  (forall p x, getitem v p = Some x -> f p x = x) -> imap3 f v = v.
Proof.
  intros Hf. unfold imap3.
  apply list_eq. intros i. rewrite list_lookup_imap.
  destruct (v !! i) as [fr|] eqn:Hi; [|done]. cbn. f_equal.
  apply list_eq. intros j. rewrite list_lookup_imap.
  destruct (fr !! j) as [r|] eqn:Hj; [|done]. cbn. f_equal.
  apply list_eq. intros k. rewrite list_lookup_imap.
  destruct (r !! k) as [x|] eqn:Hk; [|done]. cbn. f_equal.
  apply Hf. cbn. rewrite Hi. cbn. rewrite Hj. done.
Qed.

Lemma imap3_ext {A B} (f g : idx -> A -> B) (v : ndarray A) :
  (forall p x, f p x = g p x) -> imap3 f v = imap3 g v.
Proof.
  intros Hfg. unfold imap3.
  apply imap_ext. intros i fr _. apply imap_ext. intros j r _.
  apply imap_ext. intros k x _. apply Hfg.
Qed.

Lemma view_assign_alt {A} (store : ndarray A) b mask c :
  view_assign store b mask c =
    imap3 (fun p x => if decide (in_box b p)
                      then match getitem mask (to_view b p) with
                           | Some true => c
                           | _ => x
                           end
                      else x) store.
Proof.
  destruct b as [[sx sy] sz]. unfold view_assign. apply imap3_ext.
  intros [[i j] k] x. unfold in_slice, to_view.
  case_decide as Hb.
  - destruct Hb as (? & ? & ?). by rewrite !bool_decide_eq_true_2.
  - unfold in_box in Hb.
    destruct (bool_decide (start sx <= i < stop sx)%nat) eqn:E1; [|done].
    destruct (bool_decide (start sy <= j < stop sy)%nat) eqn:E2; [|done].
    destruct (bool_decide (start sz <= k < stop sz)%nat) eqn:E3; [|done].
    apply bool_decide_eq_true_1 in E1, E2, E3. tauto.
Qed.

(** Array equality from equal contents: the loop body keeps the shape. *)
Lemma suppress_blob_ext sf thr s (store store' : volume) blob :
  suppress_blob sf thr s store blob = Ok store' ->
  (forall p, getitem store' p = getitem store p) -> store' = store.
Proof.
  intros Hs Hext. apply suppress_blob_Ok in Hs as Hs'. cbn zeta in Hs'.
  rewrite Hs', view_assign_alt. apply imap3_id_on. intros p x Hp.
  pose proof (Hext p) as Hpp.
  rewrite Hs', view_assign_alt, getitem_imap3, Hp in Hpp.
  cbn [fmap option_fmap option_map] in Hpp. by injection Hpp.
Qed.

(** Once the loop has run over a store, running a blob of the loop on the
    result changes nothing. *)
Lemma suppress_blob_fixed sf thr s (store final : volume) bs blob :
  rectangular store -> Forall (fun x => 0 ≤ x) (ravel store) ->
  suppress_blobs sf thr s store bs = (final, Ok ()) ->
  blob ∈ bs ->
  suppress_blob sf thr s final blob = Ok final.
Proof.
  intros Hrect Hnn Hrun Hin.
  assert (Hrf : rectangular final).
  { pose proof (suppress_blobs_rectangular sf thr s store bs Hrect) as H.
    by rewrite Hrun in H. }
  assert (exists store', suppress_blob sf thr s final blob = Ok store')
    as [store' Hs].
  { apply suppress_blob_returns.
    pose proof Hin as (pre & post & ->)%list_elem_of_split.
    rewrite suppress_blobs_app in Hrun.
    destruct (suppress_blobs sf thr s store pre) as [store0 [[]|e]] eqn:E0;
      [|done].
    cbn in Hrun.
    destruct (suppress_blob sf thr s store0 blob) as [store1|e] eqn:E1;
      [|done].
    assert (length final = length store0) as Hlen.
    { pose proof (suppress_blob_length _ _ _ _ _ _ E1) as H1.
      rewrite <-H1. clear -Hrun. revert store1 Hrun.
      induction post as [|b post IH]; intros store1 Hrun.
      - by injection Hrun as ->.
      - cbn in Hrun.
        destruct (suppress_blob sf thr s store1 b) as [st|e] eqn:E; [|done].
        rewrite (IH st Hrun). by eapply suppress_blob_length. }
    unfold suppress_blob in E1. fold (blob_box blob) in E1.
    unfold blob_box, view_read in *.
    intros Hnil%fmap_nil_inv. apply (f_equal length) in Hnil.
    rewrite length_slice_list, Hlen in Hnil.
    destruct (slice_list (slice_x blob) store0) eqn:Es; [done|].
    apply (f_equal length) in Es. rewrite length_slice_list in Es.
    cbn in Es, Hnil. lia. }
  rewrite Hs. f_equal. eapply suppress_blob_ext; [exact Hs|].
  intros p. pose proof (suppress_blob_getitem _ _ _ _ _ _ Hrf Hs p) as Hp.
  destruct (getitem final p) as [x|] eqn:Hx; [|done].
  case_decide as Hb; [|done].
  destruct Hp as [[_ Hp]|[Hno Hp]]; [done|].
  rewrite Hp. f_equal. destruct (decide (x = 0)) as [->|Hx0]; [done|].
  destruct Hno. split_and!; [done..|].
  intros q y Hq Hw Hy.
  by eapply (suppress_blobs_sound sf thr s store final bs Hrect Hnn Hrun blob p x).
Qed.

Lemma suppress_blobs_fixed sf thr s (final : volume) bs :
  Forall (fun blob => suppress_blob sf thr s final blob = Ok final) bs ->
  suppress_blobs sf thr s final bs = (final, Ok ()).
Proof.
  induction bs as [|blob bs IH]; intros Hbs; [done|].
  apply Forall_cons in Hbs as [Hb Hbs]. cbn. rewrite Hb. by apply IH.
Qed.

(** X12: [find_local_maxima] is idempotent: on rectangular non-negative data,
    a second call after a successful one returns the same state. *)
Theorem find_local_maxima_idempotent (self self' : GEPreProcessor) bs :
  rectangular (ge_data self) ->
  Forall (fun x => 0 ≤ x) (ravel (ge_data self)) ->
  find_local_maxima self = (self', Ok bs) ->
  find_local_maxima self' = (self', Ok bs).
Proof.
  intros Hrect Hnn Hrun. rewrite find_local_maxima_run in Hrun.
  cbn zeta in Hrun.
  destruct (suppress_blobs _ _ _ _ _) as [final [[]|e]] eqn:E; [|done].
  cbn in Hrun. injection Hrun as <- <-.
  rewrite find_local_maxima_run.
  cbn [threshold gauss_sigma ge_data ge_smooth_data ge_labeled_data
       number_of_labels min_blob_size int_scale_factor min_peak_separation
       blobs blob_sizes].
  rewrite suppress_blobs_fixed; [done|].
  apply Forall_forall. intros blob Hin.
  by eapply suppress_blob_fixed.
Qed.

(** At an input: the row 4 9 8 6 3 with its two blobs. *)
Lemma find_local_maxima_idempotent_witness :
  find_local_maxima two_blobs_done
  = (two_blobs_done, Ok [left_blob; right_blob]).
Proof.
  assert (Hnn : Forall (fun x => 0 ≤ x) (ravel (ge_data two_blobs))).
  { apply (bool_decide_unpack _). vm_compute. exact I. }
  assert (Hrun : find_local_maxima two_blobs
                 = (two_blobs_done, Ok [left_blob; right_blob])).
  { vm_compute. reflexivity. }
  exact (find_local_maxima_idempotent two_blobs two_blobs_done _
           row_rectangular Hnn Hrun).
Defined.

(** ** The enumeration of an array *)

Lemma amap_imap3 {A B C} (g : B -> C) (f : idx -> A -> B) (v : ndarray A) :
  amap g (imap3 f v) = imap3 (fun p x => g (f p x)) v.
Proof.
  unfold amap, imap3. rewrite fmap_imap. apply imap_ext. intros i fr _. cbn.
  rewrite fmap_imap. apply imap_ext. intros j r _. cbn.
  by rewrite fmap_imap.
Qed.

(** The elements of [imap3 f v] in C order, from the enumeration of [v]. *)
Lemma ravel_imap3 {A B} (f : idx -> A -> B) (v : ndarray A) :
  ravel (imap3 f v) = (fun e => f e.1 e.2) <$> ravel (imap3 pair v).
Proof. by rewrite <-ravel_amap, amap_imap3. Qed.

Lemma ravel_enumeration {A} (v : ndarray A) :
  ravel v = snd <$> ravel (imap3 pair v).
Proof.
  rewrite <-ravel_amap, amap_imap3. f_equal. symmetry. by apply imap3_id_on.
Qed.

Lemma NoDup_imap_index {A B} (f : nat -> A -> B) (l : list A) :
  (forall i j x y, f i x = f j y -> i = j) -> NoDup (imap f l).
Proof.
  revert f. induction l as [|a l IH]; intros f Hf; [constructor|].
  rewrite imap_cons. apply NoDup_cons. split.
  - intros (k & Hk)%list_elem_of_lookup. rewrite list_lookup_imap in Hk.
    destruct (l !! k) as [y|]; [|done]. injection Hk as Hk.
    by apply Hf in Hk.
  - apply IH. intros i j x y H. apply Hf in H. cbn in H. lia.
Qed.

Lemma NoDup_join_imap {A B} (f : nat -> A -> list B) (l : list A) :
  (forall i x, NoDup (f i x)) ->
  (forall i j x y b, b ∈ f i x -> b ∈ f j y -> i = j) ->
  NoDup (mjoin (imap f l)).
Proof.
  revert f. induction l as [|a l IH]; intros f Hnd Hdisj; [constructor|].
  rewrite imap_cons. change (mjoin (?x :: ?y)) with (x ++ mjoin y).
  apply NoDup_app. split_and!; [apply Hnd| |].
  - intros b Hb (r & Hbr & Hr)%list_elem_of_join.
    apply list_elem_of_lookup in Hr as (k & Hk).
    rewrite list_lookup_imap in Hk.
    destruct (l !! k) as [y|]; [|done]. injection Hk as <-.
    pose proof (Hdisj _ _ _ _ _ Hb Hbr). cbn in *. lia.
  - apply IH; [intros; apply Hnd|].
    intros i j x y b Hi Hj. pose proof (Hdisj _ _ _ _ _ Hi Hj). cbn in *. lia.
Qed.

Lemma join_join_imap {A B} (f : nat -> A -> list (list B)) (l : list A) :
  mjoin (mjoin (imap f l)) = mjoin (imap (fun i x => mjoin (f i x)) l).
Proof.
  revert f. induction l as [|a l IH]; intros f; [done|].
  rewrite !imap_cons. change (mjoin (?x :: ?y)) with (x ++ mjoin y).
  by rewrite join_app, IH.
Qed.

Lemma elem_of_imap {A B} (f : nat -> A -> B) (l : list A) b :
  b ∈ imap f l <-> exists i x, l !! i = Some x /\ b = f i x.
Proof.
  rewrite list_elem_of_lookup. split.
  - intros (i & Hi). rewrite list_lookup_imap in Hi.
    destruct (l !! i) as [x|] eqn:E; [|done]. injection Hi as <-. eauto.
  - intros (i & x & Hi & ->). exists i. by rewrite list_lookup_imap, Hi.
Qed.

(** No position occurs twice in the enumeration. *)
Lemma NoDup_positions {A} (v : ndarray A) :
  NoDup (ravel (imap3 (fun p _ => p) v)).
Proof.
  unfold ravel, imap3. rewrite join_join_imap. apply NoDup_join_imap.
  - intros i fr. apply NoDup_join_imap.
    + intros j r. apply NoDup_imap_index. by intros k k' _ _ [= ->].
    + intros j j' r r' b (k & x & _ & ->)%elem_of_imap
        (k' & x' & _ & [= -> ->])%elem_of_imap. done.
  - intros i i' fr fr' b (r & Hb & Hr)%list_elem_of_join
      (r' & Hb' & Hr')%list_elem_of_join.
    apply elem_of_imap in Hr as (j & y & _ & ->).
    apply elem_of_imap in Hr' as (j' & y' & _ & ->).
    apply elem_of_imap in Hb as (k & x & _ & ->).
    apply elem_of_imap in Hb' as (k' & x' & _ & [= -> -> ->]). done.
Qed.

Lemma NoDup_foreground (mask : ndarray bool) : NoDup (foreground mask).
Proof.
  unfold foreground.
  apply (sublist_NoDup _ ((ravel (imap3 pair mask)).*1)).
  - rewrite <-ravel_amap, amap_imap3. apply NoDup_positions.
  - apply fmap_sublist, sublist_filter.
Qed.

(** ** The labels that occur *)

Lemma label_of_root fg k r :
  NoDup fg -> roots fg !! k = Some r -> label_of fg (roots fg) r = S k.
Proof.
  intros Hnd Hk.
  assert (r ∈ roots fg) as Hr by by eapply list_elem_of_lookup_2.
  unfold roots in Hr. apply list_elem_of_filter in Hr as [Hfirst Hfg].
  destruct (label_of_spec fg r Hfg) as (n & r' & Hr' & Hn & ->).
  rewrite Hfirst in Hr'. injection Hr' as <-. f_equal.
  eapply NoDup_lookup; [|exact Hn|exact Hk].
  unfold roots. by apply NoDup_filter.
Qed.

Section LabelValues.
Context (mask : ndarray bool).

(** Every label is at most [number_of_labels]. *)
Lemma label_le l :
  l ∈ ravel (ndimage_label mask).1 -> (l <= (ndimage_label mask).2)%nat.
Proof.
  intros (p & Hp)%elem_of_ravel.
  rewrite getitem_label in Hp.
  destruct (getitem mask p) as [[]|] eqn:E; [| |done].
  - injection Hp as <-.
    apply (label_of_range (foreground mask) p). by apply elem_of_foreground.
  - injection Hp as <-. lia.
Qed.

(** Every label from 1 to [number_of_labels] occurs. *)
Lemma label_occurs l :
  (1 <= l <= (ndimage_label mask).2)%nat -> l ∈ ravel (ndimage_label mask).1.
Proof.
  intros Hl. destruct l as [|k]; [lia|].
  destruct (lookup_lt_is_Some_2 (roots (foreground mask)) k) as [r Hr].
  { unfold ndimage_label in Hl. cbn [snd] in Hl. lia. }
  assert (r ∈ foreground mask) as Hfg.
  { apply list_elem_of_lookup_2 in Hr. unfold roots in Hr.
    by apply list_elem_of_filter in Hr as [_ ?]. }
  apply elem_of_ravel. exists r.
  rewrite getitem_label. apply elem_of_foreground in Hfg as Hm. rewrite Hm.
  cbn [fmap option_fmap option_map]. f_equal.
  apply label_of_root; [apply NoDup_foreground|done].
Qed.

(** The label 0 occurs exactly when the mask has a background voxel. *)
Lemma label_zero_occurs :
  0%nat ∈ ravel (ndimage_label mask).1 <-> false ∈ ravel mask.
Proof.
  rewrite !elem_of_ravel. split.
  - intros (p & Hp). rewrite getitem_label in Hp. exists p.
    destruct (getitem mask p) as [[]|] eqn:E; [|done..].
    injection Hp as Hp.
    pose proof (label_of_range (foreground mask) p) as Hr.
    rewrite Hp in Hr. destruct Hr; [by apply elem_of_foreground|lia].
  - intros (p & Hp). exists p. by rewrite getitem_label, Hp.
Qed.
End LabelValues.

Lemma Sorted_seq j m : Sorted Nat.le (seq j m).
Proof.
  revert j. induction m as [|m IH]; intros j; [constructor|]. cbn.
  constructor; [apply IH|].
  destruct m; cbn; constructor. lia.
Qed.

(** [np.unique] of the label volume: 0 .. n when the mask has a
    background voxel, 1 .. n when it has none. *)
Lemma np_unique_labels (mask : ndarray bool) :
  np_unique (ndimage_label mask).1 =
    if decide (false ∈ ravel mask)
    then seq 0 (S (ndimage_label mask).2)
    else seq 1 (ndimage_label mask).2.
Proof.
  assert (forall j m, (forall l, l ∈ ravel (ndimage_label mask).1 <->
                                 (j <= l < j + m)%nat) ->
                      np_unique (ndimage_label mask).1 = seq j m) as Huniq.
  { intros j m Hl. unfold np_unique.
    apply (Sorted_unique Nat.le).
    - apply Sorted_merge_sort. intros x y. unfold Nat.le. lia.
    - apply Sorted_seq.
    - rewrite merge_sort_Permutation.
      apply NoDup_Permutation; [apply NoDup_remove_dups|apply NoDup_seq|].
      intros l. rewrite elem_of_remove_dups, elem_of_seq. apply Hl. }
  case_decide as Hbg.
  - apply Huniq. intros l. split.
    + intros Hl%label_le. lia.
    + intros Hl. destruct (decide (l = 0%nat)) as [->|];
        [by apply label_zero_occurs|apply label_occurs; lia].
  - apply Huniq. intros l. split.
    + intros Hl. pose proof (label_le mask l Hl).
      destruct (decide (l = 0%nat)) as [->|]; [|lia].
      by apply label_zero_occurs in Hl.
    + intros Hl. apply label_occurs. lia.
Qed.

(** ** Bounding boxes *)

Lemma tight_ext b (P Q : idx -> Prop) :
  (forall q, P q <-> Q q) -> tight b P -> tight b Q.
Proof.
  intros HPQ. destruct b as [[sx sy] sz]. unfold tight.
  intros (Hin & H1 & H2 & H3 & H4 & H5 & H6).
  split_and!; [intros q Hq; by apply Hin, HPQ|..];
    match goal with H : exists q, _ |- _ =>
      destruct H as (q & Hq & E); exists q; split; [by apply HPQ|exact E]
    end.
Qed.

Lemma tight_around p : tight (around p) (fun q => q ∈ [p]).
Proof.
  destruct p as [[i j] k]. cbn.
  split_and!; [|exists (i, j, k); split; [apply list_elem_of_here|done]..].
  intros q ->%list_elem_of_singleton. cbn. lia.
Qed.

Lemma tight_extend b l p :
  tight b (fun q => q ∈ l) -> tight (extend b p) (fun q => q ∈ l ++ [p]).
Proof.
  destruct b as [[sx sy] sz], p as [[i j] k]. unfold tight, extend, widen.
  cbn [start stop].
  intros (Hin & (q1 & Hq1 & E1) & (q2 & Hq2 & E2) & (q3 & Hq3 & E3)
          & (q4 & Hq4 & E4) & (q5 & Hq5 & E5) & (q6 & Hq6 & E6)).
  assert (Hp : (i, j, k) ∈ l ++ [(i, j, k)]).
  { apply elem_of_app. right. apply list_elem_of_here. }
  split_and!.
  - intros [[i' j'] k'] [Hq| ->%list_elem_of_singleton]%elem_of_app.
    + specialize (Hin _ Hq). cbn in *. lia.
    + cbn. lia.
  - destruct (decide (start sx <= i)%nat).
    + exists q1. split; [apply elem_of_app; by left|lia].
    + exists (i, j, k). split; [done|cbn; lia].
  - destruct (decide (S i <= stop sx)%nat).
    + exists q2. split; [apply elem_of_app; by left|lia].
    + exists (i, j, k). split; [done|cbn; lia].
  - destruct (decide (start sy <= j)%nat).
    + exists q3. split; [apply elem_of_app; by left|lia].
    + exists (i, j, k). split; [done|cbn; lia].
  - destruct (decide (S j <= stop sy)%nat).
    + exists q4. split; [apply elem_of_app; by left|lia].
    + exists (i, j, k). split; [done|cbn; lia].
  - destruct (decide (start sz <= k)%nat).
    + exists q5. split; [apply elem_of_app; by left|lia].
    + exists (i, j, k). split; [done|cbn; lia].
  - destruct (decide (S k <= stop sz)%nat).
    + exists q6. split; [apply elem_of_app; by left|lia].
    + exists (i, j, k). split; [done|cbn; lia].
Qed.

Lemma tight_fold_extend l ps b :
  tight b (fun q => q ∈ l) ->
  tight (fold_left extend ps b) (fun q => q ∈ l ++ ps).
Proof.
  revert l b. induction ps as [|p ps IH]; intros l b Hb; cbn.
  - eapply tight_ext; [|exact Hb]. intros q. by rewrite app_nil_r.
  - eapply tight_ext; [|apply (IH (l ++ [p])), tight_extend, Hb].
    intros q. by rewrite <-app_assoc.
Qed.

(** [find_objects] gives at most one box, and it is the smallest box
    around the [true] voxels. *)
Lemma find_objects_tight (input : ndarray bool) b rest :
  find_objects input = b :: rest ->
  rest = [] /\ tight b (fun q => getitem input q = Some true).
Proof.
  unfold find_objects.
  destruct (foreground input) as [|p ps] eqn:E; [done|].
  intros [= <- <-]. split; [done|].
  eapply tight_ext; [|apply (tight_fold_extend [p] ps), tight_around].
  intros q. rewrite <-elem_of_foreground, E. done.
Qed.

(** A tight box is not empty. *)
Lemma tight_nonempty b P :
  tight b P ->
  let '(sx, sy, sz) := b in
  (start sx < stop sx /\ start sy < stop sy /\ start sz < stop sz)%nat.
Proof.
  destruct b as [[sx sy] sz]. intros (Hin & (q & Hq & _) & _).
  specialize (Hin q Hq). destruct q as [[i j] k]. cbn in Hin. lia.
Qed.

(** ** Blob sizes *)

Lemma zip_fmap_fmap {A B C} (f : A -> B) (g : A -> C) (l : list A) :
  zip (f <$> l) (g <$> l) = (fun x => (f x, g x)) <$> l.
Proof. induction l as [|x l IH]; [done|]. cbn. by rewrite IH. Qed.

Lemma length_filter_fmap {A B} (P : B -> Prop) `{!forall y, Decision (P y)}
    (f : A -> B) (l : list A) :
  length (filter P (f <$> l)) = length (filter (fun x => P (f x)) l).
Proof.
  induction l as [|x l IH]; [done|]. rewrite fmap_cons, !filter_cons.
  destruct (decide (P (f x))); cbn; by rewrite IH.
Qed.

Lemma length_filter_ext {A} (P Q : A -> Prop) `{!forall x, Decision (P x)}
    `{!forall x, Decision (Q x)} (l : list A) :
  (forall x, x ∈ l -> P x <-> Q x) ->
  length (filter P l) = length (filter Q l).
Proof.
  intros Himp. apply Nat.le_antisymm; apply length_filter_mono;
    intros x Hx; by apply Himp.
Qed.

(** The entry of [blob_sizes] for the label [i]: the number of voxels
    that carry [i], except that the entry for 0 is 0. *)
Lemma ndimage_sum_label (mask : ndarray bool) (index : list nat) :
  ndimage_sum mask (ndimage_label mask).1 index =
    (fun i => if decide (i = 0%nat) then 0%nat
              else count_label (ndimage_label mask).1 i) <$> index.
Proof.
  unfold ndimage_sum. apply list_fmap_ext. intros _ i _.
  set (fg := foreground mask).
  set (f := fun (p : idx) (b : bool) =>
              if b then label_of fg (roots fg) p else 0%nat).
  assert ((ndimage_label mask).1 = imap3 f mask) as -> by done.
  unfold count_label.
  rewrite (ravel_enumeration mask), (ravel_imap3 f mask), zip_fmap_fmap.
  rewrite !length_filter_fmap. cbn [fst snd].
  assert (forall e, e ∈ ravel (imap3 pair mask) ->
            e.2 = true -> (1 <= f e.1 e.2)%nat) as Hpos.
  { intros [p b] (q & x & Hq & [= -> ->])%elem_of_ravel_imap3 Hb.
    cbn in *. subst x. unfold f.
    apply (label_of_range fg q). by apply elem_of_foreground. }
  case_decide as Hi.
  - subst i. apply length_zero_iff_nil, elem_of_nil_inv.
    intros e [[Hb H0] He]%list_elem_of_filter.
    specialize (Hpos e He Hb). lia.
  - apply length_filter_ext. intros [p b] He. cbn. split; [tauto|].
    intros Hf. split; [|done]. destruct b; [done|]. unfold f in Hf. lia.
Qed.

(** The pairs the loop of [find_blobs] runs over.  With a background
    voxel every label meets its own size; without one, the label [i + 1]
    meets the size of the label [i]. *)
Lemma find_blobs_pairs (mask : ndarray bool) :
  let lab := (ndimage_label mask).1 in
  let n := (ndimage_label mask).2 in
  let size i := if decide (i = 0%nat) then 0%nat else count_label lab i in
  zip (np_unique lab) (ndimage_sum mask lab (seq 0 (n + 1))) =
    if decide (false ∈ ravel mask)
    then (fun i => (i, size i)) <$> seq 0 (S n)
    else (fun i => (S i, size i)) <$> seq 0 n.
Proof.
  intros lab n size. unfold lab. rewrite ndimage_sum_label, np_unique_labels.
  fold n. fold lab. fold size. rewrite Nat.add_1_r. case_decide.
  - rewrite <-(list_fmap_id (seq 0 (S n))) at 1. apply zip_fmap_fmap.
  - rewrite <-fmap_S_seq.
    replace (seq 0 (S n)) with (seq 0 n ++ [n]) by (by rewrite seq_S).
    rewrite fmap_app, zip_with_app_r.
    rewrite take_ge, drop_ge by (rewrite !length_fmap; lia).
    rewrite zip_fmap_fmap. cbn. by rewrite app_nil_r.
Qed.

(** ** The blobs of [find_blobs] *)

Lemma kept_Some min_size (label_ge : ndarray nat) l sz blob :
  kept min_size label_ge (l, sz) = Some blob ->
  l <> 0%nat /\ (min_size <= Z.of_nat sz)%Z /\
  blob_label blob = l /\ blob_size blob = sz /\
  find_objects (equal_to label_ge l) = [blob_box blob] /\
  (min_size <= Z.of_nat (extent (slice_x blob)) ^ 3)%Z /\
  (min_size <= Z.of_nat (extent (slice_y blob)) ^ 3)%Z /\
  (min_size <= Z.of_nat (extent (slice_z blob)) ^ 3)%Z.
Proof.
  unfold kept. case_decide as Hl; [done|]. case_decide as Hsz; [done|].
  destruct (find_objects (equal_to label_ge l)) as [|[[sx sy] sz'] rest] eqn:E;
    [done|].
  destruct (find_objects_tight _ _ _ E) as [-> _].
  destruct (bool_decide _) eqn:Eb; [done|]. intros [= <-].
  apply bool_decide_eq_false_1 in Eb. cbn in Eb |- *.
  split_and!; [done|lia|done..| | |].
  - assert (Z.of_nat (extent sx `min` (extent sy `min` (extent sz' `min` extent sx))) ^ 3
            <= Z.of_nat (extent sx) ^ 3)%Z; [|lia].
    apply Z.pow_le_mono_l. lia.
  - assert (Z.of_nat (extent sx `min` (extent sy `min` (extent sz' `min` extent sx))) ^ 3
            <= Z.of_nat (extent sy) ^ 3)%Z; [|lia].
    apply Z.pow_le_mono_l. lia.
  - assert (Z.of_nat (extent sx `min` (extent sy `min` (extent sz' `min` extent sx))) ^ 3
            <= Z.of_nat (extent sz') ^ 3)%Z; [|lia].
    apply Z.pow_le_mono_l. lia.
Qed.

(** What [find_blobs] keeps, for use below. *)
Lemma find_blobs_kept (self self' : GEPreProcessor) (label_ge : ndarray nat) :
  ge_smooth_data self <> [] -> (0 <= min_blob_size self)%Z ->
  find_blobs self = Ok (self', label_ge) ->
  Forall (fun blob =>
            (1 <= blob_label blob <= number_of_labels self')%nat /\
            tight (blob_box blob)
                  (fun q => getitem label_ge q = Some (blob_label blob)) /\
            (min_blob_size self <= Z.of_nat (blob_size blob))%Z /\
            (min_blob_size self <= Z.of_nat (extent (slice_x blob)) ^ 3)%Z /\
            (min_blob_size self <= Z.of_nat (extent (slice_y blob)) ^ 3)%Z /\
            (min_blob_size self <= Z.of_nat (extent (slice_z blob)) ^ 3)%Z)
         (blobs self').
Proof.
  intros Hne Hmin Hfind.
  destruct (find_blobs_Ok self Hne Hmin) as (s & Hs & _ & Hn & _ & _ & Hb).
  rewrite Hs in Hfind. injection Hfind as -> <-.
  rewrite Hb, Hn. apply Forall_forall.
  intros blob ([l sz] & Hin & Hk)%list_elem_of_omap.
  apply kept_Some in Hk as (Hl & Hsz & Hbl & Hbs & Hbox & Hx & Hy & Hz).
  apply zip_elem_l, elem_of_np_unique in Hin.
  rewrite Hbl, Hbs. split; [|split].
  - pose proof (label_le _ _ Hin). lia.
  - apply find_objects_tight in Hbox as [_ Ht].
    eapply tight_ext; [|exact Ht]. intros q. apply getitem_equal_to.
  - auto.
Qed.

(** X4: The blobs [find_blobs] keeps: each has a label of the label volume
    that is not 0, the smallest box around the voxels of its label, a
    recorded size of at least [min_blob_size], and extents whose cubes
    are at least [min_blob_size]. *)
Theorem find_blobs_blobs (self self' : GEPreProcessor) (label_ge : ndarray nat) :
  ge_smooth_data self <> [] -> (0 <= min_blob_size self)%Z ->
  find_blobs self = Ok (self', label_ge) ->
  Forall (fun blob =>
            (1 <= blob_label blob <= number_of_labels self')%nat /\
            tight (blob_box blob)
                  (fun q => getitem label_ge q = Some (blob_label blob)) /\
            (min_blob_size self <= Z.of_nat (blob_size blob))%Z /\
            (min_blob_size self <= Z.of_nat (extent (slice_x blob)) ^ 3)%Z /\
            (min_blob_size self <= Z.of_nat (extent (slice_y blob)) ^ 3)%Z /\
            (min_blob_size self <= Z.of_nat (extent (slice_z blob)) ^ 3)%Z)
         (blobs self').
Proof. apply find_blobs_kept. Qed.

Lemma tight_unique b b' (P : idx -> Prop) : tight b P -> tight b' P -> b = b'.
Proof.
  destruct b as [[[x0 x1] [y0 y1]] [z0 z1]],
           b' as [[[x0' x1'] [y0' y1']] [z0' z1']].
  unfold tight. cbn [start stop].
  intros (Hin & (q1 & Hq1 & E1) & (q2 & Hq2 & E2) & (q3 & Hq3 & E3)
          & (q4 & Hq4 & E4) & (q5 & Hq5 & E5) & (q6 & Hq6 & E6)).
  intros (Hin' & (r1 & Hr1 & F1) & (r2 & Hr2 & F2) & (r3 & Hr3 & F3)
          & (r4 & Hr4 & F4) & (r5 & Hr5 & F5) & (r6 & Hr6 & F6)).
  pose proof (Hin' _ Hq1) as A1. pose proof (Hin' _ Hq2) as A2.
  pose proof (Hin' _ Hq3) as A3. pose proof (Hin' _ Hq4) as A4.
  pose proof (Hin' _ Hq5) as A5. pose proof (Hin' _ Hq6) as A6.
  pose proof (Hin _ Hr1) as B1. pose proof (Hin _ Hr2) as B2.
  pose proof (Hin _ Hr3) as B3. pose proof (Hin _ Hr4) as B4.
  pose proof (Hin _ Hr5) as B5. pose proof (Hin _ Hr6) as B6.
  destruct q1 as [[? ?] ?], q2 as [[? ?] ?], q3 as [[? ?] ?],
           q4 as [[? ?] ?], q5 as [[? ?] ?], q6 as [[? ?] ?],
           r1 as [[? ?] ?], r2 as [[? ?] ?], r3 as [[? ?] ?],
           r4 as [[? ?] ?], r5 as [[? ?] ?], r6 as [[? ?] ?].
  cbn in *.
  assert (x0 = x0') by lia. assert (x1 = x1') by lia.
  assert (y0 = y0') by lia. assert (y1 = y1') by lia.
  assert (z0 = z0') by lia. assert (z1 = z1') by lia.
  congruence.
Qed.

Lemma kept_is_Some min_size (label_ge : ndarray nat) l sz b :
  l <> 0%nat -> (min_size <= Z.of_nat sz)%Z ->
  find_objects (equal_to label_ge l) = [b] ->
  (min_size <= Z.of_nat (extent b.1.1) ^ 3)%Z ->
  (min_size <= Z.of_nat (extent b.1.2) ^ 3)%Z ->
  (min_size <= Z.of_nat (extent b.2) ^ 3)%Z ->
  exists blob, kept min_size label_ge (l, sz) = Some blob /\
               blob_label blob = l /\ blob_size blob = sz.
Proof.
  intros Hl Hsz Hbox Hx Hy Hz. destruct b as [[sx sy] sz']. cbn in Hx, Hy, Hz.
  unfold kept. rewrite decide_False by done. rewrite decide_False by lia.
  rewrite Hbox. rewrite bool_decide_eq_false_2; [eauto|].
  cbn.
  destruct (Nat.min_dec (extent sz') (extent sx)) as [->| ->];
  destruct (Nat.min_dec (extent sy) (extent sz')) as [E2|E2];
  destruct (Nat.min_dec (extent sy) (extent sx)) as [E3|E3];
  rewrite ?E2, ?E3;
  repeat match goal with
         | |- context [Nat.min ?a ?b] =>
             destruct (Nat.min_dec a b) as [-> | ->]
         end; lia.
Qed.

(** X5: With a voxel at or below the threshold, the blobs of [find_blobs]
    are exactly the labelled components that pass the two tests: the
    recorded size of a blob is the number of voxels of its label, and a
    label has a blob exactly when that number is at least [min_blob_size]
    and so are the cubes of the extents of the box around it. *)
Theorem find_blobs_sizes (self self' : GEPreProcessor) (label_ge : ndarray nat) :
  ge_smooth_data self <> [] -> (0 <= min_blob_size self)%Z ->
  (exists p x, getitem (ge_smooth_data self) p = Some x /\ x ≤ threshold self) ->
  find_blobs self = Ok (self', label_ge) ->
  Forall (fun blob => blob_size blob = count_label label_ge (blob_label blob))
         (blobs self') /\
  forall l, (1 <= l <= number_of_labels self')%nat ->
    (exists blob, blob ∈ blobs self' /\ blob_label blob = l) <->
    ((min_blob_size self <= Z.of_nat (count_label label_ge l))%Z /\
     exists b, tight b (fun q => getitem label_ge q = Some l) /\
               (min_blob_size self <= Z.of_nat (extent b.1.1) ^ 3)%Z /\
               (min_blob_size self <= Z.of_nat (extent b.1.2) ^ 3)%Z /\
               (min_blob_size self <= Z.of_nat (extent b.2) ^ 3)%Z).
Proof.
  intros Hne Hmin (p & x & Hp & Hx) Hfind.
  destruct (find_blobs_Ok self Hne Hmin) as (s & Hs & _ & Hn & _ & _ & Hb).
  rewrite Hs in Hfind. injection Hfind as -> <-.
  set (mask := greater (ge_smooth_data self) (threshold self)) in *.
  assert (Hbg : false ∈ ravel mask).
  { apply elem_of_ravel. exists p. apply getitem_greater. exists x.
    split; [done|]. symmetry. apply bool_decide_eq_false_2.
    by apply Qcle_not_lt. }
  pose proof (find_blobs_pairs mask) as Hpairs. cbn zeta in Hpairs.
  rewrite decide_True in Hpairs by done. rewrite Hpairs in Hb. clear Hpairs.
  rewrite Hb, Hn. clear Hb Hn Hs. split.
  - apply Forall_forall.
    intros blob ([l sz] & Hin & Hk)%list_elem_of_omap.
    apply list_elem_of_fmap in Hin as (i & [= -> ->] & _).
    apply kept_Some in Hk as (Hl & _ & -> & -> & _).
    by rewrite decide_False.
  - intros l Hl. split.
    + intros (blob & ([l' sz] & Hin & Hk)%list_elem_of_omap & <-).
      apply list_elem_of_fmap in Hin as (i & [= -> ->] & _).
      apply kept_Some in Hk as (Hl0 & Hsz & -> & _ & Hbox & Hx' & Hy' & Hz').
      rewrite decide_False in Hsz by done. split; [done|].
      exists (blob_box blob). split; [|done].
      apply find_objects_tight in Hbox as [_ Ht].
      eapply tight_ext; [|exact Ht]. intros q. apply getitem_equal_to.
    + intros (Hsz & b & Ht & Hx' & Hy' & Hz').
      assert (l ∈ ravel (ndimage_label mask).1) as Hocc
        by by apply label_occurs.
      pose proof (find_objects_occurs _ _ Hocc) as Hfo.
      destruct (find_objects (equal_to (ndimage_label mask).1 l))
        as [|b0 rest] eqn:E; [done|].
      destruct (find_objects_tight _ _ _ E) as [-> Ht0].
      assert (b0 = b) as ->.
      { eapply tight_unique; [|exact Ht].
        eapply tight_ext; [|exact Ht0]. intros q. apply getitem_equal_to. }
      destruct (kept_is_Some (min_blob_size self) (ndimage_label mask).1 l
                  (count_label (ndimage_label mask).1 l) b)
        as (blob & Hk & Hbl & _); [lia|done..|].
      exists blob. split; [|done]. apply list_elem_of_omap.
      exists (l, count_label (ndimage_label mask).1 l). split; [|done].
      apply list_elem_of_fmap. exists l. split.
      * by rewrite decide_False by lia.
      * apply elem_of_seq. lia.
Qed.

Lemma ndimage_label_length (mask : ndarray bool) :
  length (ndimage_label mask).1 = length mask.
Proof. unfold ndimage_label, imap3. cbn [fst]. by rewrite length_imap. Qed.

(** X6: What [find_blobs] stores in [blob_sizes]: one entry per label from 0
    to [number_of_labels]; the entry of a label from 1 on is the number
    of voxels that carry it; the entry of label 0 is 0, not the number of
    background voxels. *)
Theorem find_blobs_blob_sizes (self self' : GEPreProcessor)
    (label_ge : ndarray nat) :
  ge_smooth_data self <> [] -> (0 <= min_blob_size self)%Z ->
  find_blobs self = Ok (self', label_ge) ->
  exists sizes,
    blob_sizes self' = Some sizes /\
    length sizes = S (number_of_labels self') /\
    sizes !! 0%nat = Some 0%nat /\
    forall i, (1 <= i <= number_of_labels self')%nat ->
              sizes !! i = Some (count_label label_ge i).
Proof.
  intros Hne Hmin Hfind.
  destruct (find_blobs_Ok self Hne Hmin) as (s & Hs & _ & Hn & Hsz & _).
  rewrite Hs in Hfind. injection Hfind as -> <-.
  eexists. split; [exact Hsz|]. rewrite ndimage_sum_label, Hn.
  set (n := (ndimage_label _).2). rewrite Nat.add_1_r.
  split_and!.
  - by rewrite length_fmap, length_seq.
  - done.
  - intros i Hi. rewrite list_lookup_fmap, lookup_seq_lt by lia.
    cbn. by rewrite decide_False by lia.
Qed.

Lemma StronglySorted_omap {A B} (key : A -> nat) (key' : B -> nat)
    (f : A -> option B) (l : list A) :
  (forall a b, f a = Some b -> key' b = key a) ->
  StronglySorted lt (key <$> l) -> StronglySorted lt (key' <$> omap f l).
Proof.
  intros Hkey. induction l as [|a l IH]; intros Hs; [constructor|].
  rewrite fmap_cons in Hs. apply StronglySorted_inv in Hs as [Hs Hall].
  cbn. destruct (f a) as [b|] eqn:E; [|by apply IH].
  cbn. constructor; [by apply IH|].
  rewrite Forall_forall in Hall. apply Forall_forall.
  intros k (b' & -> & (a' & Ha' & Hb')%list_elem_of_omap)%list_elem_of_fmap.
  rewrite (Hkey _ _ E), (Hkey _ _ Hb'). apply Hall.
  by apply list_elem_of_fmap_2.
Qed.

Lemma StronglySorted_seq j m : StronglySorted lt (seq j m).
Proof.
  revert j. induction m as [|m IH]; intros j; [constructor|]. cbn.
  constructor; [apply IH|]. apply Forall_forall.
  intros k Hk%elem_of_seq. lia.
Qed.

(** X7: The blobs come in ascending order of their labels, and no label has
    two blobs. *)
Theorem find_blobs_sorted (self self' : GEPreProcessor)
    (label_ge : ndarray nat) :
  ge_smooth_data self <> [] -> (0 <= min_blob_size self)%Z ->
  find_blobs self = Ok (self', label_ge) ->
  StronglySorted lt (blob_label <$> blobs self').
Proof.
  intros Hne Hmin Hfind.
  destruct (find_blobs_Ok self Hne Hmin) as (s & Hs & _ & _ & _ & _ & Hb).
  rewrite Hs in Hfind. injection Hfind as -> <-.
  rewrite Hb, find_blobs_pairs.
  assert (forall a b, kept (min_blob_size self)
            (ndimage_label (greater (ge_smooth_data self) (threshold self))).1
            a = Some b -> blob_label b = a.1) as Hkey.
  { intros [l sz] b Hk. by apply kept_Some in Hk as (_ & _ & -> & _). }
  apply (StronglySorted_omap fst blob_label _ _ Hkey).
  case_decide; rewrite <-list_fmap_compose.
  - erewrite list_fmap_ext; [rewrite list_fmap_id; apply StronglySorted_seq|].
    done.
  - erewrite list_fmap_ext; [rewrite fmap_S_seq; apply StronglySorted_seq|].
    done.
Qed.

(** X10: After [find_blobs], [find_local_maxima] raises nothing, provided
    [ge_data] has at least as many frames as the smoothed volume: every
    blob's view holds a frame. *)
Theorem find_blobs_then_find_local_maxima (self self' : GEPreProcessor)
    (label_ge : ndarray nat) :
  ge_smooth_data self <> [] -> (0 <= min_blob_size self)%Z ->
  (length (ge_smooth_data self) <= length (ge_data self))%nat ->
  find_blobs self = Ok (self', label_ge) ->
  (find_local_maxima self').2 = Ok (blobs self').
Proof.
  intros Hne Hmin Hlen Hfind.
  pose proof (find_blobs_kept self self' label_ge Hne Hmin Hfind) as Hall.
  destruct (find_blobs_Ok self Hne Hmin) as (s & Hs & _ & _ & _ & Hd & _).
  assert (s = self') as -> by congruence.
  assert (length label_ge = length (ge_smooth_data self)) as Hll.
  { assert (label_ge = (ndimage_label (greater (ge_smooth_data self)
                                              (threshold self))).1) as ->
      by congruence.
    rewrite ndimage_label_length. unfold greater. by rewrite amap_length. }
  rewrite find_local_maxima_run. cbn [snd].
  rewrite suppress_blobs_returns; [done|].
  eapply Forall_impl; [exact Hall|]. intros blob (_ & Ht & _).
  cbn beta in Ht. unfold blob_box in Ht.
  destruct Ht as (Hin & (q & Hq & E) & _). specialize (Hin q Hq).
  destruct q as [[i j] k]. cbn in Hin, E. rewrite Hd. split; [lia|].
  assert (is_Some (label_ge !! i)) as Hi.
  { cbn in Hq. destruct (label_ge !! i); [eauto|done]. }
  apply lookup_lt_is_Some_1 in Hi. lia.
Qed.

Lemma filter_blobs_negative min_size (label_ge : ndarray nat) pairs acc :
  (min_size < 0)%Z ->
  (forall l sz, (l, sz) ∈ pairs -> l ∈ ravel label_ge) ->
  (exists l sz, (l, sz) ∈ pairs /\ l <> 0%nat) ->
  filter_blobs min_size label_ge pairs acc = Raise ValueError.
Proof.
  intros Hmin. induction pairs as [|[l sz] pairs IH]; intros Hocc Hex.
  - destruct Hex as (l & sz & Hin & _). by apply elem_of_nil in Hin.
  - cbn [filter_blobs]. destruct (decide (l = 0%nat)) as [->|Hl].
    + apply IH.
      * intros l' sz' H. eapply Hocc. by apply list_elem_of_further.
      * destruct Hex as (l' & sz' & [[= -> ->]|Hin]%elem_of_cons & Hl');
          [done|eauto].
    + rewrite decide_False by lia.
      pose proof (find_objects_occurs label_ge l
                    (Hocc l sz (list_elem_of_here _ _))) as Hne.
      destruct (find_objects (equal_to label_ge l)) as [|[[sx sy] sz'] rest];
        [done|].
      unfold below_cbrt. by rewrite decide_True.
Qed.

Lemma find_blobs_raises (self : GEPreProcessor) e :
  let ge_mask := greater (ge_smooth_data self) (threshold self) in
  let label_ge := (ndimage_label ge_mask).1 in
  let n := (ndimage_label ge_mask).2 in
  label_ge <> [] ->
  filter_blobs (min_blob_size self) label_ge
    (zip (np_unique label_ge) (ndimage_sum ge_mask label_ge (seq 0 (n + 1))))
    [] = Raise e ->
  find_blobs self = Raise e.
Proof.
  intros ge_mask label_ge n Hne Hf. unfold find_blobs. fold ge_mask.
  subst label_ge n. destruct (ndimage_label ge_mask) as [lab n].
  cbn [fst snd] in *. destruct lab; [done|].
  cbn [amax_axis0 mbind result_bind]. by rewrite Hf.
Qed.

(** X8: With a negative [min_blob_size] and a voxel above the threshold,
    [find_blobs] raises: the first labelled component reaches
    [min_size ** (1.0/3.0)], a fractional power of a negative number. *)
Theorem find_blobs_negative (self : GEPreProcessor) :
  (min_blob_size self < 0)%Z ->
  (exists p x, getitem (ge_smooth_data self) p = Some x /\ threshold self < x) ->
  find_blobs self = Raise ValueError.
Proof.
  intros Hmin (p & x & Hp & Hx).
  set (mask := greater (ge_smooth_data self) (threshold self)).
  assert (Hfg : getitem mask p = Some true).
  { apply getitem_greater. exists x. split; [done|].
    by rewrite bool_decide_eq_true_2. }
  assert (1 <= (ndimage_label mask).2)%nat as Hn.
  { pose proof (label_of_range (foreground mask) p) as H.
    unfold ndimage_label. cbn [snd].
    destruct H; [by apply elem_of_foreground|lia]. }
  apply find_blobs_raises; fold mask.
  - intros E. apply (f_equal length) in E.
    rewrite ndimage_label_length in E.
    destruct p as [[i j] k]. cbn in Hfg. by destruct mask.
  - apply filter_blobs_negative; [done| |].
    + intros l sz Hin%zip_elem_l. by apply elem_of_np_unique.
    + pose proof (find_blobs_pairs mask) as Hpairs. cbn zeta in Hpairs.
      rewrite Hpairs. case_decide.
      * exists 1%nat. eexists. split; [|done].
        apply list_elem_of_fmap. exists 1%nat. split; [done|].
        apply elem_of_seq. lia.
      * exists 1%nat. eexists. split; [|done].
        apply list_elem_of_fmap. exists 0%nat. split; [done|].
        apply elem_of_seq. lia.
Qed.

Lemma two_spots_nonempty : ge_smooth_data two_spots <> [].
Proof. discriminate. Qed.

Lemma two_spots_min : (0 <= min_blob_size two_spots)%Z.
Proof. cbn. lia. Qed.

(** At an input: the two spots. *)
Lemma find_blobs_blobs_witness :
  match find_blobs two_spots with
  | Ok (self', label_ge) =>
      Forall (fun blob =>
                (1 <= blob_label blob <= number_of_labels self')%nat /\
                tight (blob_box blob)
                      (fun q => getitem label_ge q = Some (blob_label blob)) /\
                (1 <= Z.of_nat (blob_size blob))%Z /\
                (1 <= Z.of_nat (extent (slice_x blob)) ^ 3)%Z /\
                (1 <= Z.of_nat (extent (slice_y blob)) ^ 3)%Z /\
                (1 <= Z.of_nat (extent (slice_z blob)) ^ 3)%Z)
             (blobs self')
  | Raise _ => False
  end.
Proof.
  destruct (find_blobs two_spots) as [[self' label_ge]|e] eqn:E.
  - exact (find_blobs_blobs two_spots self' label_ge two_spots_nonempty
             two_spots_min E).
  - vm_compute in E. discriminate E.
Defined.

Lemma find_blobs_sizes_witness :
  match find_blobs two_spots with
  | Ok (self', label_ge) =>
      Forall (fun blob =>
                blob_size blob = count_label label_ge (blob_label blob))
             (blobs self')
  | Raise _ => False
  end.
Proof.
  destruct (find_blobs two_spots) as [[self' label_ge]|e] eqn:E.
  - refine (proj1 (find_blobs_sizes two_spots self' label_ge
                     two_spots_nonempty two_spots_min _ E)).
    exists (0, 0, 0)%nat, 0. split; [reflexivity|]. by vm_compute.
  - vm_compute in E. discriminate E.
Defined.

Lemma find_blobs_blob_sizes_witness :
  match find_blobs two_spots with
  | Ok (self', label_ge) =>
      exists sizes,
        blob_sizes self' = Some sizes /\
        length sizes = S (number_of_labels self') /\
        sizes !! 0%nat = Some 0%nat /\
        forall i, (1 <= i <= number_of_labels self')%nat ->
                  sizes !! i = Some (count_label label_ge i)
  | Raise _ => False
  end.
Proof.
  destruct (find_blobs two_spots) as [[self' label_ge]|e] eqn:E.
  - exact (find_blobs_blob_sizes two_spots self' label_ge two_spots_nonempty
             two_spots_min E).
  - vm_compute in E. discriminate E.
Defined.

Lemma find_blobs_sorted_witness :
  match find_blobs two_spots with
  | Ok (self', _) => StronglySorted lt (blob_label <$> blobs self')
  | Raise _ => False
  end.
Proof.
  destruct (find_blobs two_spots) as [[self' label_ge]|e] eqn:E.
  - exact (find_blobs_sorted two_spots self' label_ge two_spots_nonempty
             two_spots_min E).
  - vm_compute in E. discriminate E.
Defined.

Lemma find_blobs_then_find_local_maxima_witness :
  match find_blobs two_spots with
  | Ok (self', _) => (find_local_maxima self').2 = Ok (blobs self')
  | Raise _ => False
  end.
Proof.
  destruct (find_blobs two_spots) as [[self' label_ge]|e] eqn:E.
  - exact (find_blobs_then_find_local_maxima two_spots self' label_ge
             two_spots_nonempty two_spots_min ltac:(cbn; lia) E).
  - vm_compute in E. discriminate E.
Defined.

(** At an input: the two spots with [min_blob_size = -1]. *)
Lemma find_blobs_negative_witness :
  find_blobs (with_min_blob_size (-1) two_spots) = Raise ValueError.
Proof.
  apply find_blobs_negative.
  - cbn. lia.
  - exists (0, 0, 1)%nat, (Qc_of_Z 5). split; [reflexivity|]. by vm_compute.
Defined.

(** The blobs of the two spots, as computed. *)
Example find_blobs_two_spots :
  exists self',
    find_blobs two_spots
    = Ok (self', [[[0; 1; 0; 0]; [0; 1; 1; 0]; [0; 0; 0; 0]];
                  [[0; 1; 0; 2]; [0; 1; 1; 0]; [0; 0; 0; 0]]]%nat) /\
    blob_sizes self' = Some [0; 6; 1]%nat /\
    blobs self' = [mkGEBlob (mkSlice 0 2) (mkSlice 0 2) (mkSlice 1 3) 1 6;
                   mkGEBlob (mkSlice 1 2) (mkSlice 0 1) (mkSlice 3 4) 2 1].
Proof. eexists. split_and!; [vm_compute; reflexivity|reflexivity..]. Qed.

(** The loop body raises exactly on a view without frames. *)
Lemma suppress_blob_raises sf thr s (store : volume) blob :
  (stop (slice_x blob) <= start (slice_x blob) \/
   length store <= start (slice_x blob))%nat ->
  suppress_blob sf thr s store blob = Raise ValueError.
Proof.
  intros Hempty. unfold suppress_blob.
  assert (view_read store (slice_x blob, slice_y blob, slice_z blob) = [])
    as ->; [|done].
  unfold view_read.
  assert (slice_list (slice_x blob) store = []) as ->; [|done].
  apply length_zero_iff_nil. rewrite length_slice_list. lia.
Qed.

(** X13: When the loop of [find_local_maxima] reaches a blob whose frame range
    is empty or starts beyond the stack, it raises ValueError; what the
    blobs before it wrote stays in [ge_data], and the blobs after it are
    not processed. *)
Theorem find_local_maxima_stops (self : GEPreProcessor) pre blob post
    (store0 : volume) :
  blobs self = pre ++ blob :: post ->
  suppress_blobs (int_scale_factor self) (threshold self)
    (min_peak_separation self) (ge_data self) pre = (store0, Ok ()) ->
  (stop (slice_x blob) <= start (slice_x blob) \/
   length (ge_data self) <= start (slice_x blob))%nat ->
  (find_local_maxima self).2 = Raise ValueError /\
  ge_data (find_local_maxima self).1 = store0.
Proof.
  intros Hblobs Hpre Hempty. rewrite find_local_maxima_run.
  cbn [fst snd ge_data]. rewrite Hblobs, suppress_blobs_app, Hpre.
  cbn [suppress_blobs]. rewrite suppress_blob_raises; [done|].
  destruct Hempty as [?|Hlen]; [by left|right].
  assert (length store0 = length (ge_data self)) as ->; [|done].
  clear -Hpre. revert Hpre. generalize (ge_data self) as store.
  induction pre as [|b pre IH]; intros store Hrun.
  - by injection Hrun as ->.
  - cbn in Hrun.
    destruct (suppress_blob _ _ _ store b) as [st|e] eqn:E; [|done].
    rewrite (IH st Hrun). by eapply suppress_blob_length.
Qed.

(** At an input: the row 4 9 8 6 3 with its left blob, then a blob whose
    frames start at 7, then the right blob. *)
Lemma find_local_maxima_stops_witness :
  (find_local_maxima three_blobs).2 = Raise ValueError /\
  ge_data (find_local_maxima three_blobs).1
  = [[[0; Qc_of_Z 9; 0; Qc_of_Z 6; Qc_of_Z 3]]].
Proof.
  apply (find_local_maxima_stops three_blobs [left_blob] beyond_blob
           [right_blob]).
  - reflexivity.
  - vm_compute. reflexivity.
  - right. cbn. lia.
Defined.

Lemma in_window_one p q : in_window 1 p q -> q = p.
Proof.
  destruct p as [[i j] k], q as [[i' j'] k']. intros (Hi & Hj & Hk).
  apply (in_range_narrow 1) in Hi, Hj, Hk; [|lia..].
  repeat f_equal; lia.
Qed.

Lemma suppress_blob_window_one sf thr (store store' : volume) blob :
  rectangular store ->
  suppress_blob sf thr 1 store blob = Ok store' -> store' = store.
Proof.
  intros Hrect Hs. eapply suppress_blob_ext; [exact Hs|]. intros p.
  pose proof (suppress_blob_getitem _ _ _ _ _ _ Hrect Hs p) as Hp.
  destruct (getitem store p) as [x|] eqn:Hx; [|done].
  case_decide as Hb; [|done].
  destruct Hp as [[_ Hp]|[Hno _]]; [done|]. destruct Hno.
  split_and!; [done..|]. intros q y _ ->%in_window_one Hy.
  rewrite Hx in Hy. injection Hy as ->. apply Qcle_refl.
Qed.

(** X14: With [min_peak_separation = 1] the window holds the voxel alone:
    every voxel is a local maximum and [find_local_maxima] changes
    nothing in [ge_data]. *)
Theorem find_local_maxima_window_one (self : GEPreProcessor) :
  rectangular (ge_data self) ->
  min_peak_separation self = 1%Z ->
  ge_data (find_local_maxima self).1 = ge_data self.
Proof.
  intros Hrect Hs. rewrite find_local_maxima_run. cbn [fst ge_data].
  rewrite Hs. revert Hrect. generalize (ge_data self) as store.
  induction (blobs self) as [|blob bs IH]; intros store Hrect; [done|].
  cbn. destruct (suppress_blob _ _ 1 store blob) as [st|e] eqn:E; [|done].
  apply suppress_blob_window_one in E as ->; [|done]. by apply IH.
Qed.

(** At an input: the row 4 9 8 6 3 with its two blobs. *)
Lemma find_local_maxima_window_one_witness :
  ge_data (find_local_maxima two_blobs_window_one).1 = row_4_9_8_6_3.
Proof.
  apply (find_local_maxima_window_one two_blobs_window_one).
  - apply row_rectangular.
  - reflexivity.
Defined.

(** X3: The label volume of [find_blobs]: it is what [ge_labeled_data]
    holds, it has the shape of the smoothed volume, it is 0 exactly at the
    voxels that do not exceed the threshold, and its values are the labels
    0 .. [number_of_labels], all of the labels from 1 on occurring. *)
Theorem find_blobs_labels (self self' : GEPreProcessor)
    (label_ge : ndarray nat) :
  ge_smooth_data self <> [] -> (0 <= min_blob_size self)%Z ->
  find_blobs self = Ok (self', label_ge) ->
  ge_labeled_data self' = label_ge /\
  (forall p, getitem label_ge p = None <->
             getitem (ge_smooth_data self) p = None) /\
  (forall p x, getitem (ge_smooth_data self) p = Some x ->
               getitem label_ge p = Some 0%nat <-> x ≤ threshold self) /\
  (forall l, l ∈ ravel label_ge -> (l <= number_of_labels self')%nat) /\
  (forall l, (1 <= l <= number_of_labels self')%nat -> l ∈ ravel label_ge).
Proof.
  intros Hne Hmin Hfind.
  destruct (find_blobs_Ok self Hne Hmin) as (s & Hs & Hl & Hn & _).
  assert (s = self') as -> by congruence.
  set (mask := greater (ge_smooth_data self) (threshold self)) in *.
  assert (label_ge = (ndimage_label mask).1) as -> by congruence.
  rewrite Hn. split_and!; [done| | | |].
  - intros p. rewrite getitem_label. unfold mask, greater.
    rewrite getitem_amap. by destruct (getitem (ge_smooth_data self) p).
  - intros p x Hp.
    assert (getitem mask p = Some (bool_decide (threshold self < x))) as Hm.
    { apply getitem_greater. eauto. }
    pose proof (label_of_range (foreground mask) p) as Hr.
    rewrite elem_of_foreground in Hr.
    rewrite getitem_label, Hm. cbn [fmap option_fmap option_map].
    destruct (bool_decide (threshold self < x)) eqn:E.
    + apply bool_decide_eq_true_1 in E. split.
      * intros H0. specialize (Hr Hm).
        assert (label_of (foreground mask) (roots (foreground mask)) p = 0%nat)
          as H1 by congruence.
        lia.
      * intros Hle. by apply Qcle_not_lt in Hle.
    + apply bool_decide_eq_false_1 in E. split; [|done].
      intros _. by apply Qcnot_lt_le.
  - apply label_le.
  - apply label_occurs.
Qed.

Lemma find_blobs_labels_witness :
  match find_blobs two_spots with
  | Ok (self', label_ge) =>
      ge_labeled_data self' = label_ge /\
      (forall p, getitem label_ge p = None <->
                 getitem (ge_smooth_data two_spots) p = None) /\
      (forall p x, getitem (ge_smooth_data two_spots) p = Some x ->
                   getitem label_ge p = Some 0%nat <-> x ≤ Qc_of_Z 4) /\
      (forall l, l ∈ ravel label_ge -> (l <= number_of_labels self')%nat) /\
      (forall l, (1 <= l <= number_of_labels self')%nat -> l ∈ ravel label_ge)
  | Raise _ => False
  end.
Proof.
  destruct (find_blobs two_spots) as [[self' label_ge]|e] eqn:E.
  - exact (find_blobs_labels two_spots self' label_ge two_spots_nonempty
             two_spots_min E).
  - vm_compute in E. discriminate E.
Defined.

(** In a rectangular mask that is [true] everywhere, every voxel is
    joined to the voxel (0, 0, 0). *)
Lemma full_mask_connected (mask : ndarray bool) n1 n2 :
  rect n1 n2 mask ->
  (forall q b, getitem mask q = Some b -> b = true) ->
  forall i j k, (i < length mask)%nat -> (j < n1)%nat -> (k < n2)%nat ->
    connected mask (i, j, k) (0, 0, 0)%nat.
Proof.
  intros Hrect Hall.
  assert (forall i j k, (i < length mask)%nat -> (j < n1)%nat -> (k < n2)%nat ->
            getitem mask (i, j, k) = Some true) as Hfg.
  { intros i j k Hi Hj Hk.
    destruct (proj2 (rect_getitem n1 n2 mask i j k Hrect)) as [b Hb]; [done|].
    by rewrite Hb, (Hall _ _ Hb). }
  intros i. induction i as [|i IHi]; intros j k Hi Hj Hk.
  - revert k Hk. induction j as [|j IHj]; intros k Hk.
    + induction k as [|k IHk]; [done|].
      eapply rtc_l; [|apply IHk; lia].
      split_and!; [unfold adjacent, dist; lia|apply Hfg; lia..].
    + eapply rtc_l; [|apply (IHj ltac:(lia) k Hk)].
      split_and!; [unfold adjacent, dist; lia|apply Hfg; lia..].
  - eapply rtc_l; [|apply (IHi j k); lia].
    split_and!; [unfold adjacent, dist; lia|apply Hfg; lia..].
Qed.

(** X9: A smoothed volume that exceeds the threshold everywhere yields no
    blob as soon as [min_blob_size] is positive: its one component is
    paired with the size of label 0, which is 0. *)
Theorem find_blobs_all_foreground (self : GEPreProcessor) :
  rectangular (ge_smooth_data self) ->
  ravel (ge_smooth_data self) <> [] ->
  Forall (fun x => threshold self < x) (ravel (ge_smooth_data self)) ->
  (0 < min_blob_size self)%Z ->
  exists self' label_ge,
    find_blobs self = Ok (self', label_ge) /\
    number_of_labels self' = 1%nat /\
    blobs self' = [].
Proof.
  intros (n1 & n2 & Hrect) Hne Hall Hmin. rewrite Forall_forall in Hall.
  assert (ge_smooth_data self <> []) as Hne'.
  { intros E. by rewrite E in Hne. }
  destruct (find_blobs_Ok self Hne' ltac:(lia)) as (s & Hs & _ & Hn & _ & _ & Hb).
  set (mask := greater (ge_smooth_data self) (threshold self)) in *.
  assert (Htrue : forall q b, getitem mask q = Some b -> b = true).
  { intros q b (x & Hx & ->)%getitem_greater.
    rewrite bool_decide_eq_true_2; [done|]. apply Hall, elem_of_ravel. eauto. }
  assert (Hrm : rect n1 n2 mask).
  { unfold mask, greater, amap, rect in *. rewrite Forall_fmap.
    eapply Forall_impl; [exact Hrect|]. intros fr [Hlen Hrow]. cbn.
    rewrite length_fmap. split; [done|]. rewrite Forall_fmap.
    eapply Forall_impl; [exact Hrow|]. intros r Hr. cbn.
    by rewrite length_fmap. }
  assert (Hnobg : false ∉ ravel mask).
  { intros (q & Hq)%elem_of_ravel. by apply Htrue in Hq. }
  assert (exists p, getitem mask p = Some true) as [p0 Hp0].
  { destruct (ravel mask) as [|b l] eqn:E.
    - unfold mask, greater in E. rewrite ravel_amap in E.
      by apply fmap_nil_inv in E.
    - assert (b ∈ ravel mask) as (q & Hq)%elem_of_ravel
        by (rewrite E; apply list_elem_of_here).
      exists q. by rewrite Hq, (Htrue _ _ Hq). }
  assert (Hone : (ndimage_label mask).2 = 1%nat).
  { pose proof (label_of_range (foreground mask) p0) as Hr0.
    assert (1 <= (ndimage_label mask).2)%nat as Hge.
    { unfold ndimage_label. cbn [snd].
      destruct Hr0; [by apply elem_of_foreground|lia]. }
    destruct (decide ((ndimage_label mask).2 = 1%nat)) as [|Hneq]; [done|].
    exfalso.
    assert (1%nat ∈ ravel (ndimage_label mask).1) as (p & Hp)%elem_of_ravel
      by (apply label_occurs; lia).
    assert (2%nat ∈ ravel (ndimage_label mask).1) as (q & Hq)%elem_of_ravel
      by (apply label_occurs; lia).
    assert (forall r l, getitem (ndimage_label mask).1 r = Some l ->
              r ∈ foreground mask /\
              label_of (foreground mask) (roots (foreground mask)) r = l /\
              rtc (step (foreground mask)) r (0, 0, 0)%nat)
      as Hconn.
    { intros [[i j] k] l Hr. rewrite getitem_label in Hr.
      destruct (getitem mask (i, j, k)) as [b|] eqn:Eb; [|done].
      pose proof (Htrue _ _ Eb) as ->. injection Hr as Hr.
      split; [by apply elem_of_foreground|]. split; [done|].
      apply connected_step; [done|].
      assert (is_Some (getitem mask (i, j, k))) as Hs' by eauto.
      apply (rect_getitem _ _ _ _ _ _ Hrm) in Hs' as (? & ? & ?).
      by apply (full_mask_connected mask n1 n2). }
    destruct (Hconn p 1%nat Hp) as (Hpf & Hpl & Hpc).
    destruct (Hconn q 2%nat Hq) as (Hqf & Hql & Hqc).
    assert (rtc (step (foreground mask)) p q) as Hpq.
    { etrans; [exact Hpc|]. by apply rtc_step_sym. }
    apply (label_of_eq (foreground mask) p q Hpf Hqf) in Hpq. lia. }
  exists s, (ndimage_label mask).1. split; [exact Hs|].
  rewrite Hn, Hone. split; [done|].
  pose proof (find_blobs_pairs mask) as Hpairs. cbn zeta in Hpairs.
  rewrite decide_False, Hone in Hpairs by done.
  rewrite Hb, Hone, Hpairs. cbn [seq fmap list_fmap omap list_omap].
  unfold kept. rewrite (decide_True (P := 0%nat = 0%nat)) by done.
  rewrite (decide_False (P := 1%nat = 0%nat)) by done.
  rewrite decide_True by (cbn; lia). done.
Qed.

(** At an input: the 2 x 2 x 2 volume of fives above the threshold 1,
    with [min_blob_size = 125]. *)
Lemma find_blobs_all_foreground_witness :
  exists self' label_ge,
    find_blobs (with_min_blob_size 125 all_foreground) = Ok (self', label_ge) /\
    number_of_labels self' = 1%nat /\
    blobs self' = [].
Proof.
  apply find_blobs_all_foreground.
  - exists 2%nat, 2%nat. repeat constructor.
  - discriminate.
  - repeat constructor.
  - cbn. lia.
Defined.
